(** * Pseudonymisation workspace: mapping store and redaction engine

    A shallow embedding of [scripts/alias_manager.py] (class [AliasManager])
    and [scripts/text_redactor.py] (class [TextRedactor]), with the
    properties of the mapping store and of the redaction engine proved over
    it.

    Conventions of the embedding.
    - A Python [str] is a Rocq [string], read as the UTF-8 form of the
      text: an ASCII character is one character of the string, and
      equality, [+], [join], [split] at an ASCII character and [in] for an
      ASCII character are the same on both sides.
    - [str.lower], [str.upper] and [str.strip] work on all of Unicode.
      They are parameters of the embedding (class [StrMethods]): what is
      proved of the store is proved for any three functions in their
      place, of which only three laws of [strip] are used.  The examples
      are run with the three functions of ASCII strings.
    - The regular expressions (module [Re]) are matched as [re] matches
      ASCII text: [\w], [\d], [\s], [\b] and [re.IGNORECASE] see the ASCII
      letters, digits and spaces.  What is proved of the text that a
      redaction returns holds whatever the matcher finds, or is proved at
      a text of ASCII characters.
    - An entity is the dict that [add_entity] builds: the six keys are all
      present, so [entity.get(k, default)] is the field.  The mapping
      document is the dict that [_empty_mapping] builds.
    - A method that mutates [self] takes the old state and returns the new
      one next to its result.  [datetime.now().isoformat()] is an argument.
    - Python dicts keyed by strings ([_random_counter], [document_mapping])
      are [gmap string _]. *)

From stdpp Require Import gmap strings list fin_maps.
From Stdlib Require Import Ascii DecimalString.
Open Scope string_scope.
Open Scope list_scope.

(** ** Python string primitives *)

Module PyStr.

Definition code (c : ascii) : nat := nat_of_ascii c.

Definition in_range (lo hi : nat) (c : ascii) : bool :=
  (lo <=? code c)%nat && (code c <=? hi)%nat.

Definition is_upper (c : ascii) : bool := in_range 65 90 c.
Definition is_lower (c : ascii) : bool := in_range 97 122 c.
Definition is_digit (c : ascii) : bool := in_range 48 57 c.

(** [\w] on ASCII: letters, digits and the underscore. *)
Definition is_word (c : ascii) : bool :=
  is_upper c || is_lower c || is_digit c || (code c =? 95)%nat.

(** White space of ASCII: tab, newline, VT, FF, CR, FS..US and space. *)
Definition is_space (c : ascii) : bool :=
  in_range 9 13 c || in_range 28 32 c.

Definition lower_char (c : ascii) : ascii :=
  if is_upper c then ascii_of_nat (code c + 32) else c.

Definition upper_char (c : ascii) : ascii :=
  if is_lower c then ascii_of_nat (code c - 32) else c.

Fixpoint map_chars (f : ascii -> ascii) (s : string) : string :=
  match s with
  | EmptyString => EmptyString
  | String c s' => String (f c) (map_chars f s')
  end.

(** Truthiness of a string: [not s] is true on the empty string only. *)
Definition truthy (s : string) : bool :=
  match s with EmptyString => false | _ => true end.

(** [c in s] for a character [c]. *)
Fixpoint contains (c : ascii) (s : string) : bool :=
  match s with
  | EmptyString => false
  | String c' s' => Ascii.eqb c' c || contains c s'
  end.

(** [str.lower], [str.upper] and [str.strip] are Python's, and they work
    on all of Unicode.  The program is embedded over any three functions
    in their place; of [strip] it is used that stripping twice is
    stripping once, that what it returns is a piece of its argument, and
    that a space at the head is stripped. *)
Class StrMethods := {
  lower : string -> string;
  upper : string -> string;
  strip : string -> string;
  strip_idem : forall s, strip (strip s) = strip s;
  strip_piece : forall s, exists a b, s = a +:+ strip s +:+ b;
  strip_leading_space : forall s, strip (String " " s) = strip s
}.

Lemma contains_append (c : ascii) (a b : string) :
  contains c (a +:+ b) = contains c a || contains c b.
Proof.
  induction a as [|x a IH]; [done|]. simpl. by rewrite IH, orb_assoc.
Qed.

Lemma strip_keeps_out `{StrMethods} (c : ascii) (s : string) :
  contains c s = false -> contains c (strip s) = false.
Proof.
  destruct (strip_piece s) as (a & b & Hs). intros Hc.
  rewrite Hs, !contains_append in Hc.
  apply orb_false_iff in Hc as [_ Hc]. by apply orb_false_iff in Hc as [Hc _].
Qed.

Lemma strip_empty `{StrMethods} : strip "" = "".
Proof.
  destruct (strip_piece "") as (a & b & Hs).
  destruct a; [|discriminate Hs]. simpl in Hs. by destruct (strip "").
Qed.

(** [a.lower() == b.lower()] *)
Definition ci_eqb `{StrMethods} (a b : string) : bool :=
  String.eqb (lower a) (lower b).

(** [s.split(sep)] for a separator of one character: the pieces between
    the separators, the empty ones included; [''.split(';') == ['']]. *)
Fixpoint split (sep : ascii) (s : string) : list string :=
  match s with
  | EmptyString => [EmptyString]
  | String c s' =>
      if Ascii.eqb c sep then EmptyString :: split sep s'
      else
        match split sep s' with
        | [] => [String c EmptyString]
        | piece :: pieces => String c piece :: pieces
        end
  end.

(** [sep.join(l)] *)
Fixpoint join (sep : string) (l : list string) : string :=
  match l with
  | [] => EmptyString
  | [x] => x
  | x :: l' => x +:+ sep +:+ join sep l'
  end.

(** Carriage return and line feed. *)
Definition CR : ascii := ascii_of_nat 13.
Definition LF : ascii := ascii_of_nat 10.

(** What a file opened for reading in text mode, with the default
    [newline=None], hands over: every ["\r\n"] and every other ["\r"]
    of the file has become ["\n"].  [after_cr] tells that the character
    before was a carriage return, whose line feed is already out. *)
Fixpoint translate_newlines (after_cr : bool) (s : string) : string :=
  match s with
  | EmptyString => EmptyString
  | String c s' =>
      if Ascii.eqb c CR then String LF (translate_newlines true s')
      else if Ascii.eqb c LF then
        if after_cr then translate_newlines false s'
        else String LF (translate_newlines false s')
      else String c (translate_newlines false s')
  end.

Definition universal_newlines (s : string) : string :=
  translate_newlines false s.

(** [str(n)] for a natural number: its decimal digits. *)
Definition str_nat (n : nat) : string :=
  NilEmpty.string_of_uint (Nat.to_uint n).

Fixpoint zeros (k : nat) : string :=
  match k with
  | O => EmptyString
  | S k' => String "0" (zeros k')
  end.

(** [f"{n:03d}"]: the decimal digits, filled with zeros on the left up to
    width 3; a longer number is written in full. *)
Definition fmt_03d (n : nat) : string :=
  let digits := str_nat n in
  zeros (3 - String.length digits) +:+ digits.

Lemma universal_newlines_plain (s : string) :
  contains CR s = false -> universal_newlines s = s.
Proof.
  unfold universal_newlines. induction s as [|c s IH]; [done|].
  simpl. intros H. apply orb_false_iff in H as [Hc Hs]. rewrite Hc.
  destruct (Ascii.eqb c LF) eqn:Hl; [apply Ascii.eqb_eq in Hl as ->|];
    by rewrite IH.
Qed.

Lemma translate_newlines_line_feed (s : string) :
  forall after_cr,
    contains LF (translate_newlines after_cr s) = false ->
    contains CR s = false.
Proof.
  induction s as [|c s IH]; intros after_cr; [done|].
  cbn [translate_newlines contains].
  destruct (Ascii.eqb c CR) eqn:Hc.
  - intros H. cbn [contains] in H. rewrite Ascii.eqb_refl in H.
    discriminate H.
  - destruct (Ascii.eqb c LF) eqn:Hl.
    + destruct after_cr; intros H.
      * by apply (IH false).
      * cbn [contains] in H. rewrite Ascii.eqb_refl in H. discriminate H.
    + intros H. cbn [contains] in H. rewrite Hl in H.
      by apply (IH false).
Qed.

(** A string without a line feed is read from itself only. *)
Lemma universal_newlines_inv (s k : string) :
  universal_newlines s = k -> contains LF k = false -> s = k.
Proof.
  intros <- Hk. symmetry. apply universal_newlines_plain.
  by apply (translate_newlines_line_feed s false).
Qed.

(** *** The three methods on ASCII strings

    On a string of ASCII characters [str.lower], [str.upper] and
    [str.strip] are the functions below; the examples are run with
    them. *)
Definition lower_ascii (s : string) : string := map_chars lower_char s.
Definition upper_ascii (s : string) : string := map_chars upper_char s.

Fixpoint lstrip_ascii (s : string) : string :=
  match s with
  | EmptyString => EmptyString
  | String c s' => if is_space c then lstrip_ascii s' else s
  end.

Fixpoint rstrip_ascii (s : string) : string :=
  match s with
  | EmptyString => EmptyString
  | String c s' =>
      match rstrip_ascii s' with
      | EmptyString => if is_space c then EmptyString else String c EmptyString
      | r => String c r
      end
  end.

Definition strip_ascii (s : string) : string := rstrip_ascii (lstrip_ascii s).

Lemma lstrip_ascii_contains (c : ascii) (s : string) :
  contains c s = false -> contains c (lstrip_ascii s) = false.
Proof.
  induction s as [|x s IH]; simpl; [done|]. intros H.
  destruct (is_space x); [|done].
  apply IH. by apply orb_false_iff in H as [_ ?].
Qed.

Lemma rstrip_ascii_cons (x : ascii) (s : string) :
  rstrip_ascii (String x s)
  = match rstrip_ascii s with
    | EmptyString => if is_space x then EmptyString else String x EmptyString
    | r => String x r
    end.
Proof. reflexivity. Qed.

Lemma rstrip_ascii_contains (c : ascii) (s : string) :
  contains c s = false -> contains c (rstrip_ascii s) = false.
Proof.
  induction s as [|x s IH]; [done|]. intros H.
  simpl in H. apply orb_false_iff in H as [Hx Hs]. specialize (IH Hs).
  rewrite rstrip_ascii_cons. destruct (rstrip_ascii s) as [|y r].
  - destruct (is_space x); [done|]. simpl. by rewrite Hx.
  - change (contains c (String x (String y r)))
      with (Ascii.eqb x c || contains c (String y r)).
    by rewrite Hx, IH.
Qed.

Lemma rstrip_ascii_idem (s : string) :
  rstrip_ascii (rstrip_ascii s) = rstrip_ascii s.
Proof.
  induction s as [|x s IH]; [done|].
  rewrite rstrip_ascii_cons. destruct (rstrip_ascii s) as [|y r] eqn:E.
  - destruct (is_space x) eqn:Ex; [done|]. rewrite rstrip_ascii_cons. simpl.
    by rewrite Ex.
  - by rewrite rstrip_ascii_cons, IH.
Qed.

(** No white space at the head. *)
Definition lead_ok (s : string) : Prop :=
  match s with
  | String c _ => is_space c = false
  | EmptyString => True
  end.

Lemma lstrip_ascii_lead_ok (s : string) : lead_ok (lstrip_ascii s).
Proof.
  induction s as [|x s IH]; simpl; [done|].
  by destruct (is_space x) eqn:E.
Qed.

Lemma lead_ok_lstrip_ascii (s : string) : lead_ok s -> lstrip_ascii s = s.
Proof. destruct s as [|x s]; simpl; [done|]. by intros ->. Qed.

Lemma lead_ok_rstrip_ascii (s : string) : lead_ok s -> lead_ok (rstrip_ascii s).
Proof.
  destruct s as [|x s]; [done|]. simpl (lead_ok (String x s)). intros Hx.
  rewrite rstrip_ascii_cons. destruct (rstrip_ascii s); [by rewrite Hx | done].
Qed.

Lemma strip_ascii_idem (s : string) :
  strip_ascii (strip_ascii s) = strip_ascii s.
Proof.
  unfold strip_ascii.
  rewrite (lead_ok_lstrip_ascii (rstrip_ascii (lstrip_ascii s)))
    by apply lead_ok_rstrip_ascii, lstrip_ascii_lead_ok.
  apply rstrip_ascii_idem.
Qed.

Lemma lstrip_ascii_piece (s : string) : exists a, s = a +:+ lstrip_ascii s.
Proof.
  induction s as [|x s [a IH]]; [by exists EmptyString|]. simpl.
  destruct (is_space x).
  - exists (String x a).
    change (String x s = String x (a +:+ lstrip_ascii s)). by rewrite <- IH.
  - by exists EmptyString.
Qed.

Lemma rstrip_ascii_piece (s : string) : exists b, s = rstrip_ascii s +:+ b.
Proof.
  induction s as [|x s [b IH]]; [by exists EmptyString|].
  rewrite rstrip_ascii_cons. destruct (rstrip_ascii s) as [|y r].
  - change (s = b) in IH. destruct (is_space x).
    + exists (String x b). by rewrite IH.
    + exists b. by rewrite IH.
  - exists b.
    change (String x s = String x (String y r +:+ b)). by rewrite <- IH.
Qed.

Lemma strip_ascii_piece (s : string) :
  exists a b, s = a +:+ strip_ascii s +:+ b.
Proof.
  destruct (lstrip_ascii_piece s) as [a Ha].
  destruct (rstrip_ascii_piece (lstrip_ascii s)) as [b Hb].
  exists a, b. unfold strip_ascii. by rewrite <- Hb.
Qed.

Lemma strip_ascii_leading_space (s : string) :
  strip_ascii (String " " s) = strip_ascii s.
Proof. reflexivity. Qed.

#[global] Instance ascii_methods : StrMethods :=
  {| lower := lower_ascii; upper := upper_ascii; strip := strip_ascii;
     strip_idem := strip_ascii_idem;
     strip_piece := strip_ascii_piece;
     strip_leading_space := strip_ascii_leading_space |}.

End PyStr.

(** ** The mapping document *)

Record Entity := mkEntity {
  original : string;
  alias : string;
  etype : string;
  variations : list string;
  notes : string;
  added : string
}.

Record Mapping := mkMapping {
  version : string;
  created : string;
  updated : string;
  entities : list Entity
}.

Definition set_entities (m : Mapping) (es : list Entity) : Mapping :=
  {| version := version m; created := created m; updated := updated m;
     entities := es |}.

(** ** class AliasManager *)

Module AliasManager.
Import PyStr.

Section WithStrMethods.
Context {str_methods : StrMethods}.

(** [_empty_mapping]: both timestamps are read from the clock. *)
Definition _empty_mapping (now1 now2 : string) : Mapping :=
  {| version := "1.0"; created := now1; updated := now2; entities := [] |}.

(** The duplicate check that opens [add_entity]: the loop leaves with
    [False] at the first entity whose original or whose alias collides. *)
Fixpoint duplicate_check (es : list Entity) (orig al : string) : bool :=
  match es with
  | [] => false
  | e :: es' =>
      if ci_eqb (original e) orig then true
      else if ci_eqb (alias e) al then true
      else duplicate_check es' orig al
  end.

(** [variations or []] *)
Definition or_empty (vs : option (list string)) : list string :=
  match vs with
  | None => []
  | Some l => l
  end.

Definition add_entity (m : Mapping) (now orig al entity_type : string)
    (vars : option (list string)) (nts : string) : bool * Mapping :=
  if duplicate_check (entities m) orig al then (false, m)
  else
    let entity :=
      {| original := orig; alias := al; etype := entity_type;
         variations := or_empty vars; notes := nts; added := now |} in
    (true, set_entities m (entities m ++ [entity])).

(** The index at which the loop of [remove_entity] stops. *)
Fixpoint index_of_original (es : list Entity) (orig : string) : option nat :=
  match es with
  | [] => None
  | e :: es' =>
      if ci_eqb (original e) orig then Some 0
      else S <$> index_of_original es' orig
  end.

Definition remove_entity (m : Mapping) (orig : string) : bool * Mapping :=
  match index_of_original (entities m) orig with
  | Some i => (true, set_entities m (delete i (entities m)))
  | None => (false, m)
  end.

(** Whether the inner loop of [get_entity] over the variations returns. *)
Fixpoint variation_hit (vs : list string) (q : string) : bool :=
  match vs with
  | [] => false
  | v :: vs' => if ci_eqb v q then true else variation_hit vs' q
  end.

(** The position of the dict that [get_entity] returns: the callers that
    mutate the result ([update_entity]) write at this position. *)
Fixpoint get_entity_ref (es : list Entity) (q : string) : option nat :=
  match es with
  | [] => None
  | e :: es' =>
      if ci_eqb (original e) q then Some 0
      else if variation_hit (variations e) q then Some 0
      else S <$> get_entity_ref es' q
  end.

Fixpoint get_entity_in (es : list Entity) (q : string) : option Entity :=
  match es with
  | [] => None
  | e :: es' =>
      if ci_eqb (original e) q then Some e
      else if variation_hit (variations e) q then Some e
      else get_entity_in es' q
  end.

Definition get_entity (m : Mapping) (q : string) : option Entity :=
  get_entity_in (entities m) q.

(** [entity['alias'] if entity else None]: an entity has keys, so it is
    truthy. *)
Definition get_alias (m : Mapping) (q : string) : option string :=
  match get_entity m q with
  | Some entity => Some (alias entity)
  | None => None
  end.

(** *** update_entity

    [**kwargs] is a dict from names to values, and the method does not
    look at the values: a string, a list of strings, [None], or any other
    object, told apart by a number.  What the method writes into an entity
    need not have the type of the field, so the entities it leaves behind
    are given as Python has them, each one the dict of its keys. *)
Inductive pyval :=
| VStr (s : string)
| VList (l : list string)
| VNone
| VOther (n : nat).

Definition allowed_fields : list string :=
  ["alias"; "type"; "variations"; "notes"].

(** The dict of an entity. *)
Definition as_dict (e : Entity) : gmap string pyval :=
  list_to_map
    [("original", VStr (original e)); ("alias", VStr (alias e));
     ("type", VStr (etype e)); ("variations", VList (variations e));
     ("notes", VStr (notes e)); ("added", VStr (added e))].

(** [for field, value in kwargs.items(): if field in allowed_fields:
    entity[field] = value] *)
Fixpoint apply_kwargs (entity : gmap string pyval)
    (kwargs : list (string * pyval)) : gmap string pyval :=
  match kwargs with
  | [] => entity
  | (field, value) :: kwargs' =>
      if bool_decide (field ∈ allowed_fields)
      then apply_kwargs (<[field := value]> entity) kwargs'
      else apply_kwargs entity kwargs'
  end.

(** How the call ends.  A keyword named as one of the two parameters of
    the method, [self] or [original], makes the call itself a
    [TypeError] (the parameter gets two values) and the body is not
    run; otherwise the method returns, with the entities as they then
    are. *)
Inductive update_outcome :=
| UpdateTypeError
| UpdateReturned (result : bool) (dicts : list (gmap string pyval)).

Definition update_entity (m : Mapping) (q : string)
    (kwargs : list (string * pyval)) : update_outcome :=
  if bool_decide ("self" ∈ (kwargs.*1) ∨ "original" ∈ (kwargs.*1))
  then UpdateTypeError
  else
    match get_entity m q, get_entity_ref (entities m) q with
    | Some entity, Some i =>
        UpdateReturned true
          (<[i := apply_kwargs (as_dict entity) kwargs]>
             (as_dict <$> entities m))
    | _, _ => UpdateReturned false (as_dict <$> entities m)
    end.

(** *** validate *)

(** The issue strings, by their f-string:
    - [DuplicateOriginals d] is [f"Duplicate originals: {d}"],
    - [DuplicateAliases d] is [f"Duplicate aliases: {d}"],
    - [MissingOriginal i] is [f"Entity {i}: missing original"],
    - [MissingAlias i] is [f"Entity {i}: missing alias"]. *)
Inductive issue :=
| DuplicateOriginals (d : gset string)
| DuplicateAliases (d : gset string)
| MissingOriginal (i : nat)
| MissingAlias (i : nat).

(** [l.count(x)] *)
Definition count (x : string) (l : list string) : nat :=
  length (filter (fun y => y = x) l).

(** [set([x for x in l if l.count(x) > 1])] *)
Definition repeated (l : list string) : gset string :=
  list_to_set (filter (fun x => 1 < count x l) l).

(** The loop over [enumerate(entities)], started at index [i]. *)
Fixpoint empty_fields (i : nat) (es : list Entity) : list issue :=
  match es with
  | [] => []
  | e :: es' =>
      (if truthy (original e) then [] else [MissingOriginal i]) ++
      (if truthy (alias e) then [] else [MissingAlias i]) ++
      empty_fields (S i) es'
  end.

Record Validation := mkValidation {
  valid : bool;
  issues : list issue
}.

Definition validate (m : Mapping) : Validation :=
  let originals := map (fun e => lower (original e)) (entities m) in
  let duplicates := repeated originals in
  let issues1 :=
    if bool_decide (duplicates = ∅) then [] else [DuplicateOriginals duplicates] in
  let aliases := map (fun e => lower (alias e)) (entities m) in
  let dup_aliases := repeated aliases in
  let issues2 :=
    if bool_decide (dup_aliases = ∅) then [] else [DuplicateAliases dup_aliases] in
  let all := issues1 ++ issues2 ++ empty_fields 0 (entities m) in
  {| valid := (length all =? 0)%nat; issues := all |}.

(** *** merge *)

(** An entity of the other document: [original] and [alias] are indexed,
    the other three keys are read with [.get] and a default. *)
Record Incoming := mkIncoming {
  in_original : string;
  in_alias : string;
  in_type : option string;
  in_variations : option (list string);
  in_notes : option string
}.

Record MergeResults := mkMergeResults {
  merged_added : nat;
  merged_skipped : nat;
  merged_overwritten : nat
}.

(** The call [self.add_entity(original=..., alias=..., ...)] of [merge];
    its result is dropped. *)
Definition add_incoming (m : Mapping) (now : string) (e : Incoming) : Mapping :=
  (add_entity m now (in_original e) (in_alias e)
     (default "other" (in_type e))
     (Some (default [] (in_variations e)))
     (default "" (in_notes e))).2.

(** One turn of the loop of [merge]; [now] is the clock of this turn. *)
Definition merge_step (conflict_strategy : string) (now : string)
    (acc : MergeResults * Mapping) (e : Incoming) : MergeResults * Mapping :=
  let '(r, m) := acc in
  match get_entity m (in_original e) with
  | Some _ =>
      if String.eqb conflict_strategy "overwrite" then
        let m1 := (remove_entity m (in_original e)).2 in
        let m2 := add_incoming m1 now e in
        ({| merged_added := merged_added r; merged_skipped := merged_skipped r;
            merged_overwritten := merged_overwritten r + 1 |}, m2)
      else
        ({| merged_added := merged_added r;
            merged_skipped := merged_skipped r + 1;
            merged_overwritten := merged_overwritten r |}, m)
  | None =>
      let m2 := add_incoming m now e in
      ({| merged_added := merged_added r + 1;
          merged_skipped := merged_skipped r;
          merged_overwritten := merged_overwritten r |}, m2)
  end.

(** [clock k] is the time read by the [k]-th turn of the loop. *)
Fixpoint merge_loop (conflict_strategy : string) (clock : nat -> string)
    (k : nat) (other : list Incoming) (acc : MergeResults * Mapping)
    : MergeResults * Mapping :=
  match other with
  | [] => acc
  | e :: other' =>
      merge_loop conflict_strategy clock (S k) other'
        (merge_step conflict_strategy (clock k) acc e)
  end.

Definition merge (m : Mapping) (clock : nat -> string)
    (other_entities : list Incoming) (conflict_strategy : string)
    : MergeResults * Mapping :=
  merge_loop conflict_strategy clock 0 other_entities
    ({| merged_added := 0; merged_skipped := 0; merged_overwritten := 0 |}, m).

(** *** export_csv and import_csv

    A file is the table of its rows, each row the list of its fields, as
    [csv.writer] is given them: the [csv] module is Python's, not this
    program's, and its quoting is taken to carry every field through the
    file.  [export_csv] opens its file with [newline=''], so the fields
    are written as they are.  [import_csv] opens its file without it: the
    text is read with universal newlines, and the reader gets every field
    with its carriage returns turned into line feeds. *)

Definition csv_header : list string :=
  ["Original"; "Alias"; "Type"; "Variations"; "Notes"].

Definition export_row (e : Entity) : list string :=
  [original e; alias e; etype e; join "; " (variations e); notes e].

Definition export_csv (m : Mapping) : list (list string) :=
  csv_header :: map export_row (entities m).

(** [csv.DictReader] on a file opened with [open(path, 'r')]: the first
    row gives the field names, an empty row is passed over, and every
    other row becomes the dict of its fields under these names
    ([dict(zip(fieldnames, row))]: of two equal names the last one stays).
    The dict is the one Python builds for a row that has a field for every
    name of the header; for a shorter row Python puts [None] under the
    names that are left, which a dict of strings does not hold, and what
    is proved of such rows is said where it is proved. *)
Definition dict_reader (table : list (list string))
    : list (gmap string string) :=
  match table with
  | [] => []
  | fieldnames :: rows =>
      map (fun row =>
             list_to_map
               (reverse (zip (map universal_newlines fieldnames)
                             (map universal_newlines row))))
          (filter (fun row => row ≠ []) rows)
  end.

(** [[v.strip() for v in field.split(';') if v.strip()]] *)
Definition parse_variations (field : string) : list string :=
  filter (fun v => truthy v) (map strip (split ";" field)).

Record ImportResults := mkImportResults {
  import_added : nat;
  import_skipped : nat;
  import_errors : list string
}.

(** What the body of the [try] did with a row; [RowError msg] is the
    exception and [msg] its [str(e)], as [KeyError] gives it. *)
Inductive row_outcome :=
| RowAdded
| RowSkipped
| RowError (msg : string).

Definition import_row (m : Mapping) (now : string) (overwrite : bool)
    (row : gmap string string) : row_outcome * Mapping :=
  let vars := parse_variations (default "" (row !! "Variations")) in
  let removed :=
    if overwrite then
      match row !! "Original" with
      | Some o => Some (remove_entity m o).2
      | None => None
      end
    else Some m in
  match removed with
  | None => (RowError "'Original'", m)
  | Some m1 =>
      match row !! "Original" with
      | None => (RowError "'Original'", m1)
      | Some o =>
          match row !! "Alias" with
          | None => (RowError "'Alias'", m1)
          | Some a =>
              let '(success, m2) :=
                add_entity m1 now o a (default "other" (row !! "Type"))
                  (Some vars) (default "" (row !! "Notes")) in
              (if success then RowAdded else RowSkipped, m2)
          end
      end
  end.

Definition count_row (r : ImportResults) (o : row_outcome) : ImportResults :=
  match o with
  | RowAdded =>
      {| import_added := import_added r + 1;
         import_skipped := import_skipped r;
         import_errors := import_errors r |}
  | RowSkipped =>
      {| import_added := import_added r;
         import_skipped := import_skipped r + 1;
         import_errors := import_errors r |}
  | RowError msg =>
      {| import_added := import_added r;
         import_skipped := import_skipped r;
         import_errors := import_errors r ++ [msg] |}
  end.

(** The loop over the rows; [clock k] is the time read for row [k]. *)
Fixpoint import_loop (clock : nat -> string) (overwrite : bool) (k : nat)
    (rows : list (gmap string string)) (acc : ImportResults * Mapping)
    : ImportResults * Mapping :=
  match rows with
  | [] => acc
  | row :: rows' =>
      let '(o, m') := import_row acc.2 (clock k) overwrite row in
      import_loop clock overwrite (S k) rows' (count_row acc.1 o, m')
  end.

Definition import_csv (m : Mapping) (clock : nat -> string)
    (table : list (list string)) (overwrite : bool)
    : ImportResults * Mapping :=
  import_loop clock overwrite 0 (dict_reader table)
    ({| import_added := 0; import_skipped := 0; import_errors := [] |}, m).

End WithStrMethods.

End AliasManager.

(** ** The regular expressions of module [re]

    The part of [re] that the program uses: literal characters, character
    classes, the word boundary, sequence, alternation and greedy counted
    repetition, matched with backtracking in the priority order of the
    engine, and [re.sub] with a function as replacement.  The characters
    are matched as [re] matches ASCII text. *)

Module Re.
Import PyStr.

Inductive regex :=
| Lit (c : ascii)
| Class (member : ascii -> bool)
| Boundary
| Eps
| Seq (r1 r2 : regex)
| Alt (r1 r2 : regex)
| Repeat (r : regex) (lo : nat) (hi : option nat).

(** Whether the character next to a position is a word character; there is
    none before the start and after the end of the text. *)
Definition word_side (c : option ascii) : bool :=
  match c with
  | Some c => is_word c
  | None => false
  end.

Definition head (s : string) : option ascii :=
  match s with
  | EmptyString => None
  | String c _ => Some c
  end.

(** [\b] between [prev] and the text [s] that follows: exactly one of the
    two sides is a word character. *)
Definition at_boundary (prev : option ascii) (s : string) : bool :=
  xorb (word_side prev) (word_side (head s)).

(** Equality of two characters, under [re.IGNORECASE] when [ic] is set. *)
Definition char_eqb (ic : bool) (a b : ascii) : bool :=
  if ic then Ascii.eqb (lower_char a) (lower_char b) else Ascii.eqb a b.

Definition class_mem (ic : bool) (member : ascii -> bool) (c : ascii) : bool :=
  member c || (ic && (member (lower_char c) || member (upper_char c))).

(** [run ic r prev s k]: match [r] at the head of [s], the character
    before it being [prev], and hand what is left to [k]; when [k] fails
    the next alternative of [r] is tried.  A repetition is greedy: one
    more turn is tried before leaving the loop.  An unbounded repetition
    gets as many turns as the text has characters, on top of [lo]. *)
Fixpoint run {R : Type} (ic : bool) (r : regex) (prev : option ascii)
    (s : string) (k : option ascii -> string -> option R) {struct r}
    : option R :=
  match r with
  | Lit c =>
      match s with
      | String c' s' => if char_eqb ic c c' then k (Some c') s' else None
      | EmptyString => None
      end
  | Class member =>
      match s with
      | String c' s' => if class_mem ic member c' then k (Some c') s' else None
      | EmptyString => None
      end
  | Boundary => if at_boundary prev s then k prev s else None
  | Eps => k prev s
  | Seq r1 r2 => run ic r1 prev s (fun prev' s' => run ic r2 prev' s' k)
  | Alt r1 r2 =>
      match run ic r1 prev s k with
      | Some x => Some x
      | None => run ic r2 prev s k
      end
  | Repeat r' lo hi =>
      (fix turns (fuel lo : nat) (prev : option ascii) (s : string)
           {struct fuel} : option R :=
         match fuel with
         | O => if (lo =? 0)%nat then k prev s else None
         | S fuel' =>
             match run ic r' prev s
                     (fun prev' s' => turns fuel' (Nat.pred lo) prev' s') with
             | Some x => Some x
             | None => if (lo =? 0)%nat then k prev s else None
             end
         end)
        (match hi with
         | Some h => h
         | None => lo + String.length s
         end) lo prev s
  end.

(** The length of the match of [r] that starts at the head of [s]. *)
Definition match_at (ic : bool) (r : regex) (prev : option ascii)
    (s : string) : option nat :=
  match run ic r prev s (fun _ rest => Some rest) with
  | Some rest => Some (String.length s - String.length rest)
  | None => None
  end.

(** The first [n] characters of [s]: [match.group(0)] of a match of length
    [n] at the head of [s]. *)
Fixpoint take_chars (n : nat) (s : string) : string :=
  match n, s with
  | S n', String c s' => String c (take_chars n' s')
  | _, _ => EmptyString
  end.

(** The scan of [re.sub(pattern, repl, text)], [repl] a function that may
    change the state [St] of its object.  [skip] counts the characters of
    the running match that are still to be passed over.  After an empty
    match the engine asks for a match that advances; the patterns of the
    program have at most one match at a position, so the scan goes on
    with the next character. *)
Fixpoint scan {St : Type} (matcher : option ascii -> string -> option nat)
    (repl : string -> St -> string * St) (prev : option ascii) (s : string)
    (skip : nat) (st : St) {struct s} : string * St :=
  match skip with
  | S skip' =>
      match s with
      | String c s' => scan matcher repl (Some c) s' skip' st
      | EmptyString => (EmptyString, st)
      end
  | O =>
      match matcher prev s with
      | Some n =>
          let '(out, st1) := repl (take_chars n s) st in
          match s with
          | EmptyString => (out, st1)
          | String c s' =>
              match n with
              | O =>
                  let '(rest, st2) := scan matcher repl (Some c) s' 0 st1 in
                  (out +:+ String c rest, st2)
              | S n' =>
                  let '(rest, st2) := scan matcher repl (Some c) s' n' st1 in
                  (out +:+ rest, st2)
              end
          end
      | None =>
          match s with
          | EmptyString => (EmptyString, st)
          | String c s' =>
              let '(rest, st1) := scan matcher repl (Some c) s' 0 st in
              (String c rest, st1)
          end
      end
  end.

(** [re.sub(pattern, repl, text, flags=...)] *)
Definition sub {St : Type} (ic : bool) (pattern : regex)
    (repl : string -> St -> string * St) (text : string) (st : St)
    : string * St :=
  scan (match_at ic pattern) repl None text 0 st.

(** A replacement given as a string is a template.  [parse_template]
    reads it as [re] does for a pattern without groups: [\g<0>] stands
    for the whole match, [\a \b \f \n \r \t \v \\] and the octal
    escapes for one character, a backslash before another ASCII letter, a
    reference to a group other than 0 and a backslash at the end are
    errors, and a backslash before any other character stays with it. *)
Inductive piece :=
| Text (c : ascii)
| WholeMatch.

Definition is_octal (c : ascii) : bool := in_range 48 55 c.
Definition is_letter (c : ascii) : bool := is_upper c || is_lower c.
Definition digit_value (c : ascii) : nat := code c - 48.

Definition escape_char (c : ascii) : option ascii :=
  if Ascii.eqb c "a" then Some (ascii_of_nat 7)
  else if Ascii.eqb c "b" then Some (ascii_of_nat 8)
  else if Ascii.eqb c "f" then Some (ascii_of_nat 12)
  else if Ascii.eqb c "n" then Some (ascii_of_nat 10)
  else if Ascii.eqb c "r" then Some (ascii_of_nat 13)
  else if Ascii.eqb c "t" then Some (ascii_of_nat 9)
  else if Ascii.eqb c "v" then Some (ascii_of_nat 11)
  else if Ascii.eqb c "\" then Some "\"%char
  else None.

(** The name of [\g<name>] and what follows the closing [>]. *)
Fixpoint group_name (s : string) : option (string * string) :=
  match s with
  | EmptyString => None
  | String c s' =>
      if Ascii.eqb c ">" then Some (EmptyString, s')
      else
        match group_name s' with
        | Some (name, rest) => Some (String c name, rest)
        | None => None
        end
  end.

Fixpoint all_zero (name : string) : bool :=
  match name with
  | EmptyString => true
  | String c name' => Ascii.eqb c "0" && all_zero name'
  end.

(** [None] is [re.error] (or [IndexError] for an unknown group name). *)
Fixpoint parse_template (fuel : nat) (s : string) : option (list piece) :=
  match fuel with
  | O => match s with EmptyString => Some [] | _ => None end
  | S fuel' =>
      match s with
      | EmptyString => Some []
      | String c s1 =>
          if negb (Ascii.eqb c "\") then cons (Text c) <$> parse_template fuel' s1
          else
            match s1 with
            | EmptyString => None
            | String e s2 =>
                if Ascii.eqb e "g" then
                  match s2 with
                  | String lt s3 =>
                      if Ascii.eqb lt "<" then
                        match group_name s3 with
                        | Some (name, rest) =>
                            if truthy name && all_zero name
                            then cons WholeMatch <$> parse_template fuel' rest
                            else None
                        | None => None
                        end
                      else None
                  | EmptyString => None
                  end
                else if Ascii.eqb e "0" then
                  match s2 with
                  | String d1 s3 =>
                      if is_octal d1 then
                        match s3 with
                        | String d2 s4 =>
                            if is_octal d2 then
                              cons (Text (ascii_of_nat
                                ((digit_value d1 * 8 + digit_value d2) mod 256)))
                                <$> parse_template fuel' s4
                            else
                              cons (Text (ascii_of_nat (digit_value d1)))
                                <$> parse_template fuel' s3
                        | EmptyString =>
                            cons (Text (ascii_of_nat (digit_value d1)))
                              <$> parse_template fuel' s3
                        end
                      else cons (Text (ascii_of_nat 0)) <$> parse_template fuel' s2
                  | EmptyString => Some [Text (ascii_of_nat 0)]
                  end
                else if is_digit e then
                  match s2 with
                  | String d2 (String d3 s4) =>
                      if is_octal e && is_octal d2 && is_octal d3 then
                        let v := digit_value e * 64 + digit_value d2 * 8
                                 + digit_value d3 in
                        if (255 <? v)%nat then None
                        else cons (Text (ascii_of_nat v)) <$> parse_template fuel' s4
                      else None
                  | _ => None
                  end
                else
                  match escape_char e with
                  | Some ch => cons (Text ch) <$> parse_template fuel' s2
                  | None =>
                      if is_letter e then None
                      else (fun ps => Text c :: Text e :: ps)
                             <$> parse_template fuel' s2
                  end
            end
      end
  end.

Fixpoint expand (pieces : list piece) (matched : string) : string :=
  match pieces with
  | [] => EmptyString
  | Text c :: pieces' => String c (expand pieces' matched)
  | WholeMatch :: pieces' => matched +:+ expand pieces' matched
  end.

(** [re.sub(pattern, repl, text, flags=...)] with a string [repl]: the
    template is parsed before the scan, whether the pattern matches or
    not; [None] is the exception of a template in error. *)
Definition sub_template (ic : bool) (pattern : regex) (repl : string)
    (text : string) : option string :=
  match parse_template (String.length repl) repl with
  | Some pieces =>
      Some (sub ic pattern (fun matched (u : unit) => (expand pieces matched, u))
                text tt).1
  | None => None
  end.

(** [re.escape(term)] compiled: the characters of [term], each literal. *)
Fixpoint literal (term : string) : regex :=
  match term with
  | EmptyString => Eps
  | String c term' => Seq (Lit c) (literal term')
  end.

(** [r'\b' + re.escape(term) + r'\b'] *)
Definition whole_word (term : string) : regex :=
  Seq Boundary (Seq (literal term) Boundary).

(** Shorthands for writing the patterns down. *)
Fixpoint seq (rs : list regex) : regex :=
  match rs with
  | [] => Eps
  | [r] => r
  | r :: rs' => Seq r (seq rs')
  end.

Definition opt (r : regex) : regex := Repeat r 0 (Some 1).
Definition plus (r : regex) : regex := Repeat r 1 None.
Definition times (n : nat) (r : regex) : regex := Repeat r n (Some n).
Definition between (lo hi : nat) (r : regex) : regex := Repeat r lo (Some hi).
Definition at_least (lo : nat) (r : regex) : regex := Repeat r lo None.

(** A class given by the characters it lists. *)
Fixpoint listed (chars : string) (c : ascii) : bool :=
  match chars with
  | EmptyString => false
  | String c' chars' => Ascii.eqb c c' || listed chars' c
  end.

Definition digit : regex := Class is_digit.
Definition one_of (chars : string) : regex := Class (listed chars).
Definition span (lo hi : ascii) : regex := Class (in_range (code lo) (code hi)).

End Re.

(** ** class TextRedactor *)

Module TextRedactor.
Import PyStr Re.

Section WithStrMethods.
Context {str_methods : StrMethods}.

(** An entry of [redaction_log]: a dict with the keys ["type"],
    ["original"] and ["replacement"], and ["pattern"] or ["mapped_from"]
    where the entry has it. *)
Record LogEntry := mkLogEntry {
  log_type : string;
  log_pattern : option string;
  log_original : string;
  log_replacement : string;
  log_mapped_from : option string
}.

(** The fields of the object that the methods read and write. *)
Record Redactor := mkRedactor {
  mapping : Mapping;
  redaction_log : list LogEntry;
  _random_counter : gmap string nat
}.

Definition log_append (st : Redactor) (entry : LogEntry) : Redactor :=
  {| mapping := mapping st;
     redaction_log := redaction_log st ++ [entry];
     _random_counter := _random_counter st |}.

Definition set_counter (st : Redactor) (c : gmap string nat) : Redactor :=
  {| mapping := mapping st;
     redaction_log := redaction_log st;
     _random_counter := c |}.

(** [PATTERNS], in the order of the dict. *)
Definition email : regex :=
  seq [Boundary;
       plus (Class (fun c => is_upper c || is_lower c || is_digit c
                             || listed "._%+-" c));
       Lit "@";
       plus (Class (fun c => is_upper c || is_lower c || is_digit c
                             || listed ".-" c));
       Lit ".";
       at_least 2 (Class (fun c => is_upper c || listed "|" c || is_lower c));
       Boundary].

Definition phone_us : regex :=
  seq [Boundary;
       opt (seq [opt (Lit "+"); Lit "1";
                 opt (Class (fun c => listed "-." c || is_space c))]);
       opt (Lit "("); times 3 digit; opt (Lit ")");
       opt (Class (fun c => listed "-." c || is_space c));
       times 3 digit;
       opt (Class (fun c => listed "-." c || is_space c));
       times 4 digit;
       Boundary].

Definition phone_intl : regex :=
  seq [Boundary; opt (Lit "+"); span "1" "9"; between 1 14 digit; Boundary].

Definition ssn : regex :=
  seq [Boundary;
       times 3 digit; opt (Class (fun c => listed "-" c || is_space c));
       times 2 digit; opt (Class (fun c => listed "-" c || is_space c));
       times 4 digit;
       Boundary].

Definition credit_card : regex :=
  seq [Boundary;
       times 3 (seq [times 4 digit;
                     opt (Class (fun c => listed "-" c || is_space c))]);
       times 4 digit;
       Boundary].

Definition ip_address : regex :=
  seq [Boundary;
       times 3 (seq [between 1 3 digit; Lit "."]);
       between 1 3 digit;
       Boundary].

Definition month : regex :=
  Alt (seq [opt (Lit "0"); span "1" "9"]) (seq [Lit "1"; span "0" "2"]).

Definition day : regex :=
  Alt (seq [opt (Lit "0"); span "1" "9"])
      (Alt (seq [one_of "12"; digit]) (seq [Lit "3"; one_of "01"])).

Definition year : regex := Alt (times 2 digit) (times 4 digit).

Definition date_mdy : regex :=
  seq [Boundary; month; one_of "/.-"; day; one_of "/.-"; year; Boundary].

Definition date_dmy : regex :=
  seq [Boundary; day; one_of "/.-"; month; one_of "/.-"; year; Boundary].

Definition PATTERNS : list (string * regex) :=
  [("email", email); ("phone_us", phone_us); ("phone_intl", phone_intl);
   ("ssn", ssn); ("credit_card", credit_card); ("ip_address", ip_address);
   ("date_mdy", date_mdy); ("date_dmy", date_dmy)].

(** [self.PATTERNS[name]], with [None] for [name not in self.PATTERNS]. *)
Fixpoint pattern_of (table : list (string * regex)) (name : string)
    : option regex :=
  match table with
  | [] => None
  | (n, r) :: table' => if String.eqb n name then Some r else pattern_of table' name
  end.

(** [string.ascii_uppercase + string.digits] *)
Definition id_chars : string := "ABCDEFGHIJKLMNOPQRSTUVWXYZ0123456789".

Definition char_at (s : string) (i : nat) : ascii :=
  match String.get i s with
  | Some c => c
  | None => "A"%char
  end.

(** [_generate_random_id]: the eight calls of [secrets.choice] read the
    draws [rand cursor], ..., [rand (cursor + 7)], each an index into the
    36 characters. *)
Fixpoint random_part (rand : nat -> nat) (cursor n : nat) : string :=
  match n with
  | O => EmptyString
  | S n' =>
      String (char_at id_chars (rand cursor mod 36))
             (random_part rand (S cursor) n')
  end.

Definition _generate_random_id (rand : nat -> nat) (cursor : nat)
    (prefix : string) : string * nat :=
  (prefix +:+ "-" +:+ random_part rand cursor 8, cursor + 8).

Definition _get_pattern_replacement (st : Redactor) (pattern_type : string)
    (match_text : string) (random_mode : bool) : string * Redactor :=
  if random_mode then
    let c0 := _random_counter st in
    let c1 :=
      match c0 !! pattern_type with
      | None => <[pattern_type := 0]> c0
      | Some _ => c0
      end in
    let n := default 0 (c1 !! pattern_type) + 1 in
    ("[" +:+ upper pattern_type +:+ "-" +:+ fmt_03d n +:+ "]",
     set_counter st (<[pattern_type := n]> c1))
  else ("[" +:+ upper pattern_type +:+ "-REDACTED]", st).

(** [replace_func] of [redact_patterns], closed over [pattern_name]. *)
Definition replace_func (pattern_name : string) (random_mode : bool)
    (matched : string) (st : Redactor) : string * Redactor :=
  let '(replacement, st1) :=
    _get_pattern_replacement st pattern_name matched random_mode in
  (replacement,
   log_append st1
     {| log_type := "pattern"; log_pattern := Some pattern_name;
        log_original := matched; log_replacement := replacement;
        log_mapped_from := None |}).

Fixpoint redact_patterns_loop (names : list string) (random_mode : bool)
    (result : string) (st : Redactor) : string * Redactor :=
  match names with
  | [] => (result, st)
  | pattern_name :: names' =>
      match pattern_of PATTERNS pattern_name with
      | Some pattern =>
          let '(result', st') :=
            sub false pattern (replace_func pattern_name random_mode)
                result st in
          redact_patterns_loop names' random_mode result' st'
      | None => redact_patterns_loop names' random_mode result st
      end
  end.

Definition redact_patterns (st : Redactor) (text : string)
    (patterns : option (list string)) (random_mode : bool)
    : string * Redactor :=
  let names :=
    match patterns with
    | None => map fst PATTERNS
    | Some l => l
    end in
  redact_patterns_loop names random_mode text st.

(** [make_replacer(alias, orig_term)] *)
Definition make_replacer (al orig_term : string) (matched : string)
    (st : Redactor) : string * Redactor :=
  (al,
   log_append st
     {| log_type := "entity"; log_pattern := None;
        log_original := matched; log_replacement := al;
        log_mapped_from := Some orig_term |}).

(** The loop over [terms_to_replace] of one entity. *)
Fixpoint redact_terms (ic : bool) (al : string) (terms : list string)
    (result : string) (st : Redactor) : string * Redactor :=
  match terms with
  | [] => (result, st)
  | term :: terms' =>
      if truthy term then
        let '(result', st') :=
          sub ic (whole_word term) (make_replacer al term) result st in
        redact_terms ic al terms' result' st'
      else redact_terms ic al terms' result st
  end.

Fixpoint redact_entities_loop (ic : bool) (es : list Entity)
    (result : string) (st : Redactor) : string * Redactor :=
  match es with
  | [] => (result, st)
  | entity :: es' =>
      let '(result', st') :=
        redact_terms ic (alias entity)
          (original entity :: variations entity) result st in
      redact_entities_loop ic es' result' st'
  end.

Definition redact_entities (st : Redactor) (text : string)
    (case_sensitive : bool) : string * Redactor :=
  redact_entities_loop (negb case_sensitive) (entities (mapping st)) text st.

(** The state of the loop of [redact_with_random_ids]: the text, the
    mapping of the document, the object, and the cursor in the draws. *)
Record RandomRun := mkRandomRun {
  run_result : string;
  document_mapping : gmap string string;
  run_state : Redactor;
  run_cursor : nat
}.

(** How the method ends: it returns, or [re.sub] raises on the template
    and the exception leaves the method, the object as it then is. *)
Inductive random_outcome :=
| Returned (r : RandomRun)
| ReError (r : RandomRun).

(** [document_mapping[entity]] after the [if entity not in ...] block. *)
Definition assign_id (rand : nat -> nat) (entity_type : string)
    (acc : RandomRun) (entity : string) : gmap string string * nat :=
  match document_mapping acc !! entity with
  | None =>
      let '(random_id, cursor') :=
        _generate_random_id rand (run_cursor acc) entity_type in
      (<[entity := random_id]> (document_mapping acc), cursor')
  | Some _ => (document_mapping acc, run_cursor acc)
  end.

Fixpoint random_loop (rand : nat -> nat) (entity_type : string)
    (ents : list string) (acc : RandomRun) : random_outcome :=
  match ents with
  | [] => Returned acc
  | entity :: ents' =>
      let '(dm, cursor) := assign_id rand entity_type acc entity in
      let id := default "" (dm !! entity) in
      match sub_template true (whole_word entity) id (run_result acc) with
      | None =>
          ReError {| run_result := run_result acc; document_mapping := dm;
                     run_state := run_state acc; run_cursor := cursor |}
      | Some result =>
          random_loop rand entity_type ents'
            {| run_result := result;
               document_mapping := dm;
               run_state :=
                 log_append (run_state acc)
                   {| log_type := "random"; log_pattern := None;
                      log_original := entity; log_replacement := id;
                      log_mapped_from := None |};
               run_cursor := cursor |}
      end
  end.

Definition redact_with_random_ids (st : Redactor) (rand : nat -> nat)
    (cursor : nat) (text : string) (ents : list string)
    (entity_type : string) : random_outcome :=
  random_loop rand entity_type ents
    {| run_result := text; document_mapping := ∅; run_state := st;
       run_cursor := cursor |}.

Record Report := mkReport {
  total_redactions : nat;
  by_type : gmap string nat;
  details : list LogEntry
}.

Definition count_type (counts : gmap string nat) (entry : LogEntry)
    : gmap string nat :=
  let entry_type := log_type entry in
  let counts1 :=
    match counts !! entry_type with
    | None => <[entry_type := 0]> counts
    | Some _ => counts
    end in
  <[entry_type := default 0 (counts1 !! entry_type) + 1]> counts1.

Definition get_redaction_report (st : Redactor) : Report :=
  {| total_redactions := length (redaction_log st);
     by_type := fold_left count_type (redaction_log st) ∅;
     details := redaction_log st |}.

Definition clear_log (st : Redactor) : Redactor :=
  {| mapping := mapping st; redaction_log := []; _random_counter := ∅ |}.

End WithStrMethods.

End TextRedactor.

(** * Properties of the mapping store *)

Import PyStr AliasManager.

Section StoreProperties.
Context {str_methods : StrMethods}.

Lemma ci_eqb_eq (a b : string) : ci_eqb a b = true ↔ lower a = lower b.
Proof. unfold ci_eqb. apply String.eqb_eq. Qed.

Lemma ci_eqb_neq (a b : string) : ci_eqb a b = false ↔ lower a ≠ lower b.
Proof. unfold ci_eqb. apply String.eqb_neq. Qed.

Lemma ci_eqb_refl (a : string) : ci_eqb a a = true.
Proof. by apply ci_eqb_eq. Qed.

(** An existing entity stands in the way of [orig] or of [al]. *)
Definition collision (orig al : string) (e : Entity) : Prop :=
  lower (original e) = lower orig ∨ lower (alias e) = lower al.

Lemma duplicate_check_true es orig al :
  duplicate_check es orig al = true ↔ Exists (collision orig al) es.
Proof.
  induction es as [|e es IH]; simpl.
  - split; [done | intros H; inversion H].
  - rewrite Exists_cons. unfold collision at 1.
    destruct (ci_eqb (original e) orig) eqn:Ho.
    { apply ci_eqb_eq in Ho. tauto. }
    destruct (ci_eqb (alias e) al) eqn:Ha.
    { apply ci_eqb_eq in Ha. tauto. }
    apply ci_eqb_neq in Ho. apply ci_eqb_neq in Ha. rewrite IH. tauto.
Qed.

Lemma duplicate_check_false es orig al :
  duplicate_check es orig al = false ↔ Forall (fun e => ¬ collision orig al e) es.
Proof.
  rewrite <- not_true_iff_false, duplicate_check_true.
  by rewrite Forall_Exists_neg.
Qed.

(** The entity that a successful [add_entity] appends: the fields are the
    arguments, the variations the list that was given, none when it was
    left out. *)
Definition new_entity (now orig al entity_type : string)
    (vars : option (list string)) (nts : string) : Entity :=
  {| original := orig; alias := al; etype := entity_type;
     variations := match vars with Some given => given | None => [] end;
     notes := nts; added := now |}.

Lemma add_entity_cases
    (m : Mapping) (now orig al entity_type : string)
    (vars : option (list string)) (nts : string) :
  (Exists (collision orig al) (entities m) ->
   add_entity m now orig al entity_type vars nts = (false, m))
  ∧ (¬ Exists (collision orig al) (entities m) ->
     add_entity m now orig al entity_type vars nts =
       (true,
        set_entities m
          (entities m ++ [new_entity now orig al entity_type vars nts]))).
Proof.
  unfold add_entity. split; intros Hc.
  - apply duplicate_check_true in Hc. by rewrite Hc.
  - apply Forall_Exists_neg, duplicate_check_false in Hc. by rewrite Hc.
Qed.

(** C1. [add_entity] returns [False] and leaves the document as it is when
    an existing entity has the same original or the same alias up to case
    (the lower-case forms are equal); otherwise it returns [True], the
    document keeps its other keys, and the entities are the old ones
    followed by one new entity whose original, alias, type, variations and
    notes are the arguments (no variations when none were given) and whose
    time is the clock's.  A second call with the same arguments returns
    [False] and leaves the number of entities as it is. *)
Theorem add_entity_duplicate_or_append
    (m : Mapping) (now orig al entity_type : string)
    (vars : option (list string)) (nts : string) :
  add_entity m now orig al entity_type vars nts =
    (if decide (Exists (fun e => lower (original e) = lower orig
                                 ∨ lower (alias e) = lower al) (entities m))
     then (false, m)
     else (true,
           {| version := version m; created := created m;
              updated := updated m;
              entities :=
                entities m ++
                [{| original := orig; alias := al; etype := entity_type;
                    variations :=
                      match vars with Some given => given | None => [] end;
                    notes := nts; added := now |}] |}))
  ∧ (forall now',
       let m1 := (add_entity m now orig al entity_type vars nts).2 in
       let second := add_entity m1 now' orig al entity_type vars nts in
       second.1 = false ∧ second.2 = m1
       ∧ length (entities second.2) = length (entities m1)).
Proof.
  split.
  - destruct (add_entity_cases m now orig al entity_type
                vars nts) as [Hdup Hadd].
    case_decide as Hc; [by apply Hdup | by apply Hadd].
  - intros now'. cbn zeta.
    assert (duplicate_check
              (entities (add_entity m now orig al entity_type vars nts).2)
              orig al = true) as Hdup.
    { unfold add_entity.
      destruct (duplicate_check (entities m) orig al) eqn:Hd; simpl; [done|].
      apply duplicate_check_true, Exists_app. right.
      apply Exists_cons. left. by left. }
    set (m1 := (add_entity m now orig al entity_type vars nts).2) in *.
    assert (add_entity m1 now' orig al entity_type vars nts = (false, m1))
      as ->; [|done].
    unfold add_entity. by rewrite Hdup.
Qed.

(** The calls of a client that only adds and removes. *)
Inductive store_call :=
| CallAdd (now orig al entity_type : string) (vars : option (list string))
    (nts : string)
| CallRemove (orig : string).

Definition run_call (m : Mapping) (c : store_call) : Mapping :=
  match c with
  | CallAdd now orig al entity_type vars nts =>
      (add_entity m now orig al entity_type vars nts).2
  | CallRemove orig => (remove_entity m orig).2
  end.

Definition run_calls (m : Mapping) (calls : list store_call) : Mapping :=
  fold_left run_call calls m.

(** No two entities at different places share an original, nor an alias,
    up to case. *)
Definition unique_up_to_case (es : list Entity) : Prop :=
  forall i j e1 e2,
    es !! i = Some e1 -> es !! j = Some e2 -> i ≠ j ->
    lower (original e1) ≠ lower (original e2)
    ∧ lower (alias e1) ≠ lower (alias e2).

Definition keys_nodup (es : list Entity) : Prop :=
  NoDup ((fun e => lower (original e)) <$> es)
  ∧ NoDup ((fun e => lower (alias e)) <$> es).

Lemma keys_nodup_unique es : keys_nodup es -> unique_up_to_case es.
Proof.
  intros [Ho Ha] i j e1 e2 H1 H2 Hij. split; intros Heq; apply Hij.
  - eapply (NoDup_lookup _ i j _ Ho); rewrite list_lookup_fmap.
    + by rewrite H1.
    + rewrite H2. simpl. by rewrite Heq.
  - eapply (NoDup_lookup _ i j _ Ha); rewrite list_lookup_fmap.
    + by rewrite H1.
    + rewrite H2. simpl. by rewrite Heq.
Qed.

Lemma unique_keys_nodup es : unique_up_to_case es -> keys_nodup es.
Proof.
  intros Hu. split; apply NoDup_alt; intros i j x Hi Hj;
    rewrite list_lookup_fmap in Hi; rewrite list_lookup_fmap in Hj;
    destruct (es !! i) as [e1|] eqn:E1; simplify_eq/=;
    destruct (es !! j) as [e2|] eqn:E2; simplify_eq/=;
    destruct (decide (i = j)) as [|Hne]; try done;
    destruct (Hu i j e1 e2 E1 E2 Hne) as [? ?]; congruence.
Qed.

Lemma keys_nodup_add es now orig al entity_type vars nts :
  keys_nodup es ->
  keys_nodup (entities (add_entity (set_entities
     {| version := ""; created := ""; updated := ""; entities := [] |} es)
     now orig al entity_type vars nts).2).
Proof.
  intros [Ho Ha]. unfold add_entity. simpl.
  destruct (duplicate_check es orig al) eqn:Hd; simpl; [done|].
  apply duplicate_check_false in Hd. rewrite Forall_forall in Hd.
  split; rewrite fmap_app; apply NoDup_app; (split; [done|]);
    (split; [|apply NoDup_singleton]);
    intros x Hx Hin; apply list_elem_of_fmap in Hx as [e [-> He]];
    apply list_elem_of_singleton in Hin; simpl in Hin;
    apply (Hd e He); unfold collision; tauto.
Qed.

Lemma entities_add m now orig al entity_type vars nts :
  entities (add_entity m now orig al entity_type vars nts).2 =
  entities (add_entity (set_entities
     {| version := ""; created := ""; updated := ""; entities := [] |}
     (entities m)) now orig al entity_type vars nts).2.
Proof. unfold add_entity. simpl. by destruct (duplicate_check _ _ _). Qed.

Lemma keys_nodup_remove m orig :
  keys_nodup (entities m) -> keys_nodup (entities (remove_entity m orig).2).
Proof.
  intros [Ho Ha]. unfold remove_entity.
  destruct (index_of_original (entities m) orig) as [i|]; simpl; [|done].
  split; rewrite list_fmap_delete.
  - eapply sublist_NoDup; [exact Ho | apply sublist_delete].
  - eapply sublist_NoDup; [exact Ha | apply sublist_delete].
Qed.

Lemma keys_nodup_run calls m :
  keys_nodup (entities m) -> keys_nodup (entities (run_calls m calls)).
Proof.
  revert m. induction calls as [|c calls IH]; intros m Hm; [done|].
  simpl. apply IH. destruct c; simpl.
  - rewrite entities_add. by apply keys_nodup_add.
  - by apply keys_nodup_remove.
Qed.

(** C2. From an empty store, after any sequence of [add_entity] and
    [remove_entity] calls, two entities at different places of the store
    have originals that differ up to case and aliases that differ up to
    case. *)
Theorem uniqueness_kept_by_add_and_remove
    (now1 now2 : string) (calls : list store_call) :
  unique_up_to_case (entities (run_calls (_empty_mapping now1 now2) calls)).
Proof.
  apply keys_nodup_unique, keys_nodup_run. simpl.
  split; apply NoDup_nil_2.
Qed.

(** A query [q] hits an entity by its original or by one of its
    variations, up to case. *)
Definition hits (q : string) (e : Entity) : Prop :=
  lower (original e) = lower q
  ∨ ∃ v, v ∈ variations e ∧ lower v = lower q.

Lemma variation_hit_true vs q :
  variation_hit vs q = true ↔ ∃ v, v ∈ vs ∧ lower v = lower q.
Proof.
  induction vs as [|v vs IH]; simpl.
  - split; [done | intros (v & Hv & _); inversion Hv].
  - destruct (ci_eqb v q) eqn:Hv.
    + apply ci_eqb_eq in Hv. split; [|done]. intros _. exists v. split; [left|done].
    + apply ci_eqb_neq in Hv. rewrite IH. split.
      * intros (w & Hw & Hq). exists w. split; [by right|done].
      * intros (w & Hw & Hq). apply elem_of_cons in Hw as [->|Hw]; [done|].
        by exists w.
Qed.

Lemma hits_decide q e :
  (ci_eqb (original e) q || variation_hit (variations e) q) = true ↔ hits q e.
Proof.
  unfold hits. rewrite orb_true_iff, ci_eqb_eq, variation_hit_true. tauto.
Qed.

Lemma get_entity_in_step e es q :
  get_entity_in (e :: es) q =
  if ci_eqb (original e) q || variation_hit (variations e) q
  then Some e else get_entity_in es q.
Proof.
  simpl. destruct (ci_eqb (original e) q); [done|].
  by destruct (variation_hit (variations e) q).
Qed.

Lemma get_entity_ref_step e es q :
  get_entity_ref (e :: es) q =
  if ci_eqb (original e) q || variation_hit (variations e) q
  then Some 0 else S <$> get_entity_ref es q.
Proof.
  simpl. destruct (ci_eqb (original e) q); [done|].
  by destruct (variation_hit (variations e) q).
Qed.

(** The first entity, in the order of the mapping, that [q] hits is at
    place [i]. *)
Definition first_hit (q : string) (es : list Entity) (i : nat) (e : Entity)
    : Prop :=
  es !! i = Some e ∧ hits q e
  ∧ forall j e', j < i -> es !! j = Some e' -> ¬ hits q e'.

Lemma get_entity_in_first es q :
  match get_entity_in es q with
  | Some e => get_entity_ref es q ≠ None
              ∧ forall i, get_entity_ref es q = Some i -> first_hit q es i e
  | None => get_entity_ref es q = None ∧ Forall (fun e => ¬ hits q e) es
  end.
Proof.
  induction es as [|e es IH].
  - simpl. by split.
  - rewrite get_entity_in_step, get_entity_ref_step.
    destruct (ci_eqb (original e) q || variation_hit (variations e) q) eqn:Hh.
    + split; [done|]. intros i [= <-]. apply hits_decide in Hh.
      split; [done|]. split; [done|]. intros j e' Hj. lia.
    + assert (¬ hits q e) as Hn.
      { intros H. apply hits_decide in H. congruence. }
      destruct (get_entity_in es q) as [e0|].
      * destruct IH as [Hsome IH].
        destruct (get_entity_ref es q) as [i0|]; [|done].
        split; [done|]. intros i [= <-].
        destruct (IH i0 eq_refl) as (Hl & Hhit & Hbefore).
        split; [done|]. split; [done|].
        intros [|j] e' Hj He'; simpl in He'.
        -- by simplify_eq.
        -- apply (Hbefore j e'); [lia|done].
      * destruct IH as [-> IH]. split; [done|]. by constructor.
Qed.

(** C5. [get_entity(q)] returns the first entity, in the order of the
    mapping, whose original or one of whose variations equals [q] up to
    case; it returns [None] only when no entity is hit; and [get_alias(q)]
    is the alias of that same entity. *)
Theorem get_entity_first_match (m : Mapping) (q : string) :
  match get_entity m q with
  | Some e => (∃ i, first_hit q (entities m) i e)
              ∧ get_alias m q = Some (alias e)
  | None => Forall (fun e => ¬ hits q e) (entities m)
            ∧ get_alias m q = None
  end.
Proof.
  unfold get_alias, get_entity.
  pose proof (get_entity_in_first (entities m) q) as H.
  destruct (get_entity_in (entities m) q) as [e|].
  - destruct H as [Hsome H]. split; [|done].
    destruct (get_entity_ref (entities m) q) as [i|]; [|done].
    exists i. by apply H.
  - destruct H as [_ H]. by split.
Qed.

(** ** update_entity *)

(** The value that the dict [kwargs] holds under [field]. *)
Fixpoint last_value (field : string) (kwargs : list (string * pyval))
    : option pyval :=
  match kwargs with
  | [] => None
  | (k, v) :: kwargs' =>
      match last_value field kwargs' with
      | Some x => Some x
      | None => if String.eqb k field then Some v else None
      end
  end.

(** What the key [key] of an entity holds after the call, [old] being
    what it held: the value supplied under the name [key] when [key] is
    one of the four fields that can be written, and else [old]. *)
Definition value_after (key : string) (old : option pyval)
    (kwargs : list (string * pyval)) : option pyval :=
  if bool_decide (key ∈ allowed_fields) then
    match last_value key kwargs with
    | Some v => Some v
    | None => old
    end
  else old.

Definition whitelisted (kv : string * pyval) : Prop := kv.1 ∈ allowed_fields.

Lemma apply_kwargs_lookup (kwargs : list (string * pyval)) (key : string) :
  forall d, apply_kwargs d kwargs !! key = value_after key (d !! key) kwargs.
Proof.
  unfold value_after.
  induction kwargs as [|[f v] kwargs IH]; intros d.
  - simpl. by destruct (bool_decide (key ∈ allowed_fields)).
  - cbn [apply_kwargs last_value].
    destruct (decide (f ∈ allowed_fields)) as [Hf|Hf].
    + rewrite (bool_decide_eq_true_2 (f ∈ allowed_fields)) by done.
      rewrite IH.
      destruct (decide (key ∈ allowed_fields)) as [Hk|Hk].
      * rewrite (bool_decide_eq_true_2 (key ∈ allowed_fields)) by done.
        destruct (last_value key kwargs) as [x|]; [done|].
        destruct (String.eqb f key) eqn:E.
        -- apply String.eqb_eq in E as ->. by rewrite lookup_insert_eq.
        -- apply String.eqb_neq in E. by rewrite lookup_insert_ne.
      * rewrite (bool_decide_eq_false_2 (key ∈ allowed_fields)) by done.
        rewrite lookup_insert_ne; [done|]. by intros ->.
    + rewrite (bool_decide_eq_false_2 (f ∈ allowed_fields)) by done.
      rewrite IH.
      destruct (decide (key ∈ allowed_fields)) as [Hk|Hk].
      * rewrite (bool_decide_eq_true_2 (key ∈ allowed_fields)) by done.
        destruct (last_value key kwargs) as [x|]; [done|].
        destruct (String.eqb f key) eqn:E; [|done].
        apply String.eqb_eq in E as ->. done.
      * by rewrite (bool_decide_eq_false_2 (key ∈ allowed_fields)) by done.
Qed.

Lemma apply_kwargs_whitelisted (kwargs : list (string * pyval)) :
  forall d, apply_kwargs d (filter whitelisted kwargs) = apply_kwargs d kwargs.
Proof.
  induction kwargs as [|[f v] kwargs IH]; intros d; [done|].
  rewrite filter_cons. unfold whitelisted at 1. simpl.
  case_decide as Hf.
  - simpl. rewrite bool_decide_eq_true_2 by done. apply IH.
  - rewrite bool_decide_eq_false_2 by done. apply IH.
Qed.

Lemma whitelisted_keys (kwargs : list (string * pyval)) (key : string) :
  key ∈ ((filter whitelisted kwargs).*1) -> key ∈ allowed_fields ∧ key ∈ (kwargs.*1).
Proof.
  intros H. apply list_elem_of_fmap in H as ([k v] & -> & H).
  apply list_elem_of_filter in H as [Hw H]. split; [exact Hw|].
  apply list_elem_of_fmap. by exists (k, v).
Qed.

Lemma get_entity_ref_lookup es q :
  match get_entity_ref es q with
  | Some i => ∃ e, get_entity_in es q = Some e ∧ es !! i = Some e
  | None => get_entity_in es q = None
  end.
Proof.
  pose proof (get_entity_in_first es q) as H.
  destruct (get_entity_in es q) as [e|].
  - destruct H as [Hs H]. destruct (get_entity_ref es q) as [i|]; [|done].
    exists e. split; [done|]. by destruct (H i eq_refl).
  - by destruct H as [-> _].
Qed.


(** ** validate after an insertion with an empty field *)

Lemma empty_fields_app (es1 es2 : list Entity) :
  forall i,
    empty_fields i (es1 ++ es2) =
    empty_fields i es1 ++ empty_fields (i + length es1) es2.
Proof.
  induction es1 as [|e es1 IH]; intros i; simpl.
  - by rewrite Nat.add_0_r.
  - rewrite IH, <- !app_assoc. by replace (i + S (length es1)) with (S i + length es1) by lia.
Qed.

Lemma validate_issues_tail (m : Mapping) (x : issue) :
  x ∈ empty_fields 0 (entities m) ->
  x ∈ issues (validate m) ∧ valid (validate m) = false.
Proof.
  intros Hx. unfold validate. simpl.
  set (all := _ ++ _ ++ empty_fields 0 (entities m)).
  assert (x ∈ all) as Hall.
  { unfold all. rewrite !elem_of_app. tauto. }
  split; [done|]. destruct all; [inversion Hall | done].
Qed.

(** C10. [add_entity] does not look at the emptiness of its arguments:
    with no collision up to case, an empty original or an empty alias is
    accepted, the call returns [True] and appends the entity; [validate] on
    the store that results returns [valid = False], with the issue that
    names the missing original or the missing alias of that entity. *)
Theorem add_entity_accepts_empty_fields
    (m : Mapping) (now orig al entity_type : string)
    (vars : option (list string)) (nts : string) :
  ¬ Exists (collision orig al) (entities m) ->
  orig = "" ∨ al = "" ->
  let r := add_entity m now orig al entity_type vars nts in
  r.1 = true
  ∧ entities r.2 =
      entities m ++ [new_entity now orig al entity_type vars nts]
  ∧ valid (validate r.2) = false
  ∧ (orig = "" ->
     MissingOriginal (length (entities m)) ∈ issues (validate r.2))
  ∧ (al = "" ->
     MissingAlias (length (entities m)) ∈ issues (validate r.2)).
Proof.
  intros Hfree Hempty r.
  destruct (add_entity_cases m now orig al entity_type vars nts)
    as [Hdup Hadd].
  assert (r = (true, set_entities m
                 (entities m ++ [new_entity now orig al entity_type vars nts])))
    as Hr by (by apply Hadd).
  rewrite Hr. cbn [fst snd].
  set (m' := set_entities m _).
  assert (orig = "" -> MissingOriginal (length (entities m))
                         ∈ empty_fields 0 (entities m')) as Ho.
  { intros ->. unfold m'. simpl. rewrite empty_fields_app. simpl.
    rewrite elem_of_app. right. by left. }
  assert (al = "" -> MissingAlias (length (entities m))
                       ∈ empty_fields 0 (entities m')) as Ha.
  { intros ->. unfold m'. simpl. rewrite empty_fields_app. simpl.
    rewrite elem_of_app. right. rewrite elem_of_app. right. by left. }
  split; [done|]. split; [done|]. split.
  - destruct Hempty as [H|H]; [apply Ho in H | apply Ha in H];
      exact (proj2 (validate_issues_tail _ _ H)).
  - split; intros H; [apply Ho in H | apply Ha in H];
      exact (proj1 (validate_issues_tail _ _ H)).
Qed.

(** ** merge with the strategy overwrite *)

(** The other document: the first organisation under the alias of the
    second. *)
Definition acme_as_org_9 : list Incoming :=
  [mkIncoming "Acme Corp" "Org_9" (Some "organization") (Some []) (Some "")].

(** Where the alias of the incoming entity is free among the other
    entities, the turn does replace: the first entity with that original
    goes, the incoming one is appended, and the counter moves by one. *)
Lemma merge_step_overwrite_replaces
    (now : string) (r : MergeResults) (m : Mapping) (e : Incoming) (i : nat) :
  index_of_original (entities m) (in_original e) = Some i ->
  ¬ Exists (collision (in_original e) (in_alias e)) (delete i (entities m)) ->
  merge_step "overwrite" now (r, m) e =
    ({| merged_added := merged_added r; merged_skipped := merged_skipped r;
        merged_overwritten := merged_overwritten r + 1 |},
     set_entities m
       (delete i (entities m) ++
        [new_entity now (in_original e) (in_alias e)
           (default "other" (in_type e))
           (Some (default [] (in_variations e)))
           (default "" (in_notes e))])).
Proof.
  intros Hi Hfree. unfold merge_step.
  assert (∃ x, get_entity m (in_original e) = Some x) as [x ->].
  { unfold get_entity.
    pose proof (get_entity_in_first (entities m) (in_original e)) as H.
    destruct (get_entity_in (entities m) (in_original e)) as [x|]; [by eexists|].
    destruct H as [_ H]. exfalso. clear Hfree.
    revert i Hi. induction H as [|y es Hy _ IH]; intros i Hi; [done|].
    simpl in Hi. destruct (ci_eqb (original y) (in_original e)) eqn:Hc.
    - apply ci_eqb_eq in Hc. apply Hy. by left.
    - destruct (index_of_original es (in_original e)) as [k|]; [|done].
      by apply (IH k). }
  simpl. f_equal. unfold add_incoming, remove_entity. rewrite Hi. simpl.
  destruct (add_entity_cases
              (set_entities m (delete i (entities m))) now (in_original e)
              (in_alias e) (default "other" (in_type e))
              (Some (default [] (in_variations e)))
              (default "" (in_notes e))) as [_ Hadd].
  rewrite Hadd by done. done.
Qed.

(** ** export_csv followed by import_csv *)

(** The five fields on which two stores are compared. *)
Definition content (e : Entity)
    : string * string * string * list string * string :=
  (original e, alias e, etype e, variations e, notes e).

(** Equivalence of two entity lists whatever their order. *)
Definition same_entity_set (es1 es2 : list Entity) : Prop :=
  content <$> es1 ≡ₚ content <$> es2.

(** A variation that the import reads back as it was written: no
    semicolon, not empty, no white space at either end. *)
Definition clean (v : string) : Prop :=
  contains ";" v = false ∧ v ≠ "" ∧ strip v = v.

(** No carriage return in any field of the entity that is written to the
    file. *)
Definition no_carriage_return (e : Entity) : Prop :=
  contains CR (original e) = false ∧ contains CR (alias e) = false
  ∧ contains CR (etype e) = false ∧ contains CR (notes e) = false
  ∧ Forall (fun v => contains CR v = false) (variations e).

(** The store of the counterexample: one entity, whose only variation
    starts with a space. *)
Definition robert : Mapping :=
  {| version := "1.0"; created := "t0"; updated := "t0";
     entities := [mkEntity "Robert" "Person_B" "person" [" Bob"] "" "t1"] |}.

Lemma split_not_nil (c : ascii) (s : string) : split c s ≠ [].
Proof.
  induction s as [|c' s IH]; simpl; [done|].
  destruct (Ascii.eqb c' c); [done|]. by destruct (split c s).
Qed.

Lemma split_no_separator (c : ascii) (a : string) :
  contains c a = false -> split c a = [a].
Proof.
  induction a as [|c' a IH]; simpl; [done|].
  intros H. apply orb_false_iff in H as [Hc Ha].
  rewrite Hc, (IH Ha). done.
Qed.

Lemma split_at_separator (c : ascii) (a b : string) :
  contains c a = false ->
  split c (a +:+ String c b) = a :: split c b.
Proof.
  induction a as [|c' a IH]; simpl.
  - intros _. by rewrite Ascii.eqb_refl.
  - intros H. apply orb_false_iff in H as [Hc Ha].
    rewrite Hc, (IH Ha). done.
Qed.

Lemma parse_variations_space (s : string) :
  parse_variations (String " " s) = parse_variations s.
Proof.
  unfold parse_variations. simpl.
  pose proof (split_not_nil ";" s) as Hne.
  destruct (split ";" s) as [|piece pieces]; [done|].
  simpl. by rewrite strip_leading_space.
Qed.

Lemma parse_variations_head (v s : string) :
  clean v ->
  parse_variations (v +:+ String ";" s) = v :: parse_variations s.
Proof.
  intros (Hsemi & Hne & Hstrip). unfold parse_variations.
  rewrite split_at_separator by done. rewrite fmap_cons, Hstrip.
  rewrite filter_cons_True; [done|]. by destruct v.
Qed.

Lemma parse_variations_join (vs : list string) :
  Forall clean vs -> parse_variations (join "; " vs) = vs.
Proof.
  induction vs as [|v vs IH]; intros Hc.
  { unfold parse_variations. simpl. by rewrite strip_empty. }
  apply Forall_cons in Hc as [Hv Hvs].
  destruct vs as [|v' vs].
  - simpl. destruct Hv as (Hsemi & Hne & Hstrip). unfold parse_variations.
    rewrite split_no_separator by done. simpl. rewrite Hstrip.
    rewrite filter_cons_True; [done|]. by destruct v.
  - change (join "; " (v :: v' :: vs))
      with (v +:+ String ";" (String " " (join "; " (v' :: vs)))).
    rewrite parse_variations_head by done.
    rewrite parse_variations_space. f_equal. by apply IH.
Qed.

(** The dict that [csv.DictReader] makes of an exported row. *)
Definition row_dict (e : Entity) : gmap string string :=
  list_to_map
    (reverse (zip (map universal_newlines csv_header)
                  (map universal_newlines (export_row e)))).

Lemma dict_reader_export (m : Mapping) :
  dict_reader (export_csv m) = row_dict <$> entities m.
Proof.
  unfold dict_reader, export_csv.
  induction (entities m) as [|e es IH]; [done|].
  rewrite fmap_cons, filter_cons_True by done.
  rewrite !fmap_cons. f_equal. exact IH.
Qed.

Lemma join_keeps_out (c : ascii) (sep : string) (l : list string) :
  contains c sep = false ->
  Forall (fun v => contains c v = false) l ->
  contains c (join sep l) = false.
Proof.
  intros Hsep. induction 1 as [|v l Hv Hl IH]; [done|].
  destruct l as [|v' l]; [done|].
  change (join sep (v :: v' :: l)) with (v +:+ sep +:+ join sep (v' :: l)).
  by rewrite !contains_append, Hv, Hsep, IH.
Qed.

Lemma row_dict_lookup (e : Entity) :
  no_carriage_return e ->
  row_dict e !! "Original" = Some (original e)
  ∧ row_dict e !! "Alias" = Some (alias e)
  ∧ row_dict e !! "Type" = Some (etype e)
  ∧ row_dict e !! "Variations" = Some (join "; " (variations e))
  ∧ row_dict e !! "Notes" = Some (notes e).
Proof.
  intros (Ho & Ha & Ht & Hn & Hv).
  assert (contains CR (join "; " (variations e)) = false) as Hj
    by (by apply join_keeps_out).
  unfold row_dict, csv_header, export_row. cbn [map].
  rewrite (universal_newlines_plain (original e)),
    (universal_newlines_plain (alias e)),
    (universal_newlines_plain (etype e)),
    (universal_newlines_plain (join "; " (variations e))),
    (universal_newlines_plain (notes e)) by done.
  simpl. repeat split; by simplify_map_eq.
Qed.

(** An entity as the import writes it down again, at time [now]. *)
Definition stamp (now : string) (e : Entity) : Entity :=
  new_entity now (original e) (alias e) (etype e) (Some (variations e))
    (notes e).

Fixpoint stamp_all (clock : nat -> string) (k : nat) (es : list Entity)
    : list Entity :=
  match es with
  | [] => []
  | e :: es' => stamp (clock k) e :: stamp_all clock (S k) es'
  end.

Lemma content_stamp_all (clock : nat -> string) (es : list Entity) :
  forall k, content <$> stamp_all clock k es = content <$> es.
Proof.
  induction es as [|e es IH]; intros k; [done|].
  simpl. by rewrite IH.
Qed.

Lemma index_of_original_none (es : list Entity) (o : string) :
  Forall (fun x => lower (original x) ≠ lower o) es ->
  index_of_original es o = None.
Proof.
  induction 1 as [|x es Hx _ IH]; [done|].
  simpl. apply ci_eqb_neq in Hx. by rewrite Hx, IH.
Qed.

Lemma import_row_fresh (m1 : Mapping) (now : string) (overwrite : bool)
    (e : Entity) :
  no_carriage_return e ->
  Forall clean (variations e) ->
  Forall (fun x => ¬ collision (original e) (alias e) x) (entities m1) ->
  import_row m1 now overwrite (row_dict e) =
    (RowAdded, set_entities m1 (entities m1 ++ [stamp now e])).
Proof.
  intros Hplain Hclean Hfree. unfold import_row.
  destruct (row_dict_lookup e Hplain) as (-> & -> & -> & -> & ->). simpl.
  rewrite parse_variations_join by done.
  assert (remove_entity m1 (original e) = (false, m1)) as Hrem.
  { unfold remove_entity. rewrite index_of_original_none; [done|].
    eapply Forall_impl; [exact Hfree|]. intros x Hx Ho. apply Hx. by left. }
  assert ((if overwrite then Some (remove_entity m1 (original e)).2
           else Some m1) = Some m1) as ->.
  { destruct overwrite; [by rewrite Hrem | done]. }
  destruct (add_entity_cases m1 now (original e) (alias e)
              (etype e) (Some (variations e)) (notes e)) as [_ Hadd].
  rewrite Hadd; [done|]. by apply Forall_Exists_neg.
Qed.

Lemma keys_nodup_middle (es1 es2 : list Entity) (e e' : Entity) :
  original e' = original e -> alias e' = alias e ->
  keys_nodup (es1 ++ e :: es2) ->
  keys_nodup ((es1 ++ [e']) ++ es2)
  ∧ Forall (fun x => ¬ collision (original e) (alias e) x) es1.
Proof.
  intros Ho Ha [Hno Hna]. split.
  - unfold keys_nodup. rewrite <- !app_assoc. simpl.
    rewrite !fmap_app, !fmap_cons, Ho, Ha.
    rewrite !fmap_app, !fmap_cons in Hno, Hna. done.
  - rewrite fmap_app, fmap_cons in Hno, Hna.
    apply NoDup_app in Hno as (_ & Hno & _).
    apply NoDup_app in Hna as (_ & Hna & _).
    apply Forall_forall. intros x Hx [Hc|Hc].
    + apply (Hno (lower (original x))).
      * apply list_elem_of_fmap. by exists x.
      * rewrite Hc. by left.
    + apply (Hna (lower (alias x))).
      * apply list_elem_of_fmap. by exists x.
      * rewrite Hc. by left.
Qed.

Lemma import_loop_fresh (clock : nat -> string) (overwrite : bool)
    (es2 : list Entity) :
  forall k res m1,
    Forall no_carriage_return es2 ->
    Forall (fun e => Forall clean (variations e)) es2 ->
    keys_nodup (entities m1 ++ es2) ->
    import_loop clock overwrite k (row_dict <$> es2) (res, m1) =
      ({| import_added := import_added res + length es2;
          import_skipped := import_skipped res;
          import_errors := import_errors res |},
       set_entities m1 (entities m1 ++ stamp_all clock k es2)).
Proof.
  induction es2 as [|e es2 IH]; intros k res m1 Hplain Hclean Hkeys.
  - simpl. rewrite Nat.add_0_r, app_nil_r. by destruct res, m1.
  - apply Forall_cons in Hplain as [Hpe Hplain].
    apply Forall_cons in Hclean as [Hce Hclean].
    destruct (keys_nodup_middle (entities m1) es2 e (stamp (clock k) e)
                eq_refl eq_refl Hkeys) as [Hkeys' Hfree].
    rewrite fmap_cons. simpl.
    rewrite import_row_fresh by done.
    rewrite IH; [|done|done|done]. simpl.
    f_equal.
    + f_equal. lia.
    + unfold set_entities. simpl. by rewrite <- app_assoc.
Qed.


End StoreProperties.

(** ** Examples

    The examples are run with the three methods of ASCII strings. *)

(** The store of the examples: two organisations. *)
Definition two_orgs : Mapping :=
  {| version := "1.0"; created := "t0"; updated := "t0";
     entities :=
       [mkEntity "Acme Corp" "Org_1" "organization" [] "" "t1";
        mkEntity "Beta Ltd" "Org_9" "organization" [] "" "t2"] |}.

(** An original and an alias that are taken up to case are refused, and a
    new entity carries the variations it was given. *)
Lemma add_entity_duplicate_or_append_witness :
  add_entity two_orgs "t3" "ACME CORP" "Org_3" "organization" None ""
    = (false, two_orgs)
  ∧ add_entity two_orgs "t3" "Gamma" "ORG_9" "organization" None ""
    = (false, two_orgs)
  ∧ add_entity two_orgs "t3" "Gamma" "Org_3" "organization"
      (Some ["Gamma Inc"]) "new"
    = (true,
       {| version := "1.0"; created := "t0"; updated := "t0";
          entities :=
            [mkEntity "Acme Corp" "Org_1" "organization" [] "" "t1";
             mkEntity "Beta Ltd" "Org_9" "organization" [] "" "t2";
             mkEntity "Gamma" "Org_3" "organization" ["Gamma Inc"] "new"
               "t3"] |}).
Proof.
  split; [|split].
  - rewrite (proj1 (add_entity_duplicate_or_append two_orgs "t3" "ACME CORP"
                      "Org_3" "organization" None "")).
    vm_compute. reflexivity.
  - rewrite (proj1 (add_entity_duplicate_or_append two_orgs "t3" "Gamma"
                      "ORG_9" "organization" None "")).
    vm_compute. reflexivity.
  - rewrite (proj1 (add_entity_duplicate_or_append two_orgs "t3" "Gamma"
                      "Org_3" "organization" (Some ["Gamma Inc"]) "new")).
    vm_compute. reflexivity.
Defined.

(** A run in which two calls are refused for a key that is taken up to
    case, and one original comes back after it was removed. *)
Lemma uniqueness_kept_by_add_and_remove_witness :
  let m :=
    run_calls (_empty_mapping "t0" "t0")
      [CallAdd "t1" "John Smith" "Person_A" "person" None "";
       CallAdd "t2" "JOHN SMITH" "Person_B" "person" None "";
       CallAdd "t3" "Jane Roe" "person_a" "person" None "";
       CallAdd "t4" "Acme" "Org_1" "organization" None "";
       CallRemove "ACME";
       CallAdd "t5" "acme" "Org_2" "organization" None ""] in
  unique_up_to_case (entities m)
  ∧ original <$> entities m = ["John Smith"; "acme"].
Proof.
  split; [apply uniqueness_kept_by_add_and_remove | reflexivity].
Defined.

(** Two entities answer to the same variation up to case: the query
    resolves to the first one. *)
Lemma get_entity_first_match_witness :
  let e1 := mkEntity "Acme Corp" "Org_1" "organization"
              ["ACME"; "Acme Corporation"] "" "t1" in
  let e2 := mkEntity "Beta Ltd" "Org_2" "organization"
              ["acme corporation"] "" "t2" in
  let m := {| version := "1.0"; created := "t0"; updated := "t0";
              entities := [e1; e2] |} in
  get_entity m "ACME CORPORATION" = Some e1
  ∧ (∃ i, first_hit "ACME CORPORATION" (entities m) i e1)
  ∧ get_alias m "ACME CORPORATION" = Some "Org_1"
  ∧ get_alias m "beta ltd" = Some "Org_2"
  ∧ get_alias m "Gamma" = None.
Proof.
  intros e1 e2 m.
  pose proof (get_entity_first_match m "ACME CORPORATION") as H1.
  pose proof (get_entity_first_match m "beta ltd") as H2.
  pose proof (get_entity_first_match m "Gamma") as H3.
  assert (get_entity m "ACME CORPORATION" = Some e1) as E1 by reflexivity.
  assert (get_entity m "beta ltd" = Some e2) as E2 by reflexivity.
  assert (get_entity m "Gamma" = None) as E3 by reflexivity.
  rewrite E1 in H1. rewrite E2 in H2. rewrite E3 in H3.
  destruct H1 as [Hf Ha]. destruct H2 as [_ Hb]. destruct H3 as [_ Hc].
  repeat split; done.
Defined.


(** An empty original is added to an empty store, and [validate] reports
    it. *)
Lemma add_entity_accepts_empty_fields_witness :
  let m := _empty_mapping "t0" "t0" in
  let r := add_entity m "t1" "" "Person_A" "person" None "" in
  r.1 = true ∧ valid (validate r.2) = false
  ∧ MissingOriginal 0 ∈ issues (validate r.2).
Proof.
  assert (¬ Exists (collision "" "Person_A")
              (entities (_empty_mapping "t0" "t0"))) as Hfree.
  { simpl. intros H. inversion H. }
  destruct (add_entity_accepts_empty_fields (_empty_mapping "t0" "t0")
              "t1" "" "Person_A" "person" None "" Hfree (or_introl eq_refl))
    as (H1 & _ & H3 & H4 & _).
  split; [exact H1|]. split; [exact H3|]. exact (H4 eq_refl).
Defined.

(** C4, at an input where the code departs from it.  The incoming entity
    has the original of an existing entity and the alias of another one:
    [merge] removes the existing entity, the [add_entity] that follows
    returns [False] on the alias and its result is dropped, and the turn is
    counted as overwritten.  The store no longer knows the original at
    all. *)
Theorem merge_overwrite_loses_entity (clock : nat -> string) :
  merge two_orgs clock acme_as_org_9 "overwrite" =
    ({| merged_added := 0; merged_skipped := 0; merged_overwritten := 1 |},
     {| version := "1.0"; created := "t0"; updated := "t0";
        entities :=
          [mkEntity "Beta Ltd" "Org_9" "organization" [] "" "t2"] |})
  ∧ get_alias (merge two_orgs clock acme_as_org_9 "overwrite").2 "Acme Corp"
    = None.
Proof. split; reflexivity. Qed.



(** A carriage return does not come back: the file is written with
    [newline=''] and read without it, and the note ["a\rb"] is read as
    ["a\nb"]. *)
Lemma csv_import_reads_carriage_return_as_line_feed :
  let note := String "a" (String CR (String "b" EmptyString)) in
  let m := {| version := "1.0"; created := "t0"; updated := "t0";
              entities :=
                [mkEntity "Acme Corp" "Org_1" "organization" [] note "t1"] |} in
  notes <$> entities (import_csv (_empty_mapping "t5" "t5") (fun _ => "t6")
                        (export_csv m) false).2
  = [String "a" (String LF (String "b" EmptyString))].
Proof. vm_compute. reflexivity. Qed.

(** * Properties of the redaction engine *)

Import Re TextRedactor.

Section EngineProperties.
Context {str_methods : StrMethods}.

(** A property of the object that every call of the replacement function
    keeps is kept by the whole scan of [re.sub]. *)
Lemma scan_invariant {St : Type} (Inv : St -> Prop)
    (matcher : option ascii -> string -> option nat)
    (repl : string -> St -> string * St) :
  (forall matched st, Inv st -> Inv (repl matched st).2) ->
  forall s prev skip st, Inv st -> Inv (scan matcher repl prev s skip st).2.
Proof.
  intros Hrepl. induction s as [|c s IH]; intros prev skip st Hst.
  - simpl. destruct skip; [|done].
    destruct (matcher prev EmptyString) as [n|]; [|done].
    specialize (Hrepl (take_chars n EmptyString) st Hst).
    by destruct (repl (take_chars n EmptyString) st).
  - simpl. destruct skip as [|skip]; [|by apply IH].
    destruct (matcher prev (String c s)) as [n|].
    + specialize (Hrepl (take_chars n (String c s)) st Hst).
      destruct (repl (take_chars n (String c s)) st) as [out st1].
      simpl in Hrepl. destruct n as [|n].
      * specialize (IH (Some c) 0 st1 Hrepl).
        by destruct (scan matcher repl (Some c) s 0 st1).
      * specialize (IH (Some c) n st1 Hrepl).
        by destruct (scan matcher repl (Some c) s n st1).
    + specialize (IH (Some c) 0 st Hst).
      by destruct (scan matcher repl (Some c) s 0 st).
Qed.

(** ** The text that [re.sub] returns *)

Fixpoint drop_chars (n : nat) (s : string) : string :=
  match n, s with
  | S n', String _ s' => drop_chars n' s'
  | _, _ => s
  end.

Lemma append_cons (c : ascii) (a b : string) :
  String c a +:+ b = String c (a +:+ b).
Proof. reflexivity. Qed.

Lemma append_empty_l (s : string) : "" +:+ s = s.
Proof. reflexivity. Qed.

Lemma append_empty_r (s : string) : s +:+ "" = s.
Proof. induction s as [|c s IH]; [done|]. by rewrite append_cons, IH. Qed.

Lemma take_drop_chars (n : nat) :
  forall s, take_chars n s +:+ drop_chars n s = s.
Proof.
  induction n as [|n IH]; intros [|c s]; try done.
  cbn [take_chars drop_chars]. by rewrite append_cons, IH.
Qed.

(** A text put together from the cuts of a scan: each cut is the text
    that is kept since the cut before, followed by a part; [rest] is the
    text that is kept after the last part.  The text that [re.sub] reads
    has the matches as parts, the text that it returns has the
    replacements in their places. *)
Fixpoint rebuild (cuts : list (string * string)) (rest : string) : string :=
  match cuts with
  | [] => rest
  | (kept, part) :: cuts' => kept +:+ part +:+ rebuild cuts' rest
  end.

(** One more character kept at the head of the text. *)
Definition keep_char (c : ascii) (kept : list string) (rest : string)
    : list string * string :=
  match kept with
  | [] => ([], String c rest)
  | k :: kept' => (String c k :: kept', rest)
  end.

Lemma rebuild_keep_char (c : ascii) (kept parts : list string)
    (rest : string) :
  length kept = length parts ->
  rebuild (zip (keep_char c kept rest).1 parts) (keep_char c kept rest).2
  = String c (rebuild (zip kept parts) rest).
Proof. destruct kept, parts; simpl; done. Qed.

Lemma keep_char_length (c : ascii) (kept : list string) (rest : string) :
  length (keep_char c kept rest).1 = length kept.
Proof. by destruct kept. Qed.

(** The replacement function [repl] appends one entry to the log at each
    call: the entry holds the match, what the function returns for it,
    and satisfies [P]. *)
Definition logs_as (P : LogEntry -> Prop)
    (repl : string -> Redactor -> string * Redactor) : Prop :=
  forall matched st,
    ∃ entry,
      redaction_log (repl matched st).2 = redaction_log st ++ [entry]
      ∧ log_original entry = matched
      ∧ log_replacement entry = (repl matched st).1
      ∧ P entry.

(** Whatever the matcher finds, the scan of [re.sub] with such a function
    returns the text it has read with the originals of the entries it has
    logged replaced, each at its place, by the replacement of the
    entry. *)
Lemma scan_rebuild (P : LogEntry -> Prop)
    (matcher : option ascii -> string -> option nat)
    (repl : string -> Redactor -> string * Redactor) :
  logs_as P repl ->
  forall s prev skip st,
    ∃ new kept rest,
      redaction_log (scan matcher repl prev s skip st).2
        = redaction_log st ++ new
      ∧ Forall P new
      ∧ length kept = length new
      ∧ drop_chars skip s = rebuild (zip kept (log_original <$> new)) rest
      ∧ (scan matcher repl prev s skip st).1
        = rebuild (zip kept (log_replacement <$> new)) rest.
Proof.
  intros Hrepl. induction s as [|c s IH]; intros prev skip st.
  - simpl. destruct skip as [|skip].
    + destruct (matcher prev EmptyString) as [n|].
      * destruct (Hrepl (take_chars n EmptyString) st)
          as (entry & Hlog & Ho & Hr & HP).
        destruct (repl (take_chars n EmptyString) st) as [out st1].
        simpl in *. exists [entry], [""], "". simpl.
        split; [done|]. split; [by repeat constructor|]. split; [done|].
        rewrite Ho, Hr, !append_empty_l, !append_empty_r. by destruct n.
      * exists [], [], "". simpl. by rewrite app_nil_r.
    + exists [], [], "". simpl. by rewrite app_nil_r.
  - simpl. destruct skip as [|skip]; [|apply IH].
    destruct (matcher prev (String c s)) as [n|].
    + destruct (Hrepl (take_chars n (String c s)) st)
        as (entry & Hlog & Ho & Hr & HP).
      destruct (repl (take_chars n (String c s)) st) as [out st1].
      simpl in Hlog, Hr. destruct n as [|n].
      * destruct (IH (Some c) 0 st1) as (new & kept & rest & Hl & Hall & Hlen & Ht & Hout).
        destruct (scan matcher repl (Some c) s 0 st1) as [out2 st2].
        simpl in Hl, Hout.
        exists (entry :: new), ("" :: (keep_char c kept rest).1),
               (keep_char c kept rest).2.
        cbn [fst snd].
        split; [by rewrite Hl, Hlog, <- app_assoc|].
        split; [by constructor|].
        split; [simpl; by rewrite keep_char_length, Hlen|].
        rewrite !fmap_cons. cbn [zip zip_with rebuild fst snd].
        rewrite !rebuild_keep_char by (by rewrite length_fmap).
        rewrite Ho, Hr, <- Hout.
        assert (drop_chars 0 s = s) as Hs by (by destruct s).
        rewrite Hs in Ht. by rewrite <- Ht.
      * destruct (IH (Some c) n st1) as (new & kept & rest & Hl & Hall & Hlen & Ht & Hout).
        destruct (scan matcher repl (Some c) s n st1) as [out2 st2].
        simpl in Hl, Hout.
        exists (entry :: new), ("" :: kept), rest.
        cbn [fst snd].
        split; [by rewrite Hl, Hlog, <- app_assoc|].
        split; [by constructor|].
        split; [simpl; by rewrite Hlen|].
        rewrite !fmap_cons. cbn [zip zip_with rebuild fst snd].
        rewrite <- Ht, <- Hout, Ho, Hr.
        split; [|done].
        change (String c s = String c (take_chars n s +:+ drop_chars n s)).
        by rewrite take_drop_chars.
    + destruct (IH (Some c) 0 st) as (new & kept & rest & Hl & Hall & Hlen & Ht & Hout).
      destruct (scan matcher repl (Some c) s 0 st) as [out2 st2].
      simpl in Hl, Hout.
      exists new, (keep_char c kept rest).1, (keep_char c kept rest).2.
      cbn [fst snd].
      split; [done|]. split; [done|].
      split; [by rewrite keep_char_length|].
      rewrite !rebuild_keep_char by (by rewrite length_fmap).
      rewrite <- Hout.
      assert (drop_chars 0 s = s) as Hs by (by destruct s).
      rewrite Hs in Ht. by rewrite <- Ht.
Qed.

Lemma replace_func_logs (name : string) (random_mode : bool) :
  logs_as (fun entry =>
             log_type entry = "pattern" ∧ log_pattern entry = Some name)
    (replace_func name random_mode).
Proof.
  intros matched st. unfold replace_func.
  destruct (_get_pattern_replacement st name matched random_mode)
    as [replacement st1] eqn:E.
  assert (redaction_log st1 = redaction_log st) as Hlog.
  { unfold _get_pattern_replacement in E.
    by destruct random_mode; injection E as <- <-. }
  eexists. simpl. rewrite Hlog. split; [reflexivity|]. done.
Qed.

(** ** The counters of random mode *)

(** [f"[{pattern_type.upper()}-{n:03d}]"] *)
Definition placeholder (pattern_name : string) (n : nat) : string :=
  "[" +:+ upper pattern_name +:+ "-" +:+ fmt_03d n +:+ "]".

(** The entries that the log holds for the pattern [name], in order. *)
Definition pattern_entries (name : string) (log : list LogEntry)
    : list LogEntry :=
  filter (fun entry => log_pattern entry = Some name) log.

(** What the counters and the log say to each other between two matches:
    the counter of a name is the number of its entries, and its [k]-th
    entry, counted from 0, carries the placeholder of [k + 1]. *)
Definition counted (st : Redactor) : Prop :=
  forall name,
    default 0 (_random_counter st !! name)
      = length (pattern_entries name (redaction_log st))
    ∧ forall k entry,
        pattern_entries name (redaction_log st) !! k = Some entry ->
        log_replacement entry = placeholder name (S k).

Lemma counted_clear_log (st : Redactor) : counted (clear_log st).
Proof. intros name. simpl. split; [done|]. intros k entry H. inversion H. Qed.

Lemma counted_replace_func (name matched : string) (st : Redactor) :
  counted st -> counted (replace_func name true matched st).2.
Proof.
  intros Hst. unfold replace_func, _get_pattern_replacement. simpl.
  set (c1 := match _random_counter st !! name with
             | Some _ => _random_counter st
             | None => <[name := 0]> (_random_counter st)
             end).
  assert (default 0 (c1 !! name) = default 0 (_random_counter st !! name))
    as Hc1.
  { unfold c1. destruct (_random_counter st !! name) eqn:E.
    - by rewrite E.
    - by rewrite lookup_insert_eq. }
  assert (forall other, other ≠ name ->
            c1 !! other = _random_counter st !! other) as Hother.
  { intros other Hne. unfold c1. destruct (_random_counter st !! name); [done|].
    by rewrite lookup_insert_ne. }
  rewrite Hc1. intros other. simpl.
  unfold pattern_entries. rewrite filter_app.
  destruct (decide (other = name)) as [->|Hne].
  - rewrite lookup_insert_eq. simpl.
    rewrite filter_cons_True by done. rewrite filter_nil.
    destruct (Hst name) as [Hn Hk]. fold (pattern_entries name (redaction_log st)).
    rewrite length_app. simpl. split; [lia|].
    intros k entry Hlook.
    destruct (decide (k < length (pattern_entries name (redaction_log st))))
      as [Hlt|Hge].
    + rewrite lookup_app_l in Hlook by done. by apply Hk.
    + rewrite lookup_app_r in Hlook by lia.
      destruct (k - length (pattern_entries name (redaction_log st)))
        as [|d] eqn:Hd; simpl in Hlook; [|done].
      injection Hlook as <-. simpl. unfold placeholder.
      replace (S k)
        with (length (pattern_entries name (redaction_log st)) + 1) by lia.
      by rewrite <- Hn.
  - rewrite lookup_insert_ne by done. rewrite Hother by done.
    rewrite filter_cons_False by (simpl; congruence).
    rewrite filter_nil, app_nil_r. apply Hst.
Qed.

Lemma redact_patterns_loop_cons (name : string) (names : list string)
    (random_mode : bool) (text : string) (st : Redactor) :
  redact_patterns_loop (name :: names) random_mode text st =
  match pattern_of PATTERNS name with
  | Some pattern =>
      let '(text', st') :=
        sub false pattern (replace_func name random_mode) text st in
      redact_patterns_loop names random_mode text' st'
  | None => redact_patterns_loop names random_mode text st
  end.
Proof. reflexivity. Qed.

Lemma counted_redact_patterns_loop (names : list string) :
  forall text st, counted st ->
    counted (redact_patterns_loop names true text st).2.
Proof.
  induction names as [|name names IH]; intros text st Hst; [done|].
  rewrite redact_patterns_loop_cons.
  destruct (pattern_of PATTERNS name) as [pattern|]; [|by apply IH].
  pose proof (scan_invariant counted (match_at false pattern)
                (replace_func name true)
                (fun matched st0 => counted_replace_func name matched st0)
                text None 0 st Hst) as Hscan.
  unfold sub. destruct (scan _ _ None text 0 st) as [text' st'].
  by apply IH.
Qed.

(** A run of calls [redact_patterns(text, patterns, random_mode=True)]. *)
Definition random_calls (st : Redactor)
    (calls : list (string * option (list string))) : Redactor :=
  fold_left (fun st call => (redact_patterns st call.1 call.2 true).2) calls st.

Lemma counted_random_calls (calls : list (string * option (list string))) :
  forall st, counted st -> counted (random_calls st calls).
Proof.
  induction calls as [|[text patterns] calls IH]; intros st Hst; [done|].
  simpl. apply IH. unfold redact_patterns.
  by apply counted_redact_patterns_loop.
Qed.

(** The calls of a client between two [clear_log()]: pattern redaction in
    random mode, entity redaction, redaction with random identifiers. *)
Inductive engine_call :=
| RedactPatterns (text : string) (patterns : option (list string))
| RedactEntities (text : string) (case_sensitive : bool)
| RedactWithRandomIds (rand : nat -> nat) (cursor : nat) (text : string)
    (ents : list string) (entity_type : string).

Definition outcome_state (o : random_outcome) : Redactor :=
  match o with
  | Returned r => run_state r
  | ReError r => run_state r
  end.

Definition engine_step (st : Redactor) (c : engine_call) : Redactor :=
  match c with
  | RedactPatterns text patterns => (redact_patterns st text patterns true).2
  | RedactEntities text case_sensitive =>
      (redact_entities st text case_sensitive).2
  | RedactWithRandomIds rand cursor text ents entity_type =>
      outcome_state
        (redact_with_random_ids st rand cursor text ents entity_type)
  end.

Definition engine_run (st : Redactor) (calls : list engine_call) : Redactor :=
  fold_left engine_step calls st.

Lemma counted_log_append (st : Redactor) (entry : LogEntry) :
  log_pattern entry = None -> counted st -> counted (log_append st entry).
Proof.
  intros Hnone Hst name. simpl. unfold pattern_entries.
  rewrite filter_app, filter_cons_False by (rewrite Hnone; done).
  rewrite filter_nil, app_nil_r. apply Hst.
Qed.

Lemma counted_make_replacer (al term matched : string) (st : Redactor) :
  counted st -> counted (make_replacer al term matched st).2.
Proof. intros Hst. unfold make_replacer. simpl. by apply counted_log_append. Qed.

Lemma counted_redact_terms (ic : bool) (al : string) (terms : list string) :
  forall text st, counted st -> counted (redact_terms ic al terms text st).2.
Proof.
  induction terms as [|term terms IH]; intros text st Hst; [done|].
  simpl. destruct (truthy term); [|by apply IH].
  pose proof (scan_invariant counted (match_at ic (whole_word term))
                (make_replacer al term)
                (fun matched st0 => counted_make_replacer al term matched st0)
                text None 0 st Hst) as Hscan.
  unfold sub. destruct (scan _ _ None text 0 st) as [text' st'].
  by apply IH.
Qed.

Lemma redact_entities_loop_cons (ic : bool) (e : Entity) (es : list Entity)
    (text : string) (st : Redactor) :
  redact_entities_loop ic (e :: es) text st =
  let '(text', st') :=
    redact_terms ic (alias e) (original e :: variations e) text st in
  redact_entities_loop ic es text' st'.
Proof. reflexivity. Qed.

Lemma counted_redact_entities_loop (ic : bool) (es : list Entity) :
  forall text st, counted st ->
    counted (redact_entities_loop ic es text st).2.
Proof.
  induction es as [|e es IH]; intros text st Hst; [done|].
  rewrite redact_entities_loop_cons.
  pose proof (counted_redact_terms ic (alias e)
                (original e :: variations e) text st Hst) as Hterms.
  destruct (redact_terms ic (alias e) (original e :: variations e) text st)
    as [text' st'].
  by apply IH.
Qed.

Lemma counted_random_loop (rand : nat -> nat) (entity_type : string)
    (ents : list string) :
  forall acc, counted (run_state acc) ->
    counted (outcome_state (random_loop rand entity_type ents acc)).
Proof.
  induction ents as [|entity ents IH]; intros acc Hacc; [done|].
  simpl. destruct (assign_id rand entity_type acc entity) as [dm cursor].
  destruct (sub_template true (whole_word entity) _ (run_result acc));
    [|done].
  apply IH. simpl. by apply counted_log_append.
Qed.

Lemma counted_engine_run (calls : list engine_call) :
  forall st, counted st -> counted (engine_run st calls).
Proof.
  induction calls as [|c calls IH]; intros st Hst; [done|].
  simpl. apply IH. destruct c; simpl.
  - unfold redact_patterns. by apply counted_redact_patterns_loop.
  - unfold redact_entities. by apply counted_redact_entities_loop.
  - unfold redact_with_random_ids. by apply counted_random_loop.
Qed.

(** A number field of exactly three decimal digits. *)
Definition three_digits (number : string) : bool :=
  match number with
  | String a (String b (String c EmptyString)) =>
      is_digit a && is_digit b && is_digit c
  | _ => false
  end.

Lemma fmt_03d_three_digits (n : nat) :
  n <= 999 -> three_digits (fmt_03d n) = true.
Proof.
  intros Hn.
  assert (forallb (fun n => three_digits (fmt_03d n)) (List.seq 0 1000) = true)
    as Hall by (vm_compute; reflexivity).
  rewrite forallb_forall in Hall. apply Hall, in_seq. lia.
Qed.

(** C6, amended.  After [clear_log()] and any run of calls of
    [redact_patterns] in random mode, with calls of [redact_entities] and
    of [redact_with_random_ids] in between, let the log hold [n] entries
    of the pattern [name]: the [k]-th of them, counted from 1, carries the
    placeholder of [k].  The next call
    [redact_patterns(text, [name], random_mode=True)] appends one entry
    for each match it finds and returns [text] with each match replaced,
    at its place, by the replacement of its entry; the [i]-th of these
    matches, counted from 0, is replaced by
    ["[" + name.upper() + "-" + f"{n + i + 1:03d}" + "]"].  So the number
    starts at 1 after [clear_log()], goes on from one call to the next,
    and starts again only with [clear_log()]; it has three digits up to
    999 and is written in full from 1000 on. *)
Theorem random_placeholders_count_up
    (st : Redactor) (calls : list engine_call) (name text : string) :
  let st1 := engine_run (clear_log st) calls in
  let before := pattern_entries name (redaction_log st1) in
  let r := redact_patterns st1 text (Some [name]) true in
  (forall k entry,
     before !! k = Some entry ->
     log_replacement entry
       = "[" +:+ upper name +:+ "-" +:+ fmt_03d (k + 1) +:+ "]")
  ∧ ∃ new kept rest,
      redaction_log r.2 = redaction_log st1 ++ new
      ∧ length kept = length new
      ∧ text = rebuild (zip kept (log_original <$> new)) rest
      ∧ r.1 = rebuild (zip kept (log_replacement <$> new)) rest
      ∧ forall i entry,
          new !! i = Some entry ->
          log_type entry = "pattern"
          ∧ log_pattern entry = Some name
          ∧ log_replacement entry
            = "[" +:+ upper name +:+ "-"
              +:+ fmt_03d (length before + i + 1) +:+ "]"
          ∧ (length before + i + 1 <= 999 ->
             three_digits (fmt_03d (length before + i + 1)) = true).
Proof.
  intros st1 before r.
  pose proof (counted_engine_run calls (clear_log st) (counted_clear_log st))
    as Hst1. fold st1 in Hst1.
  split.
  { intros k entry Hk. destruct (Hst1 name) as [_ Hentries].
    rewrite (Hentries k entry Hk). unfold placeholder.
    by replace (k + 1) with (S k) by lia. }
  pose proof (counted_redact_patterns_loop [name] text st1 Hst1) as Hr.
  unfold r, redact_patterns. rewrite redact_patterns_loop_cons.
  rewrite redact_patterns_loop_cons in Hr.
  destruct (pattern_of PATTERNS name) as [pattern|].
  - unfold sub in *.
    destruct (scan_rebuild _ (match_at false pattern) (replace_func name true)
                (replace_func_logs name true) text None 0 st1)
      as (new & kept & rest & Hl & Hall & Hlen & Ht & Hout).
    destruct (scan (match_at false pattern) (replace_func name true) None
                text 0 st1) as [out st2].
    simpl in Hl, Hout, Hr. simpl.
    exists new, kept, rest.
    split; [done|]. split; [done|].
    split; [by destruct text|]. split; [done|].
    intros i entry Hi.
    destruct (proj1 (Forall_lookup _ _) Hall i entry Hi) as [Htype Hpat].
    split; [done|]. split; [done|].
    split; [|apply fmt_03d_three_digits].
    destruct (Hr name) as [_ Hentries].
    assert (pattern_entries name (redaction_log st2) = before ++ new) as Hp.
    { unfold pattern_entries. rewrite Hl, filter_app. f_equal.
      clear -Hall. induction Hall as [|entry new [_ Hpat] _ IH]; [done|].
      rewrite filter_cons_True by done. by rewrite IH. }
    rewrite Hp in Hentries.
    rewrite (Hentries (length before + i) entry).
    + unfold placeholder.
      by replace (length before + i + 1) with (S (length before + i)) by lia.
    + rewrite lookup_app_r by lia.
      by replace (length before + i - length before) with i by lia.
  - exists [], [], text. simpl. rewrite app_nil_r.
    split; [done|]. split; [done|]. split; [done|]. split; [done|].
    intros i entry Hi. inversion Hi.
Qed.

(** An engine with nothing in it. *)
Definition fresh_engine : Redactor :=
  {| mapping := _empty_mapping "t0" "t0"; redaction_log := [];
     _random_counter := ∅ |}.

(** [n] copies of a text, one after the other. *)
Fixpoint copies (n : nat) (s : string) : string :=
  match n with
  | O => EmptyString
  | S n' => s +:+ copies n' s
  end.

(** ** Whole-word replacement of an entity *)

(** [term] stands at the head of [s], up to case when [ic] is set. *)
Fixpoint prefix_eqb (ic : bool) (term s : string) : bool :=
  match term with
  | EmptyString => true
  | String t term' =>
      match s with
      | String c s' => char_eqb ic t c && prefix_eqb ic term' s'
      | EmptyString => false
      end
  end.

Fixpoint last_char (s : string) : option ascii :=
  match s with
  | EmptyString => None
  | String c EmptyString => Some c
  | String _ s' => last_char s'
  end.

(** The term begins and ends with a word character. *)
Definition word_edges (term : string) : bool :=
  word_side (head term) && word_side (last_char term).

(** A whole-word occurrence of [term] at the head of [s], as the
    specification words it: the term stands there, and it is not part of a
    longer word, that is no word character comes right before it and none
    right after it. *)
Definition whole_word_here (ic : bool) (term : string) (prev : option ascii)
    (s : string) : bool :=
  negb (word_side prev) && prefix_eqb ic term s
  && negb (word_side (head (drop_chars (String.length term) s))).

(** The whole-word occurrences of [term] in [s], from left to right, an
    occurrence starting where the one before has ended at the earliest;
    each is given by the text it covers.  [skip] is the number of
    characters still covered by the last occurrence. *)
Fixpoint whole_word_occurrences (ic : bool) (term : string)
    (prev : option ascii) (s : string) (skip : nat) : list string :=
  match s with
  | EmptyString => []
  | String c s' =>
      match skip with
      | S skip' => whole_word_occurrences ic term (Some c) s' skip'
      | O =>
          if whole_word_here ic term prev s then
            take_chars (String.length term) s
            :: whole_word_occurrences ic term (Some c) s'
                 (String.length term - 1)
          else whole_word_occurrences ic term (Some c) s' 0
      end
  end.

(** The text with each of these occurrences replaced by [al]. *)
Fixpoint replace_whole_words (ic : bool) (term al : string)
    (prev : option ascii) (s : string) (skip : nat) : string :=
  match s with
  | EmptyString => EmptyString
  | String c s' =>
      match skip with
      | S skip' => replace_whole_words ic term al (Some c) s' skip'
      | O =>
          if whole_word_here ic term prev s then
            al +:+ replace_whole_words ic term al (Some c) s'
                     (String.length term - 1)
          else String c (replace_whole_words ic term al (Some c) s' 0)
      end
  end.

(** The text holds ASCII characters only. *)
Fixpoint ascii_only (s : string) : bool :=
  match s with
  | EmptyString => true
  | String c s' => (code c <? 128)%nat && ascii_only s'
  end.

(** The log entry of one replacement. *)
Definition entity_entry (al term matched : string) : LogEntry :=
  {| log_type := "entity"; log_pattern := None; log_original := matched;
     log_replacement := al; log_mapped_from := Some term |}.

(** Where the scan stands after [n] characters. *)
Fixpoint advance (n : nat) (prev : option ascii) (s : string)
    : option ascii * string :=
  match n, s with
  | S n', String c s' => advance n' (Some c) s'
  | _, _ => (prev, s)
  end.

Lemma is_word_lower_char (c : ascii) : is_word (lower_char c) = is_word c.
Proof. destruct c as [[] [] [] [] [] [] [] []]; reflexivity. Qed.

Lemma char_eqb_is_word (ic : bool) (a b : ascii) :
  char_eqb ic a b = true -> is_word b = is_word a.
Proof.
  unfold char_eqb. destruct ic; intros H; apply Ascii.eqb_eq in H.
  - by rewrite <- (is_word_lower_char a), <- (is_word_lower_char b), H.
  - by rewrite H.
Qed.

Lemma run_literal {R : Type} (ic : bool) (term : string) :
  forall prev s (k : option ascii -> string -> option R),
    run ic (literal term) prev s k =
    if prefix_eqb ic term s
    then k (advance (String.length term) prev s).1
           (advance (String.length term) prev s).2
    else None.
Proof.
  induction term as [|t term IH]; intros prev s k; [done|].
  simpl. destruct s as [|c s]; [done|].
  destruct (char_eqb ic t c); [|done]. simpl. apply IH.
Qed.

Lemma advance_snd (n : nat) :
  forall prev s, (advance n prev s).2 = drop_chars n s.
Proof.
  induction n as [|n IH]; intros prev s; [by destruct s|].
  destruct s as [|c s]; [done|]. simpl. apply IH.
Qed.

Lemma advance_length (ic : bool) (term : string) :
  forall prev s,
    prefix_eqb ic term s = true ->
    String.length s - String.length (advance (String.length term) prev s).2
      = String.length term.
Proof.
  induction term as [|t term IH]; intros prev s Hp.
  - simpl. destruct s; simpl; lia.
  - destruct s as [|c s]; [done|]. simpl in Hp.
    apply andb_true_iff in Hp as [_ Hp]. simpl.
    specialize (IH (Some c) s Hp).
    assert (String.length (advance (String.length term) (Some c) s).2
              <= String.length s) as Hle.
    { rewrite advance_snd. clear. revert s.
      induction (String.length term) as [|n IHn]; intros s; [done|].
      destruct s as [|c s]; [done|]. simpl. specialize (IHn s). lia. }
    lia.
Qed.

(** After a nonempty term has been read, the character before the position
    is the one that matched the last character of the term. *)
Lemma advance_last_is_word (ic : bool) (term : string) :
  forall prev s,
    term ≠ EmptyString ->
    prefix_eqb ic term s = true ->
    word_side (advance (String.length term) prev s).1
      = word_side (last_char term).
Proof.
  induction term as [|t term IH]; intros prev s Hne Hp; [done|].
  destruct s as [|c s]; [done|]. simpl in Hp.
  apply andb_true_iff in Hp as [Hc Hp].
  destruct term as [|t' term].
  - simpl. destruct s; simpl; by apply char_eqb_is_word in Hc.
  - change (advance (String.length (String t (String t' term))) prev
              (String c s))
      with (advance (String.length (String t' term)) (Some c) s).
    rewrite IH by done. done.
Qed.

Lemma prefix_head_is_word (ic : bool) (term s : string) :
  term ≠ EmptyString ->
  prefix_eqb ic term s = true ->
  word_side (head s) = word_side (head term).
Proof.
  destruct term as [|t term]; [done|]. intros _ Hp.
  destruct s as [|c s]; [done|]. simpl in Hp.
  apply andb_true_iff in Hp as [Hc _]. simpl. by apply char_eqb_is_word in Hc.
Qed.

(** On a term with word characters at both ends the pattern
    [\b term \b] matches exactly at the whole-word occurrences. *)
Lemma match_at_whole_word (ic : bool) (term : string) (prev : option ascii)
    (s : string) :
  word_edges term = true ->
  match_at ic (whole_word term) prev s =
  if whole_word_here ic term prev s then Some (String.length term) else None.
Proof.
  intros Hedges. apply andb_true_iff in Hedges as [Hfirst Hlast].
  assert (term ≠ EmptyString) as Hne by (by destruct term).
  unfold match_at, whole_word, whole_word_here. simpl.
  unfold at_boundary at 1.
  rewrite run_literal.
  destruct (prefix_eqb ic term s) eqn:Hp.
  - rewrite (prefix_head_is_word ic term s Hne Hp), Hfirst.
    unfold at_boundary.
    rewrite (advance_last_is_word ic term prev s Hne Hp), Hlast.
    rewrite advance_snd.
    destruct (word_side prev); simpl; [done|].
    destruct (word_side (head (drop_chars (String.length term) s))); simpl;
      [done|].
    f_equal. rewrite <- (advance_snd _ prev). by apply (advance_length ic).
  - rewrite andb_false_r. simpl.
    by destruct (xorb (word_side prev) (word_side (head s))).
Qed.

(** The object after the entries [entries] have been appended to its log. *)
Definition log_extend (st : Redactor) (entries : list LogEntry) : Redactor :=
  {| mapping := mapping st;
     redaction_log := redaction_log st ++ entries;
     _random_counter := _random_counter st |}.

Lemma log_extend_nil (st : Redactor) : log_extend st [] = st.
Proof. unfold log_extend. rewrite app_nil_r. by destruct st. Qed.

Lemma log_extend_append (st : Redactor) (entry : LogEntry)
    (entries : list LogEntry) :
  log_extend (log_append st entry) entries = log_extend st (entry :: entries).
Proof. unfold log_extend, log_append. simpl. by rewrite <- app_assoc. Qed.

Lemma scan_whole_word (ic : bool) (term al : string)
    (matcher : option ascii -> string -> option nat) :
  term ≠ EmptyString ->
  (forall prev s,
     matcher prev s =
     if whole_word_here ic term prev s
     then Some (String.length term) else None) ->
  forall s prev skip st,
    scan matcher (make_replacer al term) prev s skip st =
    (replace_whole_words ic term al prev s skip,
     log_extend st
       (entity_entry al term
          <$> whole_word_occurrences ic term prev s skip)).
Proof.
  intros Hne Hm.
  assert (forall prev, whole_word_here ic term prev EmptyString = false) as Hend.
  { intros prev. unfold whole_word_here. destruct term; [done|]. simpl.
    by rewrite andb_false_r. }
  assert (∃ n, String.length term = S n) as [n Hn].
  { destruct term; [done | by eexists]. }
  induction s as [|c s IH]; intros prev skip st.
  - simpl. rewrite Hm, Hend, log_extend_nil. by destruct skip.
  - simpl. destruct skip as [|skip]; [|apply IH]. rewrite Hm.
    destruct (whole_word_here ic term prev (String c s)) eqn:Hw.
    + rewrite Hn. cbn [make_replacer]. rewrite IH.
      replace (S n - 1) with n by lia.
      by rewrite fmap_cons, log_extend_append.
    + by rewrite IH.
Qed.

Lemma redact_terms_single (ic : bool) (al term text : string) (st : Redactor) :
  word_edges term = true ->
  redact_terms ic al [term] text st =
    (replace_whole_words ic term al None text 0,
     log_extend st
       (entity_entry al term
          <$> whole_word_occurrences ic term None text 0)).
Proof.
  intros Hedges.
  assert (term ≠ EmptyString) as Hne by (by destruct term).
  unfold redact_terms.
  assert (truthy term = true) as -> by (by destruct term).
  unfold sub.
  rewrite (scan_whole_word ic term al (match_at ic (whole_word term)) Hne
             (fun prev s => match_at_whole_word ic term prev s Hedges)).
  done.
Qed.

(** Where the term has word characters at both ends the method does what
    is asked of it, on a text and a term of ASCII characters.  For a
    mapping with one entity, without variations, whose original [T] begins
    and ends with a word character, [redact_entities] returns the text with
    every whole-word occurrence of [T] (up to case unless [case_sensitive])
    replaced by the alias [A], and appends one entry to the log for each of
    these [N] occurrences, of kind [entity], with [replacement] equal to
    [A] and [mapped_from] equal to [T]. *)
Lemma whole_word_terms_are_replaced
    (st : Redactor) (text : string) (case_sensitive : bool) (e : Entity) :
  ascii_only text = true ->
  ascii_only (original e) = true ->
  entities (mapping st) = [e] ->
  variations e = [] ->
  word_edges (original e) = true ->
  let T := original e in
  let A := alias e in
  let occurrences :=
    whole_word_occurrences (negb case_sensitive) T None text 0 in
  let N := length occurrences in
  let r := redact_entities st text case_sensitive in
  r.1 = replace_whole_words (negb case_sensitive) T A None text 0
  ∧ mapping r.2 = mapping st
  ∧ _random_counter r.2 = _random_counter st
  ∧ ∃ entries,
      redaction_log r.2 = redaction_log st ++ entries
      ∧ length entries = N
      ∧ log_original <$> entries = occurrences
      ∧ Forall (fun entry =>
                  log_type entry = "entity"
                  ∧ log_replacement entry = A
                  ∧ log_mapped_from entry = Some T) entries.
Proof.
  intros _ _ Hes Hvars Hedges T A occurrences N r.
  assert (r = (replace_whole_words (negb case_sensitive) T A None text 0,
               log_extend st (entity_entry A T <$> occurrences))) as ->.
  { unfold r, redact_entities. rewrite Hes.
    rewrite redact_entities_loop_cons, Hvars.
    rewrite redact_terms_single by done. done. }
  cbn [fst snd log_extend mapping redaction_log _random_counter].
  split; [done|]. split; [done|]. split; [done|].
  exists (entity_entry A T <$> occurrences).
  split; [done|]. split; [by rewrite length_fmap|]. split.
  - clear. induction occurrences as [|o os IH]; [done|].
    rewrite !fmap_cons, IH. done.
  - apply Forall_fmap, Forall_forall. by intros o _.
Qed.

(** The engine of scenario 2 of the specification. *)
Definition john_smith_engine : Redactor :=
  {| mapping :=
       {| version := "1.0"; created := "t0"; updated := "t0";
          entities := [mkEntity "John Smith" "Person_A" "person" [] "" "t1"] |};
     redaction_log := [];
     _random_counter := ∅ |}.

(** An engine whose only entity ends with a full stop. *)
Definition inc_engine : Redactor :=
  {| mapping :=
       {| version := "1.0"; created := "t0"; updated := "t0";
          entities := [mkEntity "Inc." "Org_A" "organization" [] "" "t1"] |};
     redaction_log := [];
     _random_counter := ∅ |}.

(** ** Redaction with random identifiers *)

(** A template without a backslash stands for itself. *)
Fixpoint texts (s : string) : list piece :=
  match s with
  | EmptyString => []
  | String c s' => Text c :: texts s'
  end.

Lemma expand_texts (s matched : string) : expand (texts s) matched = s.
Proof. induction s as [|c s IH]; [done|]. simpl. by rewrite IH. Qed.

Lemma parse_template_plain (s : string) :
  contains "\" s = false ->
  forall fuel, String.length s <= fuel ->
    parse_template fuel s = Some (texts s).
Proof.
  induction s as [|c s IH]; intros Hs fuel Hfuel.
  - by destruct fuel.
  - simpl in Hs. apply orb_false_iff in Hs as [Hc Hs].
    destruct fuel as [|fuel]; [simpl in Hfuel; lia|].
    simpl. rewrite Hc. simpl. rewrite IH; [done|done|].
    simpl in Hfuel. lia.
Qed.

Lemma scan_same_replacement {St : Type}
    (matcher : option ascii -> string -> option nat)
    (repl1 repl2 : string -> St -> string * St) :
  (forall matched st, repl1 matched st = repl2 matched st) ->
  forall s prev skip st,
    scan matcher repl1 prev s skip st = scan matcher repl2 prev s skip st.
Proof.
  intros Hrepl. induction s as [|c s IH]; intros prev skip st; simpl.
  - destruct skip; [|done]. destruct (matcher prev EmptyString); [|done].
    by rewrite Hrepl.
  - destruct skip as [|skip]; [|apply IH].
    destruct (matcher prev (String c s)) as [n|].
    + rewrite Hrepl.
      destruct (repl2 (take_chars n (String c s)) st) as [out st1].
      destruct n as [|n]; by rewrite IH.
    + by rewrite IH.
Qed.

Lemma sub_template_plain (ic : bool) (pattern : regex) (repl text : string) :
  contains "\" repl = false ->
  sub_template ic pattern repl text =
    Some (sub ic pattern (fun _ (u : unit) => (repl, u)) text tt).1.
Proof.
  intros Hrepl. unfold sub_template.
  rewrite parse_template_plain by done. unfold sub.
  rewrite (scan_same_replacement _ _ (fun _ (u : unit) => (repl, u))); [done|].
  intros matched u. by rewrite expand_texts.
Qed.

Lemma id_chars_plain (i : nat) :
  Ascii.eqb (char_at id_chars (i mod 36)) "\" = false.
Proof.
  assert (forallb (fun i => negb (Ascii.eqb (char_at id_chars i) "\"))
            (List.seq 0 36) = true) as Hall by (vm_compute; reflexivity).
  rewrite forallb_forall in Hall. apply negb_true_iff, Hall, in_seq.
  pose proof (Nat.mod_upper_bound i 36). lia.
Qed.

Lemma random_part_plain (rand : nat -> nat) (n : nat) :
  forall cursor, contains "\" (random_part rand cursor n) = false.
Proof.
  induction n as [|n IH]; intros cursor; [done|].
  cbn [random_part contains]. by rewrite id_chars_plain, IH.
Qed.

Lemma generated_id_plain (rand : nat -> nat) (cursor : nat) (prefix : string) :
  contains "\" prefix = false ->
  contains "\" (_generate_random_id rand cursor prefix).1 = false.
Proof.
  intros Hp. unfold _generate_random_id. cbn [fst].
  by rewrite !contains_append, Hp, random_part_plain.
Qed.

(** No identifier of the document mapping holds a backslash. *)
Definition plain_ids (dm : gmap string string) : Prop :=
  forall e id, dm !! e = Some id -> contains "\" id = false.

Lemma assign_id_spec (rand : nat -> nat) (prefix : string) (acc : RandomRun)
    (entity : string) :
  contains "\" prefix = false ->
  plain_ids (document_mapping acc) ->
  let dm := (assign_id rand prefix acc entity).1 in
  document_mapping acc ⊆ dm ∧ plain_ids dm
  ∧ ∃ id, dm !! entity = Some id ∧ contains "\" id = false.
Proof.
  intros Hp Hplain. unfold assign_id.
  destruct (document_mapping acc !! entity) as [id|] eqn:E; simpl.
  - split; [done|]. split; [done|]. exists id. split; [done|]. by eapply Hplain.
  - pose proof (generated_id_plain rand (run_cursor acc) prefix Hp) as Hid.
    unfold _generate_random_id in *. simpl in *.
    split; [by apply insert_subseteq|]. split.
    + intros e id. destruct (decide (e = entity)) as [->|Hne].
      * rewrite lookup_insert_eq. by intros [= <-].
      * rewrite lookup_insert_ne by done. apply Hplain.
    + eexists. split; [apply lookup_insert_eq | done].
Qed.

(** The log entry of one element of the list. *)
Definition random_entry (ids : string -> string) (entity : string)
    : LogEntry :=
  {| log_type := "random"; log_pattern := None; log_original := entity;
     log_replacement := ids entity; log_mapped_from := None |}.

(** [out] is [text] with parts of it replaced, each of them by [id]. *)
Definition replaced_by (id text out : string) : Prop :=
  ∃ kept parts rest,
    length kept = length parts
    ∧ text = rebuild (zip kept parts) rest
    ∧ out = rebuild (zip kept (replicate (length parts) id)) rest.

(** The passes over the text, one for each element of the list, in the
    order of the list: the pass of an element reads what the pass before
    has returned, and replaces by the identifier of its element. *)
Inductive passes (ids : string -> string)
    : list string -> string -> string -> Prop :=
| passes_nil (text : string) : passes ids [] text text
| passes_cons (entity : string) (ents : list string) (text mid out : string) :
    replaced_by (ids entity) text mid ->
    passes ids ents mid out ->
    passes ids (entity :: ents) text out.

(** Whatever the matcher finds, the scan of [re.sub] with a replacement
    that is the same for every match returns the text it has read with
    parts of it replaced by this replacement. *)
Lemma scan_replaced_by (matcher : option ascii -> string -> option nat)
    (id : string) :
  forall s prev skip,
    replaced_by id (drop_chars skip s)
      (scan matcher (fun _ (u : unit) => (id, u)) prev s skip tt).1.
Proof.
  induction s as [|c s IH]; intros prev skip.
  - simpl. destruct skip as [|skip].
    + destruct (matcher prev EmptyString) as [n|].
      * exists [""], [""], "". simpl.
        by rewrite !append_empty_l, !append_empty_r.
      * by exists [], [], "".
    + by exists [], [], "".
  - simpl. destruct skip as [|skip]; [|apply IH].
    destruct (matcher prev (String c s)) as [[|n]|].
    + destruct (IH (Some c) 0) as (kept & parts & rest & Hlen & Ht & Hout).
      destruct (scan matcher _ (Some c) s 0 tt) as [out2 []].
      simpl in Hout.
      assert (drop_chars 0 s = s) as Hs by (by destruct s).
      rewrite Hs in Ht.
      exists ("" :: (keep_char c kept rest).1), ("" :: parts),
             (keep_char c kept rest).2.
      split; [simpl; by rewrite keep_char_length, Hlen|].
      cbn [length replicate zip zip_with rebuild fst snd].
      rewrite !rebuild_keep_char by (by rewrite ?length_replicate).
      by rewrite !append_empty_l, <- Ht, <- Hout.
    + destruct (IH (Some c) n) as (kept & parts & rest & Hlen & Ht & Hout).
      destruct (scan matcher _ (Some c) s n tt) as [out2 []].
      simpl in Hout.
      exists ("" :: kept), (take_chars (S n) (String c s) :: parts), rest.
      split; [simpl; by rewrite Hlen|].
      cbn [length replicate zip zip_with rebuild fst snd].
      rewrite <- Ht, <- Hout, !append_empty_l. split; [|done].
      change (String c s = String c (take_chars n s +:+ drop_chars n s)).
      by rewrite take_drop_chars.
    + destruct (IH (Some c) 0) as (kept & parts & rest & Hlen & Ht & Hout).
      destruct (scan matcher _ (Some c) s 0 tt) as [out2 []].
      simpl in Hout.
      assert (drop_chars 0 s = s) as Hs by (by destruct s).
      rewrite Hs in Ht.
      exists (keep_char c kept rest).1, parts, (keep_char c kept rest).2.
      split; [by rewrite keep_char_length|].
      rewrite !rebuild_keep_char by (by rewrite ?length_replicate).
      by rewrite <- Ht, <- Hout.
Qed.

Lemma random_loop_returns (rand : nat -> nat) (prefix : string)
    (ents : list string) :
  contains "\" prefix = false ->
  forall acc,
    plain_ids (document_mapping acc) ->
    ∃ r,
      random_loop rand prefix ents acc = Returned r
      ∧ document_mapping acc ⊆ document_mapping r
      ∧ plain_ids (document_mapping r)
      ∧ (forall e, e ∈ ents -> is_Some (document_mapping r !! e))
      ∧ mapping (run_state r) = mapping (run_state acc)
      ∧ _random_counter (run_state r) = _random_counter (run_state acc)
      ∧ let ids e := default "" (document_mapping r !! e) in
        redaction_log (run_state r)
          = redaction_log (run_state acc) ++ (random_entry ids <$> ents)
        ∧ passes ids ents (run_result acc) (run_result r).
Proof.
  intros Hp. induction ents as [|entity ents IH]; intros acc Hplain.
  - exists acc. simpl. rewrite app_nil_r.
    split; [done|]. split; [done|]. split; [done|].
    split; [intros e He; inversion He|].
    split; [done|]. split; [done|]. split; [done|]. constructor.
  - simpl.
    destruct (assign_id_spec rand prefix acc entity Hp Hplain)
      as (Hsub & Hplain1 & id & Hid & Hidplain).
    destruct (assign_id rand prefix acc entity) as [dm cursor].
    simpl in Hsub, Hplain1, Hid. rewrite Hid. simpl.
    rewrite sub_template_plain by done.
    edestruct IH as (r & -> & Hsub' & Hplain' & Hdom & Hmap & Hcnt & Hlog & Hres);
      [exact Hplain1|].
    simpl in *. exists r.
    assert (document_mapping r !! entity = Some id) as Hfinal
      by (by eapply lookup_weaken).
    split; [done|]. split; [by etrans|]. split; [done|]. split.
    { intros e He. apply elem_of_cons in He as [->|He]; [by eexists | by apply Hdom]. }
    split; [done|]. split; [done|]. split.
    + rewrite Hlog, <- app_assoc. simpl. f_equal. f_equal.
      unfold random_entry. by rewrite Hfinal.
    + econstructor; [|exact Hres]. rewrite Hfinal. simpl.
      apply (scan_replaced_by _ id (run_result acc) None 0).
Qed.


End EngineProperties.

(** ** Examples *)

(** Scenario 3 of the specification: two addresses, numbered in the order
    in which they appear; the addresses of the next text are numbered from
    3 on. *)
Lemma random_placeholders_count_up_witness :
  let st1 :=
    engine_run (clear_log fresh_engine)
      [RedactPatterns "Reach me at a@x.com or b@x.com" (Some ["email"])] in
  let r := redact_patterns st1 "c@x.com, then D@X.COM" (Some ["email"]) true in
  (redact_patterns (clear_log fresh_engine) "Reach me at a@x.com or b@x.com"
     (Some ["email"]) true).1
    = "Reach me at [EMAIL-001] or [EMAIL-002]"
  ∧ r.1 = "[EMAIL-003], then [EMAIL-004]"
  ∧ ∃ new kept rest,
      redaction_log r.2 = redaction_log st1 ++ new
      ∧ length kept = length new
      ∧ "c@x.com, then D@X.COM"
        = rebuild (zip kept (log_original <$> new)) rest
      ∧ r.1 = rebuild (zip kept (log_replacement <$> new)) rest
      ∧ forall i entry,
          new !! i = Some entry ->
          log_type entry = "pattern"
          ∧ log_pattern entry = Some "email"
          ∧ log_replacement entry
            = "[" +:+ upper "email" +:+ "-" +:+ fmt_03d (2 + i + 1) +:+ "]"
          ∧ (2 + i + 1 <= 999 -> three_digits (fmt_03d (2 + i + 1)) = true).
Proof.
  split; [vm_compute; reflexivity|]. split; [vm_compute; reflexivity|].
  exact (proj2 (random_placeholders_count_up fresh_engine
                  [RedactPatterns "Reach me at a@x.com or b@x.com"
                     (Some ["email"])]
                  "email" "c@x.com, then D@X.COM")).
Defined.

(** C6 as stated fails at the thousandth match.  On a text with a thousand
    addresses, after [clear_log()], the last one is replaced by
    ["[EMAIL-1000]"], whose number has four digits. *)
Lemma thousandth_placeholder_has_four_digits :
  ∃ entry,
    pattern_entries "email"
      (redaction_log
         (redact_patterns (clear_log fresh_engine) (copies 1000 "a@x.com ")
            (Some ["email"]) true).2) !! 999 = Some entry
    ∧ log_replacement entry = "[EMAIL-1000]"
    ∧ three_digits "1000" = false
    ∧ ¬ ∃ a b c : ascii,
          log_replacement entry
            = "[EMAIL-" +:+ String a (String b (String c "]")).
Proof.
  eexists. split; [vm_compute; reflexivity|].
  split; [reflexivity|]. split; [reflexivity|].
  intros (a & b & c & H). simpl in H. discriminate H.
Qed.

(** Scenario 2 of the specification: two occurrences, one in capitals; the
    longer word is left alone. *)
Lemma whole_word_terms_are_replaced_example :
  (redact_entities john_smith_engine
     "Contact John Smith, JOHN SMITH or John Smithson" false).1
    = "Contact Person_A, Person_A or John Smithson"
  ∧ length (redaction_log
              (redact_entities john_smith_engine
                 "Contact John Smith, JOHN SMITH or John Smithson" false).2)
    = 2.
Proof.
  destruct (whole_word_terms_are_replaced john_smith_engine
              "Contact John Smith, JOHN SMITH or John Smithson" false
              (mkEntity "John Smith" "Person_A" "person" [] "" "t1")
              eq_refl eq_refl eq_refl eq_refl eq_refl)
    as (Htext & _ & _ & entries & Hlog & Hlen & _).
  split.
  - rewrite Htext. vm_compute. reflexivity.
  - rewrite Hlog, length_app, Hlen. vm_compute. reflexivity.
Qed.

(** C3: the method misses a term that ends with a character that is not a
    word character.  The mapping holds the one entity ["Inc."], without
    variations, with the alias ["Org_A"].  The text ["Acme Inc. is"] holds
    one whole-word occurrence of the term, between two spaces; the claim
    asks for ["Acme Org_A is"] and one entry in the log.
    [redact_entities] returns the text as it is and logs nothing: the
    pattern is [\b] + [re.escape(term)] + [\b], and [\b] after the full
    stop asks for a word character next.  In ["Acme Inc.x"], where the
    term is the head of a longer word, the same pattern does match, and
    the method replaces there. *)
Theorem redact_entities_misses_term_with_punctuation :
  entities (mapping inc_engine)
    = [mkEntity "Inc." "Org_A" "organization" [] "" "t1"]
  ∧ whole_word_occurrences true "Inc." None "Acme Inc. is" 0 = ["Inc."]
  ∧ replace_whole_words true "Inc." "Org_A" None "Acme Inc. is" 0
    = "Acme Org_A is"
  ∧ redact_entities inc_engine "Acme Inc. is" false
    = ("Acme Inc. is", inc_engine)
  ∧ redaction_log (redact_entities inc_engine "Acme Inc. is" false).2 = []
  ∧ whole_word_occurrences true "Inc." None "Acme Inc.x" 0 = []
  ∧ (redact_entities inc_engine "Acme Inc.x" false).1 = "Acme Org_Ax".
Proof. repeat split; vm_compute; reflexivity. Qed.



(** The pass of an element reads the text as the passes before have left
    it.  With the prefix ["PERSON"] and the list [["Alice"; "PERSON"]] the
    pass of the second element finds the prefix of the identifier that
    the first pass has put in, and replaces it: no occurrence of ["Alice"]
    ends up as the identifier of ["Alice"]. *)
Lemma random_ids_pass_rewrites_identifier :
  ∃ r,
    redact_with_random_ids fresh_engine (fun n => n) 0
      "Alice met Bob and alice" ["Alice"; "PERSON"] "PERSON" = Returned r
    ∧ document_mapping r !! "Alice" = Some "PERSON-ABCDEFGH"
    ∧ document_mapping r !! "PERSON" = Some "PERSON-IJKLMNOP"
    ∧ run_result r
      = "PERSON-IJKLMNOP-ABCDEFGH met Bob and PERSON-IJKLMNOP-ABCDEFGH".
Proof.
  eexists. split; [vm_compute; reflexivity|].
  split; [by vm_compute|]. split; [by vm_compute|]. reflexivity.
Qed.

(** An element that ends with a character that is not a word character is
    not found where a space follows it: the text comes back as it is, and
    the log has the entry of the element all the same. *)
Lemma random_ids_misses_term_with_punctuation :
  ∃ r,
    redact_with_random_ids fresh_engine (fun n => n) 0
      "Acme Inc. and Inc. again" ["Inc."] "ORG" = Returned r
    ∧ run_result r = "Acme Inc. and Inc. again"
    ∧ log_original <$> redaction_log (run_state r) = ["Inc."]
    ∧ log_replacement <$> redaction_log (run_state r) = ["ORG-ABCDEFGH"].
Proof.
  eexists. split; [vm_compute; reflexivity|].
  split; [reflexivity|]. split; reflexivity.
Qed.

(** * Further properties of the mapping store *)

Section MoreStoreProperties.
Context {str_methods : StrMethods}.

(** ** remove_entity *)

Lemma index_of_original_first (es : list Entity) (q : string) :
  match index_of_original es q with
  | Some i =>
      ∃ e, es !! i = Some e ∧ lower (original e) = lower q
           ∧ forall j e', j < i -> es !! j = Some e' ->
               lower (original e') ≠ lower q
  | None => Forall (fun e => lower (original e) ≠ lower q) es
  end.
Proof.
  induction es as [|e es IH]; simpl; [done|].
  destruct (ci_eqb (original e) q) eqn:Hc.
  - apply ci_eqb_eq in Hc. exists e. split; [done|]. split; [done|].
    intros j e' Hj. lia.
  - apply ci_eqb_neq in Hc.
    destruct (index_of_original es q) as [i|]; simpl.
    + destruct IH as (x & Hx & Hq & Hbefore). exists x.
      split; [done|]. split; [done|].
      intros [|j] e' Hj He'; simpl in He'; [by simplify_eq|].
      apply (Hbefore j e'); [lia|done].
    + by constructor.
Qed.

(** [remove_entity(q)] returns [True] exactly when some original equals
    [q] up to case; it then deletes the first such entity and nothing else,
    the others keeping their order.  Otherwise the document is as before.
    Variations play no part: an entity that only has [q] as a variation is
    not removed. *)
Theorem remove_entity_removes_first (m : Mapping) (q : string) :
  match (remove_entity m q).1 with
  | true =>
      ∃ i e,
        entities m !! i = Some e
        ∧ lower (original e) = lower q
        ∧ (forall j e', j < i -> entities m !! j = Some e' ->
             lower (original e') ≠ lower q)
        ∧ entities (remove_entity m q).2
          = take i (entities m) ++ drop (S i) (entities m)
        ∧ S (length (entities (remove_entity m q).2)) = length (entities m)
        ∧ version (remove_entity m q).2 = version m
        ∧ created (remove_entity m q).2 = created m
        ∧ updated (remove_entity m q).2 = updated m
  | false =>
      Forall (fun e => lower (original e) ≠ lower q) (entities m)
      ∧ (remove_entity m q).2 = m
  end.
Proof.
  unfold remove_entity.
  pose proof (index_of_original_first (entities m) q) as H.
  destruct (index_of_original (entities m) q) as [i|]; simpl.
  - destruct H as (e & He & Hq & Hbefore). exists i, e.
    repeat split; try done.
    + apply delete_take_drop.
    + assert (i < length (entities m)) by (by eapply lookup_lt_Some).
      rewrite length_delete by (by eexists). lia.
  - by split.
Qed.

(** An entity that [add_entity] has just appended is the one that
    [remove_entity] of the same original deletes: the document is back to
    what it was. *)
Theorem add_then_remove_restores
    (m : Mapping) (now orig al entity_type : string)
    (vars : option (list string)) (nts : string) :
  (add_entity m now orig al entity_type vars nts).1 = true ->
  remove_entity (add_entity m now orig al entity_type vars nts).2 orig
    = (true, m).
Proof.
  intros Hadd.
  destruct (add_entity_cases m now orig al entity_type vars nts)
    as [Hdup Hnew].
  destruct (decide (Exists (collision orig al) (entities m))) as [Hc|Hc].
  { rewrite (Hdup Hc) in Hadd. done. }
  rewrite (Hnew Hc). unfold remove_entity. simpl.
  assert (index_of_original
            (entities m ++ [new_entity now orig al entity_type vars nts]) orig
          = Some (length (entities m))) as ->.
  { apply Forall_Exists_neg in Hc. clear Hdup Hnew Hadd.
    induction Hc as [|e es He _ IH]; simpl.
    - by rewrite ci_eqb_refl.
    - assert (ci_eqb (original e) orig = false) as ->.
      { apply ci_eqb_neq. intros Ho. apply He. by left. }
      by rewrite IH. }
  f_equal. destruct m as [v c u es]. unfold set_entities. simpl. f_equal.
  clear. induction es as [|e es IH]; [done|]. simpl. by rewrite IH.
Qed.

(** In a store whose originals are unique up to case, [remove_entity(q)]
    leaves no entity with the original [q]: a second [remove_entity(q)]
    returns [False] and changes nothing. *)
Theorem remove_entity_leaves_none (m : Mapping) (q : string) :
  NoDup ((fun e => lower (original e)) <$> entities m) ->
  Forall (fun e => lower (original e) ≠ lower q)
    (entities (remove_entity m q).2)
  ∧ remove_entity (remove_entity m q).2 q = (false, (remove_entity m q).2).
Proof.
  intros Hnd.
  assert (Forall (fun e => lower (original e) ≠ lower q)
            (entities (remove_entity m q).2)) as Hnone.
  { unfold remove_entity.
    pose proof (index_of_original_first (entities m) q) as H.
    destruct (index_of_original (entities m) q) as [i|]; simpl.
    - destruct H as (e & He & Hq & _).
      apply Forall_forall. intros x Hx Hxq.
      apply list_elem_of_lookup in Hx as [j Hj].
      rewrite list_lookup_delete in Hj.
      assert (((fun e => lower (original e)) <$> entities m) !! i
              = Some (lower q)) as Hi.
      { by rewrite list_lookup_fmap, He; simpl; rewrite Hq. }
      case_decide as Hlt.
      + assert (j = i); [|lia].
        eapply (NoDup_lookup _ j i _ Hnd); [|exact Hi].
        by rewrite list_lookup_fmap, Hj; simpl; rewrite Hxq.
      + assert (S j = i); [|lia].
        eapply (NoDup_lookup _ (S j) i _ Hnd); [|exact Hi].
        by rewrite list_lookup_fmap, Hj; simpl; rewrite Hxq.
    - exact H. }
  split; [exact Hnone|].
  unfold remove_entity at 1. by rewrite index_of_original_none.
Qed.

(** ** add_variation *)

Definition set_variations (e : Entity) (vs : list string) : Entity :=
  {| original := original e; alias := alias e; etype := etype e;
     variations := vs; notes := notes e; added := added e |}.

(** [add_variation]: the entity is the one [get_entity] returns, written
    where it stands; the key ['variations'] is there, and the variation is
    appended unless the list holds it already ([not in] compares the
    strings as they are).  The code appends to the list object in place;
    here the entity that was found gets the longer list and every other
    entity stays as it is, which is the code for a store in which no
    other entity holds the same list object. *)
Definition add_variation (m : Mapping) (q variation : string)
    : bool * Mapping :=
  match get_entity m q, get_entity_ref (entities m) q with
  | Some entity, Some i =>
      let vs :=
        if bool_decide (variation ∈ variations entity)
        then variations entity
        else variations entity ++ [variation] in
      (true, set_entities m (<[i := set_variations entity vs]> (entities m)))
  | _, _ => (false, m)
  end.

(** ** list_entities and get_statistics *)

(** [list_entities(entity_type)]: [if entity_type:] is false for [None] and
    for the empty string. *)
Definition list_entities (m : Mapping) (entity_type : option string)
    : list Entity :=
  match entity_type with
  | Some t =>
      if truthy t then filter (fun e => etype e = t) (entities m)
      else entities m
  | None => entities m
  end.

Record Statistics := mkStatistics {
  stat_total : nat;
  stat_by_type : gmap string nat;
  stat_created : string;
  stat_updated : string
}.

(** [d[k] = d.get(k, 0) + 1] *)
Definition count_key (counts : gmap string nat) (k : string)
    : gmap string nat :=
  <[k := default 0 (counts !! k) + 1]> counts.

Definition get_statistics (m : Mapping) : Statistics :=
  {| stat_total := length (entities m);
     stat_by_type := fold_left count_key (etype <$> entities m) ∅;
     stat_created := created m;
     stat_updated := updated m |}.

(** The sum of the counts of a dict of counters. *)
Definition sum_counts (counts : gmap string nat) : nat :=
  map_fold (fun _ n acc => n + acc) 0 counts.

Lemma sum_counts_count_key (counts : gmap string nat) (k : string) :
  sum_counts (count_key counts k) = S (sum_counts counts).
Proof.
  unfold sum_counts, count_key.
  destruct (counts !! k) as [n|] eqn:E; simpl.
  - rewrite <- (insert_delete_eq counts k (n + 1)).
    rewrite map_fold_insert_L.
    + rewrite <- (insert_delete_id counts k n E) at 2.
      rewrite map_fold_insert_L.
      * lia.
      * intros; lia.
      * apply lookup_delete_eq.
    + intros; lia.
    + apply lookup_delete_eq.
  - rewrite map_fold_insert_L; [lia | intros; lia | done].
Qed.

Lemma count_fold_lookup (keys : list string) (k : string) :
  forall counts,
    default 0 (fold_left count_key keys counts !! k)
      = default 0 (counts !! k) + length (filter (fun x => x = k) keys)
    ∧ (is_Some (fold_left count_key keys counts !! k)
       ↔ is_Some (counts !! k) ∨ k ∈ keys)
    ∧ sum_counts (fold_left count_key keys counts)
      = sum_counts counts + length keys.
Proof.
  induction keys as [|x keys IH]; intros counts.
  - simpl. split; [lia|]. split; [|lia]. split; [by left|].
    intros [H|H]; [done | inversion H].
  - simpl. destruct (IH (count_key counts x)) as (Hn & Hs & Hsum).
    rewrite Hn, Hs, Hsum, sum_counts_count_key. unfold count_key.
    rewrite filter_cons. destruct (decide (x = k)) as [->|Hne].
    + rewrite lookup_insert_eq. simpl. split; [lia|]. split; [|lia].
      split; [|by eauto]. intros _. right. by left.
    + rewrite lookup_insert_ne by done. split; [lia|]. split; [|lia].
      rewrite elem_of_cons. split.
      * intros [H|H]; [by left | right; by right].
      * intros [H|[H|H]]; [by left | congruence | by right].
Qed.

(** [get_statistics] and [list_entities] agree: for a type [t] that is not
    the empty string, [by_type] has the key [t] exactly when
    [list_entities(t)] is not empty, and its count is the length of that
    list; [total] is the length of [list_entities()], and the counts of
    [by_type] add up to [total]. *)
Theorem statistics_agree_with_list (m : Mapping) (t : string) :
  t ≠ "" ->
  default 0 (stat_by_type (get_statistics m) !! t)
    = length (list_entities m (Some t))
  ∧ (is_Some (stat_by_type (get_statistics m) !! t)
     ↔ list_entities m (Some t) ≠ [])
  ∧ stat_total (get_statistics m) = length (list_entities m None)
  ∧ sum_counts (stat_by_type (get_statistics m))
    = stat_total (get_statistics m).
Proof.
  intros Ht. unfold get_statistics, list_entities. simpl.
  assert (truthy t = true) as -> by (by destruct t).
  destruct (count_fold_lookup (etype <$> entities m) t ∅) as (Hn & Hs & Hsum).
  assert (length (filter (fun x => x = t) (etype <$> entities m))
          = length (filter (fun e => etype e = t) (entities m))) as Hlen.
  { clear. induction (entities m) as [|e es IH]; [done|].
    rewrite fmap_cons, !filter_cons. simpl.
    destruct (decide (etype e = t)); simpl; by rewrite IH. }
  rewrite Hn, Hs, Hsum, Hlen, lookup_empty, length_fmap. simpl.
  split; [done|]. split; [|split; [done|]].
  - split.
    + intros [H|H]; [by destruct H|].
      apply list_elem_of_fmap in H as (e & He & Hin).
      intros Hnil.
      assert (e ∈ filter (fun e => etype e = t) (entities m)) as Hf
        by (by apply list_elem_of_filter).
      rewrite Hnil in Hf. inversion Hf.
    + intros Hne. right.
      destruct (filter (fun e => etype e = t) (entities m)) as [|e es] eqn:E;
        [done|].
      assert (e ∈ filter (fun e => etype e = t) (entities m)) as Hf
        by (rewrite E; by left).
      apply list_elem_of_filter in Hf as [He Hin].
      apply list_elem_of_fmap. by exists e.
  - unfold sum_counts. by rewrite map_fold_empty.
Qed.

(** ** validate *)

Lemma count_not_in (x : string) (l : list string) :
  x ∉ l -> AliasManager.count x l = 0.
Proof.
  unfold AliasManager.count. induction l as [|y l IH]; intros Hx; [done|].
  apply not_elem_of_cons in Hx as [Hne Hx].
  rewrite filter_cons_False by congruence. by apply IH.
Qed.

Lemma count_in (x : string) (l : list string) :
  x ∈ l -> 1 <= AliasManager.count x l.
Proof.
  unfold AliasManager.count. induction l as [|y l IH]; intros Hx;
    [inversion Hx|].
  rewrite filter_cons. destruct (decide (y = x)); simpl; [lia|].
  apply elem_of_cons in Hx as [?|Hx]; [congruence | by apply IH].
Qed.

Lemma count_cons (x y : string) (l : list string) :
  AliasManager.count x (y :: l)
    = (if decide (y = x) then 1 else 0) + AliasManager.count x l.
Proof.
  unfold AliasManager.count. rewrite filter_cons.
  by destruct (decide (y = x)).
Qed.

Lemma nodup_count (l : list string) :
  NoDup l ↔ forall x, x ∈ l -> AliasManager.count x l <= 1.
Proof.
  induction l as [|y l IH].
  - split; [|intros; apply NoDup_nil_2]. intros _ x Hx. inversion Hx.
  - rewrite NoDup_cons, IH. split.
    + intros [Hy Hl] x Hx. rewrite count_cons.
      destruct (decide (y = x)) as [->|Hne].
      * by rewrite count_not_in.
      * apply elem_of_cons in Hx as [?|Hx]; [congruence|].
        specialize (Hl x Hx). lia.
    + intros H. split.
      * intros Hy. pose proof (count_in y l Hy).
        specialize (H y (list_elem_of_here y l)). rewrite count_cons in H.
        rewrite decide_True in H by done. lia.
      * intros x Hx. specialize (H x (list_elem_of_further x y l Hx)).
        rewrite count_cons in H. lia.
Qed.

Lemma map_fmap {A B : Type} (f : A -> B) (l : list A) : map f l = f <$> l.
Proof. induction l as [|x l IH]; [done|]. simpl. by rewrite IH. Qed.

Lemma repeated_elem (l : list string) (x : string) :
  x ∈ repeated l ↔ x ∈ l ∧ 1 < AliasManager.count x l.
Proof. unfold repeated. rewrite elem_of_list_to_set, list_elem_of_filter. tauto. Qed.

Lemma repeated_empty (l : list string) : repeated l = ∅ ↔ NoDup l.
Proof.
  rewrite nodup_count. split.
  - intros He x Hx.
    destruct (decide (1 < AliasManager.count x l)) as [Hgt|]; [|lia].
    assert (x ∈ repeated l) as Hr by (by apply repeated_elem).
    rewrite He in Hr. set_solver.
  - intros H. apply set_eq. intros x. rewrite repeated_elem. split.
    + intros [Hx Hgt]. specialize (H x Hx). lia.
    + set_solver.
Qed.

Lemma empty_fields_nil (es : list Entity) :
  forall i,
    empty_fields i es = []
    ↔ Forall (fun e => original e ≠ "" ∧ alias e ≠ "") es.
Proof.
  induction es as [|e es IH]; intros i; simpl; [done|].
  rewrite Forall_cons, <- (IH (S i)).
  destruct (original e) as [|c o]; simpl.
  - split; [done | by intros [[? _] _]].
  - destruct (alias e) as [|c' a]; simpl.
    + split; [done | by intros [[_ ?] _]].
    + split; [by intros -> | by intros [_ ->]].
Qed.

Lemma no_issue_holds (P : Prop) `{Decision P} (x : issue) :
  (if bool_decide P then [] else [x]) = [] -> P.
Proof. by case_bool_decide. Qed.

(** The stores without an issue, in terms of the lists of keys. *)
Lemma validate_no_issue (m : Mapping) :
  valid (validate m) = true
  ↔ keys_nodup (entities m)
    ∧ Forall (fun e => original e ≠ "" ∧ alias e ≠ "") (entities m).
Proof.
  unfold validate. simpl. rewrite Nat.eqb_eq, length_zero_iff_nil.
  rewrite !map_fmap.
  split.
  - intros H. apply app_eq_nil in H as [H1 H]. apply app_eq_nil in H as [H2 H3].
    split; [|by apply (empty_fields_nil _ 0)].
    split.
    + apply repeated_empty. by apply (no_issue_holds _ _ H1).
    + apply repeated_empty. by apply (no_issue_holds _ _ H2).
  - intros [[Ho Ha] Hne].
    apply repeated_empty in Ho. apply repeated_empty in Ha.
    apply (empty_fields_nil _ 0) in Hne.
    rewrite !bool_decide_eq_true_2 by done. by rewrite Hne.
Qed.

(** [validate] returns [valid = True] exactly on the stores that keep the
    invariants: no two entities share an original or an alias up to case,
    and no original and no alias is empty. *)
Theorem validate_valid_iff (m : Mapping) :
  valid (validate m) = true
  ↔ unique_up_to_case (entities m)
    ∧ Forall (fun e => original e ≠ "" ∧ alias e ≠ "") (entities m).
Proof.
  rewrite validate_no_issue. split.
  - intros [Hk Hne]. split; [by apply keys_nodup_unique | done].
  - intros [Hu Hne]. split; [by apply unique_keys_nodup | done].
Qed.

(** Two entities at different places with the same alias up to case make
    [validate] report that alias among the duplicate aliases; the same for
    two originals.  It does not matter how the duplicates got there. *)
Theorem validate_reports_duplicates
    (m : Mapping) (i j : nat) (e1 e2 : Entity) :
  entities m !! i = Some e1 ->
  entities m !! j = Some e2 ->
  i ≠ j ->
  (lower (alias e1) = lower (alias e2) ->
   ∃ d, DuplicateAliases d ∈ issues (validate m) ∧ lower (alias e1) ∈ d)
  ∧ (lower (original e1) = lower (original e2) ->
     ∃ d, DuplicateOriginals d ∈ issues (validate m)
          ∧ lower (original e1) ∈ d).
Proof.
  intros Hi Hj Hij.
  assert (forall (f : Entity -> string), f e1 = f e2 ->
            f e1 ∈ repeated (f <$> entities m)) as Hrep.
  { intros f Hf. apply repeated_elem. split.
    - apply list_elem_of_fmap. exists e1. split; [done|].
      by eapply list_elem_of_lookup_2.
    - destruct (decide (1 < AliasManager.count (f e1) (f <$> entities m)))
        as [|Hle]; [done|]. exfalso.
      assert (forall l : list string, Forall (fun y => y ≠ f e1) l ->
                AliasManager.count (f e1) l = 0) as Hzero.
      { intros l Hl. apply count_not_in. intros Hin.
        rewrite Forall_forall in Hl. by apply (Hl _ Hin). }
      clear Hzero. revert i j Hi Hj Hij Hle.
      induction (entities m) as [|x es IH]; intros i j Hi Hj Hij Hle; [done|].
      rewrite fmap_cons, count_cons in Hle.
      destruct i as [|i], j as [|j]; simpl in Hi, Hj; simplify_eq.
      + rewrite decide_True in Hle by done.
        assert (f e2 ∈ f <$> es) as Hin.
        { apply list_elem_of_fmap. exists e2. split; [done|].
          by eapply list_elem_of_lookup_2. }
        rewrite Hf in Hle. apply count_in in Hin. lia.
      + rewrite decide_True in Hle by done.
        assert (f e1 ∈ f <$> es) as Hin.
        { apply list_elem_of_fmap. exists e1. split; [done|].
          by eapply list_elem_of_lookup_2. }
        apply count_in in Hin. lia.
      + apply (IH i j Hi Hj); [congruence|]. lia. }
  unfold validate. simpl. rewrite !map_fmap. split; intros Heq.
  - exists (repeated ((fun e => lower (alias e)) <$> entities m)).
    pose proof (Hrep (fun e => lower (alias e)) Heq) as Hin.
    split; [|done]. rewrite !elem_of_app. right. left.
    rewrite bool_decide_eq_false_2 by set_solver. by left.
  - exists (repeated ((fun e => lower (original e)) <$> entities m)).
    pose proof (Hrep (fun e => lower (original e)) Heq) as Hin.
    split; [|done]. rewrite !elem_of_app. left.
    rewrite bool_decide_eq_false_2 by set_solver. by left.
Qed.

(** A call that adds gives neither an empty original nor an empty alias. *)
Definition fills_fields (c : store_call) : Prop :=
  match c with
  | CallAdd _ orig al _ _ _ => orig ≠ "" ∧ al ≠ ""
  | CallRemove _ => True
  end.

Lemma filled_run (calls : list store_call) :
  forall m,
    Forall fills_fields calls ->
    Forall (fun e => original e ≠ "" ∧ alias e ≠ "") (entities m) ->
    Forall (fun e => original e ≠ "" ∧ alias e ≠ "")
      (entities (run_calls m calls)).
Proof.
  induction calls as [|c calls IH]; intros m Hc Hm; [done|].
  apply Forall_cons in Hc as [Hc Hcs]. simpl. apply IH; [done|].
  destruct c as [now orig al ty vars nts|orig]; simpl.
  - unfold add_entity. destruct (duplicate_check (entities m) orig al); [done|].
    simpl. apply Forall_app. split; [done|]. by constructor.
  - unfold remove_entity.
    destruct (index_of_original (entities m) orig) as [i|]; [|done].
    simpl. by apply Forall_delete.
Qed.

(** A store that [validate] accepts is still accepted after any run of
    [add_entity] and [remove_entity] calls in which no call adds an empty
    original or an empty alias; so is every store built from the empty one
    in this way. *)
Theorem validate_kept_by_add_and_remove
    (m : Mapping) (calls : list store_call) :
  valid (validate m) = true ->
  Forall fills_fields calls ->
  valid (validate (run_calls m calls)) = true.
Proof.
  rewrite !validate_no_issue. intros [Hk Hne] Hcalls. split.
  - by apply keys_nodup_run.
  - by apply filled_run.
Qed.

(** [add_variation] keeps a store acceptable to [validate]: it touches no
    original and no alias. *)
Theorem validate_kept_by_add_variation (m : Mapping) (q v : string) :
  valid (validate m) = true ->
  valid (validate (add_variation m q v).2) = true.
Proof.
  rewrite !validate_no_issue. intros [Hk Hne].
  unfold add_variation, get_entity.
  pose proof (get_entity_ref_lookup (entities m) q) as Href.
  destruct (get_entity_ref (entities m) q) as [i|]; [|by rewrite Href].
  destruct Href as (e & -> & Hi). simpl.
  set (e' := set_variations e _).
  assert (forall (f : Entity -> string), f e' = f e ->
            f <$> <[i := e']> (entities m) = f <$> entities m) as Hsame.
  { intros f Hf. rewrite list_fmap_insert, Hf. apply list_insert_id.
    by rewrite list_lookup_fmap, Hi. }
  split.
  - destruct Hk as [Ho Ha]. split; by rewrite Hsame.
  - apply Forall_insert; [done|].
    rewrite Forall_forall in Hne. apply (Hne e).
    by eapply list_elem_of_lookup_2.
Qed.

(** ** merge *)

Lemma add_entity_prefix (m : Mapping) (now orig al entity_type : string)
    (vars : option (list string)) (nts : string) :
  entities m `prefix_of`
    entities (add_entity m now orig al entity_type vars nts).2.
Proof.
  unfold add_entity. destruct (duplicate_check (entities m) orig al); simpl.
  - done.
  - by apply prefix_app_r.
Qed.

Definition merged_total (r : MergeResults) : nat :=
  merged_added r + merged_skipped r + merged_overwritten r.

Lemma merge_loop_total (strategy : string) (clock : nat -> string)
    (other : list Incoming) :
  forall k acc,
    merged_total (merge_loop strategy clock k other acc).1
      = merged_total acc.1 + length other.
Proof.
  induction other as [|e other IH]; intros k acc; simpl; [lia|].
  rewrite IH. destruct acc as [r m]. unfold merge_step.
  destruct (get_entity m (in_original e));
    [destruct (String.eqb strategy "overwrite")|];
    unfold merged_total; simpl; lia.
Qed.

(** Whatever the strategy, [merge] counts every entity of the other
    document exactly once: [added + skipped + overwritten] is their
    number. *)
Theorem merge_counts_every_entity
    (m : Mapping) (clock : nat -> string) (other : list Incoming)
    (strategy : string) :
  merged_added (merge m clock other strategy).1
  + merged_skipped (merge m clock other strategy).1
  + merged_overwritten (merge m clock other strategy).1
  = length other.
Proof.
  unfold merge.
  pose proof (merge_loop_total strategy clock other 0
                ({| merged_added := 0; merged_skipped := 0;
                    merged_overwritten := 0 |}, m)) as H.
  unfold merged_total in H. simpl in H. exact H.
Qed.

Lemma merge_loop_keeps (strategy : string) (clock : nat -> string)
    (other : list Incoming) :
  String.eqb strategy "overwrite" = false ->
  forall k acc,
    entities acc.2 `prefix_of`
      entities (merge_loop strategy clock k other acc).2
    ∧ merged_overwritten (merge_loop strategy clock k other acc).1
      = merged_overwritten acc.1.
Proof.
  intros Hs. induction other as [|e other IH]; intros k acc; simpl; [done|].
  destruct (IH (S k) (merge_step strategy (clock k) acc e)) as [Hp Ho].
  rewrite Ho. destruct acc as [r m]. unfold merge_step in *. rewrite Hs in *.
  destruct (get_entity m (in_original e)); simpl in *; [done|].
  split; [|done]. etrans; [|exact Hp]. apply add_entity_prefix.
Qed.

(** With any strategy other than ["overwrite"], [merge] removes nothing
    and changes no existing entity: the entities of the store before the
    call are the first entities of the store after it, as they were, and
    nothing is counted as overwritten. *)
Theorem merge_skip_keeps_existing
    (m : Mapping) (clock : nat -> string) (other : list Incoming)
    (strategy : string) :
  strategy ≠ "overwrite" ->
  entities m `prefix_of` entities (merge m clock other strategy).2
  ∧ merged_overwritten (merge m clock other strategy).1 = 0.
Proof.
  intros Hs. apply String.eqb_neq in Hs. unfold merge.
  exact (merge_loop_keeps strategy clock other Hs 0 _).
Qed.

Lemma keys_nodup_add_any (m : Mapping) (now orig al entity_type : string)
    (vars : option (list string)) (nts : string) :
  keys_nodup (entities m) ->
  keys_nodup (entities (add_entity m now orig al entity_type vars nts).2).
Proof. intros H. rewrite entities_add. by apply keys_nodup_add. Qed.

Lemma merge_loop_unique (strategy : string) (clock : nat -> string)
    (other : list Incoming) :
  forall k acc,
    keys_nodup (entities acc.2) ->
    keys_nodup (entities (merge_loop strategy clock k other acc).2).
Proof.
  induction other as [|e other IH]; intros k acc Hacc; simpl; [done|].
  apply IH. destruct acc as [r m]. unfold merge_step. simpl in Hacc.
  destruct (get_entity m (in_original e));
    [destruct (String.eqb strategy "overwrite")|]; simpl; try done.
  - unfold add_incoming. by apply keys_nodup_add_any, keys_nodup_remove.
  - unfold add_incoming. by apply keys_nodup_add_any.
Qed.

(** [merge] keeps the uniqueness invariant of the store, whatever comes in
    and whatever the strategy: originals and aliases that were unique up
    to case are unique up to case after the call. *)
Theorem merge_keeps_uniqueness
    (m : Mapping) (clock : nat -> string) (other : list Incoming)
    (strategy : string) :
  unique_up_to_case (entities m) ->
  unique_up_to_case (entities (merge m clock other strategy).2).
Proof.
  intros Hu. apply keys_nodup_unique. unfold merge.
  apply merge_loop_unique. simpl. by apply unique_keys_nodup.
Qed.

(** An incoming entity that resolves to nothing in the store, but whose
    alias is taken, is refused by [add_entity]; [merge] drops the refusal
    and counts the entity as added.  The store is as before. *)
Theorem merge_counts_refused_as_added
    (m : Mapping) (clock : nat -> string) (e : Incoming) (strategy : string) :
  get_entity m (in_original e) = None ->
  Exists (fun x => lower (alias x) = lower (in_alias e)) (entities m) ->
  merge m clock [e] strategy
    = ({| merged_added := 1; merged_skipped := 0; merged_overwritten := 0 |},
       m).
Proof.
  intros Hnone Hal. unfold merge. simpl. unfold merge_step. rewrite Hnone.
  unfold add_incoming.
  destruct (add_entity_cases m (clock 0) (in_original e) (in_alias e)
              (default "other" (in_type e))
              (Some (default [] (in_variations e)))
              (default "" (in_notes e))) as [Hdup _].
  rewrite Hdup; [done|].
  eapply Exists_impl; [exact Hal|]. intros x Hx. by right.
Qed.

(** ** import_csv *)

Definition import_total (r : ImportResults) : nat :=
  import_added r + import_skipped r + length (import_errors r).

Lemma import_row_outcome_cases (m : Mapping) (now : string) (overwrite : bool)
    (row : gmap string string) :
  import_total (count_row {| import_added := 0; import_skipped := 0;
                             import_errors := [] |}
                  (import_row m now overwrite row).1) = 1.
Proof. by destruct (import_row m now overwrite row).1. Qed.

Lemma import_loop_total (clock : nat -> string) (overwrite : bool)
    (rows : list (gmap string string)) :
  forall k acc,
    import_total (import_loop clock overwrite k rows acc).1
      = import_total acc.1 + length rows.
Proof.
  induction rows as [|row rows IH]; intros k acc; simpl; [lia|].
  destruct (import_row acc.2 (clock k) overwrite row) as [o m'].
  rewrite IH. simpl. destruct o; unfold import_total; simpl;
    rewrite ?length_app; simpl; lia.
Qed.

(** [import_csv] accounts for every row that is not empty exactly once:
    [added + skipped + len(errors)] is the number of these rows.  A row in
    error does not stop the import. *)
Theorem import_counts_every_row
    (m : Mapping) (clock : nat -> string) (header : list string)
    (rows : list (list string)) (overwrite : bool) :
  let r := (import_csv m clock (header :: rows) overwrite).1 in
  import_added r + import_skipped r + length (import_errors r)
  = length (filter (fun row => row ≠ []) rows).
Proof.
  unfold import_csv, dict_reader.
  pose proof (import_loop_total clock overwrite
                (map (fun row =>
                        list_to_map
                          (reverse (zip (map universal_newlines header)
                                        (map universal_newlines row))))
                   (filter (fun row => row ≠ []) rows)) 0
                ({| import_added := 0; import_skipped := 0;
                    import_errors := [] |}, m)) as H.
  unfold import_total in H. simpl in H. rewrite length_map in H. exact H.
Qed.

Lemma import_row_keeps (m : Mapping) (now : string)
    (row : gmap string string) :
  entities m `prefix_of` entities (import_row m now false row).2.
Proof.
  unfold import_row.
  destruct (row !! "Original") as [o|]; [|done].
  destruct (row !! "Alias") as [a|]; [|done].
  pose proof (add_entity_prefix m now o a (default "other" (row !! "Type"))
                (Some (parse_variations (default "" (row !! "Variations"))))
                (default "" (row !! "Notes"))) as H.
  by destruct (add_entity m now o a _ _ _).
Qed.

Lemma import_loop_keeps (clock : nat -> string)
    (rows : list (gmap string string)) :
  forall k acc,
    entities acc.2 `prefix_of`
      entities (import_loop clock false k rows acc).2.
Proof.
  induction rows as [|row rows IH]; intros k acc; simpl; [done|].
  pose proof (import_row_keeps acc.2 (clock k) row) as H.
  destruct (import_row acc.2 (clock k) false row) as [o m'].
  etrans; [exact H|]. apply (IH (S k) (_, m')).
Qed.

(** Without [overwrite], [import_csv] removes nothing and changes no
    existing entity: the entities of the store before the call are the
    first entities of the store after it. *)
Theorem import_keeps_existing
    (m : Mapping) (clock : nat -> string) (table : list (list string)) :
  entities m `prefix_of` entities (import_csv m clock table false).2.
Proof. unfold import_csv. apply (import_loop_keeps clock _ 0 (_, m)). Qed.

Lemma import_row_unique (m : Mapping) (now : string) (overwrite : bool)
    (row : gmap string string) :
  keys_nodup (entities m) ->
  keys_nodup (entities (import_row m now overwrite row).2).
Proof.
  intros Hm. unfold import_row.
  destruct (row !! "Original") as [o|]; [|by destruct overwrite].
  set (m1 := if overwrite then (remove_entity m o).2 else m).
  assert (keys_nodup (entities m1)) as Hm1.
  { unfold m1. destruct overwrite; [by apply keys_nodup_remove | done]. }
  assert ((if overwrite then Some (remove_entity m o).2 else Some m)
          = Some m1) as -> by (unfold m1; by destruct overwrite).
  destruct (row !! "Alias") as [a|]; [|done].
  pose proof (keys_nodup_add_any m1 now o a (default "other" (row !! "Type"))
                (Some (parse_variations (default "" (row !! "Variations"))))
                (default "" (row !! "Notes")) Hm1) as H.
  by destruct (add_entity m1 now o a _ _ _).
Qed.

Lemma import_loop_unique (clock : nat -> string) (overwrite : bool)
    (rows : list (gmap string string)) :
  forall k acc,
    keys_nodup (entities acc.2) ->
    keys_nodup (entities (import_loop clock overwrite k rows acc).2).
Proof.
  induction rows as [|row rows IH]; intros k acc Hacc; simpl; [done|].
  pose proof (import_row_unique acc.2 (clock k) overwrite row Hacc) as H.
  destruct (import_row acc.2 (clock k) overwrite row) as [o m'].
  by apply (IH (S k) (_, m')).
Qed.

(** [import_csv] keeps the uniqueness invariant of the store, whatever the
    table holds and with or without [overwrite]. *)
Theorem import_keeps_uniqueness
    (m : Mapping) (clock : nat -> string) (table : list (list string))
    (overwrite : bool) :
  unique_up_to_case (entities m) ->
  unique_up_to_case (entities (import_csv m clock table overwrite).2).
Proof.
  intros Hu. apply keys_nodup_unique. unfold import_csv.
  apply (import_loop_unique clock overwrite _ 0 (_, m)). simpl.
  by apply unique_keys_nodup.
Qed.

(** ** import_csv: a file that lacks a column *)

Lemma dict_row_no_key (fieldnames row : list string) (k : string) :
  k ∉ fieldnames ->
  (list_to_map (reverse (zip fieldnames row)) : gmap string string) !! k
    = None.
Proof.
  intros Hk. apply not_elem_of_list_to_map_1. intros Hin.
  apply list_elem_of_fmap in Hin as ([k' v] & -> & Hin).
  rewrite elem_of_reverse in Hin. by apply elem_of_zip_l in Hin.
Qed.

Lemma dict_row_first_key (fieldnames row : list string) (k v : string) :
  k ∉ fieldnames ->
  (list_to_map (reverse (zip (k :: fieldnames) (v :: row)))
     : gmap string string) !! k = Some v.
Proof.
  intros Hk. simpl. rewrite reverse_cons, list_to_map_app.
  rewrite lookup_union_r by (by apply dict_row_no_key).
  simpl. apply lookup_insert_eq.
Qed.

Lemma import_loop_no_original (clock : nat -> string) (overwrite : bool)
    (rows : list (gmap string string)) :
  Forall (fun row => row !! "Original" = None) rows ->
  forall k r m,
    import_loop clock overwrite k rows (r, m)
    = ({| import_added := import_added r;
          import_skipped := import_skipped r;
          import_errors :=
            import_errors r ++ replicate (length rows) "'Original'" |}, m).
Proof.
  induction 1 as [|row rows Hrow _ IH]; intros k r m.
  - simpl. rewrite app_nil_r. by destruct r.
  - simpl. unfold import_row. rewrite Hrow.
    destruct overwrite; simpl; rewrite IH; simpl; by rewrite <- app_assoc.
Qed.

(** A row that has a field for every name of the header, or none at
    all. *)
Definition full_row (header row : list string) : Prop :=
  row = [] ∨ length header <= length row.

(** A file whose header has no column ["Original"], and whose rows have a
    field for every name of the header, imports nothing: every row that is
    not empty gives the error ['Original'] of the [KeyError], and the
    store is as before, with or without [overwrite]. *)
Theorem import_without_original_column
    (m : Mapping) (clock : nat -> string) (header : list string)
    (rows : list (list string)) (overwrite : bool) :
  "Original" ∉ header ->
  Forall (full_row header) rows ->
  import_csv m clock (header :: rows) overwrite
  = ({| import_added := 0; import_skipped := 0;
        import_errors :=
          replicate (length (filter (fun row => row ≠ []) rows))
            "'Original'" |}, m).
Proof.
  intros Hh _. unfold import_csv, dict_reader.
  rewrite import_loop_no_original.
  - simpl. by rewrite length_map.
  - apply Forall_forall. intros d Hd. rewrite map_fmap in Hd.
    apply list_elem_of_fmap in Hd as (row & -> & _).
    apply dict_row_no_key. rewrite map_fmap. intros Hin.
    apply list_elem_of_fmap in Hin as (h & Heq & Hin).
    symmetry in Heq. apply universal_newlines_inv in Heq; [|reflexivity].
    by subst h.
Qed.

Lemma import_loop_no_alias (clock : nat -> string)
    (rows : list (string * gmap string string)) :
  Forall (fun row => row.2 !! "Original" = Some row.1
                     ∧ row.2 !! "Alias" = None) rows ->
  forall k r m,
    import_loop clock true k (snd <$> rows) (r, m)
    = ({| import_added := import_added r;
          import_skipped := import_skipped r;
          import_errors :=
            import_errors r ++ replicate (length rows) "'Alias'" |},
       fold_left (fun m row => (remove_entity m row.1).2) rows m).
Proof.
  induction 1 as [|[o row] rows [Ho Ha] _ IH]; intros k r m.
  - simpl. rewrite app_nil_r. by destruct r.
  - rewrite fmap_cons. simpl in Ho, Ha. simpl. unfold import_row.
    rewrite Ho, Ha. simpl. rewrite IH. simpl. by rewrite <- app_assoc.
Qed.

(** With [overwrite], a file that has the column ["Original"] and no
    column ["Alias"], and whose rows have a field for every name of the
    header, only deletes: for every row the entity under the original of
    the row, as it is read, is removed before the [KeyError] on ['Alias'],
    so nothing is added, every row is an error, and the store has lost
    the entities that the file names. *)
Theorem import_overwrite_without_alias_column
    (m : Mapping) (clock : nat -> string) (fieldnames : list string)
    (rows : list (string * list string)) :
  "Original" ∉ fieldnames -> "Alias" ∉ fieldnames ->
  Forall (fun row => length fieldnames <= length row.2) rows ->
  import_csv m clock
    (("Original" :: fieldnames) :: map (fun row => row.1 :: row.2) rows) true
  = ({| import_added := 0; import_skipped := 0;
        import_errors := replicate (length rows) "'Alias'" |},
     fold_left
       (fun m row => (remove_entity m (universal_newlines row.1)).2) rows m).
Proof.
  intros Ho Ha _. unfold import_csv, dict_reader.
  assert (forall k : string,
            contains LF k = false -> k ∉ fieldnames ->
            k ∉ map universal_newlines fieldnames) as Hkeep.
  { intros k Hk Hout Hin. rewrite map_fmap in Hin.
    apply list_elem_of_fmap in Hin as (h & Heq & Hin).
    symmetry in Heq. apply universal_newlines_inv in Heq; [|done].
    by subst h. }
  set (dict := fun row : string * list string =>
         (universal_newlines row.1,
          (list_to_map
             (reverse (zip (map universal_newlines
                              ("Original" :: fieldnames))
                           (map universal_newlines (row.1 :: row.2))))
             : gmap string string))).
  match goal with
  | |- import_loop _ _ _ ?dicts _ = _ =>
      assert (dicts = snd <$> (dict <$> rows)) as ->
  end.
  { clear. induction rows as [|row rows IH]; [done|].
    rewrite (map_cons (fun row : string * list string => row.1 :: row.2)).
    rewrite filter_cons_True by done.
    rewrite (map_cons _ (row.1 :: row.2)), IH. reflexivity. }
  rewrite import_loop_no_alias.
  - simpl. rewrite length_fmap. f_equal.
    clear. revert m. induction rows as [|row rows IH]; intros m; [done|].
    simpl. apply IH.
  - apply Forall_forall. intros d Hd.
    apply list_elem_of_fmap in Hd as (row & -> & _). unfold dict.
    cbn [fst snd].
    change (map universal_newlines ("Original" :: fieldnames))
      with ("Original" :: map universal_newlines fieldnames).
    change (map universal_newlines (row.1 :: row.2))
      with (universal_newlines row.1 :: map universal_newlines row.2).
    split.
    + apply (dict_row_first_key (map universal_newlines fieldnames)
               (map universal_newlines row.2)
               "Original" (universal_newlines row.1)).
      by apply Hkeep.
    + apply (dict_row_no_key ("Original" :: map universal_newlines fieldnames)
               (universal_newlines row.1 :: map universal_newlines row.2)).
      intros H. apply elem_of_cons in H as [H|H]; [discriminate H|].
      revert H. by apply Hkeep.
Qed.

(** ** The variations that an import reads *)

Lemma split_pieces (c : ascii) (s : string) :
  Forall (fun piece => contains c piece = false) (split c s).
Proof.
  induction s as [|c' s IH]; simpl; [by repeat constructor|].
  destruct (Ascii.eqb c' c) eqn:E; [by constructor|].
  destruct (split c s) as [|piece pieces].
  - repeat constructor. simpl. by rewrite E.
  - apply Forall_cons in IH as [Hp Hps].
    constructor; [|done]. simpl. by rewrite E, Hp.
Qed.

(** The variations that [import_csv] reads from a field are normal: none
    holds a semicolon, none is empty and none has white space at either
    end.  [export_csv] followed by [import_csv] gives them back as they
    are: the import changes a list of variations at most once. *)
Theorem parse_variations_normal (field : string) :
  Forall clean (parse_variations field)
  ∧ parse_variations (join "; " (parse_variations field))
    = parse_variations field.
Proof.
  assert (Forall clean (parse_variations field)) as Hc.
  { unfold parse_variations. apply Forall_forall. intros v Hv.
    apply list_elem_of_filter in Hv as [Ht Hv]. rewrite map_fmap in Hv.
    apply list_elem_of_fmap in Hv as (piece & -> & Hin).
    pose proof (split_pieces ";" field) as Hp.
    rewrite Forall_forall in Hp. specialize (Hp piece Hin).
    split; [|split].
    - by apply strip_keeps_out.
    - intros Hempty. by rewrite Hempty in Ht.
    - apply strip_idem. }
  split; [exact Hc|]. by apply parse_variations_join.
Qed.

End MoreStoreProperties.

(** ** Examples *)

Lemma add_then_remove_restores_witness :
  let m := two_orgs in
  (add_entity m "t3" "Gamma" "Org_3" "organization" None "").1 = true
  ∧ remove_entity (add_entity m "t3" "Gamma" "Org_3" "organization" None "").2
      "Gamma" = (true, m).
Proof.
  split; [reflexivity|].
  exact (add_then_remove_restores two_orgs "t3" "Gamma" "Org_3"
           "organization" None "" eq_refl).
Defined.

(** The first call removes the entity whose original is the query up to
    case; the second one finds nothing. *)
Lemma remove_entity_leaves_none_witness :
  remove_entity two_orgs "acme corp"
    = (true,
       set_entities two_orgs
         [mkEntity "Beta Ltd" "Org_9" "organization" [] "" "t2"])
  ∧ remove_entity (remove_entity two_orgs "acme corp").2 "acme corp"
    = (false, (remove_entity two_orgs "acme corp").2).
Proof.
  assert (NoDup ((fun e => lower (original e)) <$> entities two_orgs)) as Hnd.
  { apply (@bool_decide_unpack _ (NoDup_dec _)). vm_compute. exact I. }
  split; [reflexivity|].
  exact (proj2 (remove_entity_leaves_none two_orgs "acme corp" Hnd)).
Defined.

(** The query differs from the original in case: the entity is removed,
    and it is the only one. *)
Lemma remove_entity_removes_first_witness :
  (remove_entity two_orgs "BETA LTD").1 = true
  ∧ ∃ i e,
      entities two_orgs !! i = Some e
      ∧ original e = "Beta Ltd"
      ∧ entities (remove_entity two_orgs "BETA LTD").2
        = take i (entities two_orgs) ++ drop (S i) (entities two_orgs)
      ∧ entities (remove_entity two_orgs "BETA LTD").2
        = [mkEntity "Acme Corp" "Org_1" "organization" [] "" "t1"].
Proof.
  pose proof (remove_entity_removes_first two_orgs "BETA LTD") as H.
  assert ((remove_entity two_orgs "BETA LTD").1 = true) as E by reflexivity.
  rewrite E in H. split; [exact E|].
  destruct H as (i & e & He & Hq & Hfirst & Hes & _).
  exists i, e. split; [exact He|].
  destruct i as [|[|i]]; simpl in He.
  - injection He as <-. vm_compute in Hq. discriminate Hq.
  - injection He as <-. split; [reflexivity|]. split; [exact Hes|]. reflexivity.
  - discriminate He.
Defined.

(** Two originals that are equal up to case: the store is not valid. *)
Lemma validate_valid_iff_witness :
  valid (validate
           {| version := "1.0"; created := "t0"; updated := "t0";
              entities :=
                [mkEntity "Acme" "Org_1" "organization" [] "" "t1";
                 mkEntity "ACME" "Org_2" "organization" [] "" "t2"] |})
  = false.
Proof.
  destruct (valid (validate _)) eqn:E; [|reflexivity].
  apply validate_valid_iff in E as [Hu _].
  assert (0 ≠ 1) as Hne by lia.
  destruct (Hu 0 1 _ _ eq_refl eq_refl Hne) as [Ho _].
  exfalso. apply Ho. reflexivity.
Defined.

Lemma statistics_agree_with_list_witness :
  default 0 (stat_by_type (get_statistics two_orgs) !! "organization") = 2.
Proof.
  assert ("organization" ≠ "") as Hne by done.
  rewrite (proj1 (statistics_agree_with_list two_orgs "organization" Hne)).
  reflexivity.
Defined.

(** Scenario 5 of the specification: two entities with the alias
    ["Org_1"]. *)
Lemma validate_reports_duplicates_witness :
  let m := {| version := "1.0"; created := "t0"; updated := "t0";
              entities :=
                [mkEntity "Acme Corp" "Org_1" "organization" [] "" "t1";
                 mkEntity "Beta Ltd" "org_1" "organization" [] "" "t2"] |} in
  ∃ d, DuplicateAliases d ∈ issues (validate m) ∧ "org_1" ∈ d.
Proof.
  intros m.
  assert (0 ≠ 1) as Hne by lia.
  exact (proj1 (validate_reports_duplicates m 0 1
                  (mkEntity "Acme Corp" "Org_1" "organization" [] "" "t1")
                  (mkEntity "Beta Ltd" "org_1" "organization" [] "" "t2")
                  eq_refl eq_refl Hne) eq_refl).
Defined.

Lemma validate_kept_by_add_and_remove_witness :
  valid (validate
           (run_calls (_empty_mapping "t0" "t0")
              [CallAdd "t1" "John Smith" "Person_A" "person" None "";
               CallAdd "t2" "john smith" "Person_B" "person" None "";
               CallRemove "JOHN SMITH";
               CallAdd "t3" "Acme" "Org_1" "organization" None ""]))
  = true.
Proof.
  apply validate_kept_by_add_and_remove; [reflexivity|].
  repeat constructor; done.
Defined.

Lemma validate_kept_by_add_variation_witness :
  valid (validate (add_variation two_orgs "beta ltd" "Beta").2) = true.
Proof. apply validate_kept_by_add_variation. reflexivity. Defined.

Lemma merge_skip_keeps_existing_witness :
  entities two_orgs `prefix_of`
    entities (merge two_orgs (fun _ => "t9") acme_as_org_9 "skip").2.
Proof.
  assert ("skip" ≠ "overwrite") as Hs by done.
  exact (proj1 (merge_skip_keeps_existing two_orgs (fun _ => "t9")
                  acme_as_org_9 "skip" Hs)).
Defined.

Lemma merge_keeps_uniqueness_witness :
  unique_up_to_case
    (entities (merge two_orgs (fun _ => "t9") acme_as_org_9 "overwrite").2).
Proof.
  apply merge_keeps_uniqueness, keys_nodup_unique.
  split; apply (@bool_decide_unpack _ (NoDup_dec _)); vm_compute; exact I.
Defined.

Lemma merge_counts_refused_as_added_witness :
  merge two_orgs (fun _ => "t9")
    [mkIncoming "Gamma Inc" "ORG_9" None None None] "skip"
    = ({| merged_added := 1; merged_skipped := 0; merged_overwritten := 0 |},
       two_orgs).
Proof.
  apply merge_counts_refused_as_added; [reflexivity|].
  apply Exists_cons. right. apply Exists_cons. left. reflexivity.
Defined.

Lemma import_keeps_uniqueness_witness :
  unique_up_to_case
    (entities (import_csv two_orgs (fun _ => "t9")
                 [csv_header;
                  ["ACME CORP"; "Org_7"; "organization"; ""; ""];
                  ["Delta"; "org_9"; "organization"; "D; Delta Co"; ""]]
                 true).2).
Proof.
  apply import_keeps_uniqueness, keys_nodup_unique.
  split; apply (@bool_decide_unpack _ (NoDup_dec _)); vm_compute; exact I.
Defined.

Lemma import_without_original_column_witness :
  import_csv two_orgs (fun _ => "t9")
    [["Name"; "Alias"]; ["Delta"; "Org_3"]; []; ["Acme Corp"; "Org_4"]] true
  = ({| import_added := 0; import_skipped := 0;
        import_errors := ["'Original'"; "'Original'"] |}, two_orgs).
Proof.
  apply (import_without_original_column two_orgs (fun _ => "t9")
           ["Name"; "Alias"]
           [["Delta"; "Org_3"]; []; ["Acme Corp"; "Org_4"]] true).
  - intros H. repeat (apply elem_of_cons in H as [H|H]; [discriminate H|]).
    inversion H.
  - repeat constructor; unfold full_row; simpl; (by left) || (right; lia).
Defined.

Lemma import_overwrite_without_alias_column_witness :
  import_csv two_orgs (fun _ => "t9")
    [["Original"; "Type"]; ["acme corp"; "organization"]] true
  = ({| import_added := 0; import_skipped := 0;
        import_errors := ["'Alias'"] |},
     set_entities two_orgs
       [mkEntity "Beta Ltd" "Org_9" "organization" [] "" "t2"]).
Proof.
  assert (("Original" ∉ ["Type"]) ∧ ("Alias" ∉ ["Type"])) as [H1 H2].
  { split; intros H;
      repeat (apply elem_of_cons in H as [H|H]; [discriminate H|]);
      inversion H. }
  assert (Forall (fun row : string * list string =>
                    length ["Type"] <= length row.2)
            [("acme corp", ["organization"])]) as H3.
  { repeat constructor. }
  pose proof (import_overwrite_without_alias_column two_orgs (fun _ => "t9")
                ["Type"] [("acme corp", ["organization"])] H1 H2 H3) as Hw.
  vm_compute in Hw. vm_compute. exact Hw.
Defined.

(** * Further properties of the redaction engine *)

Section MoreEngineProperties.
Context {str_methods : StrMethods}.

(** ** redact_patterns and the names it is given *)

Lemma pattern_of_none (table : list (string * regex)) (name : string) :
  pattern_of table name = None ↔ name ∉ table.*1.
Proof.
  induction table as [|[n r] table IH]; simpl.
  - split; [|done]. intros _ H. inversion H.
  - destruct (String.eqb n name) eqn:E.
    + apply String.eqb_eq in E as ->. split; [done|].
      intros H. exfalso. apply H. by left.
    + apply String.eqb_neq in E. rewrite IH, not_elem_of_cons.
      split; [intros H; split; [congruence | done] | by intros [_ H]].
Qed.

(** [redact_patterns] passes over the names that are not keys of
    [PATTERNS], without an error: the call is the call with the known
    names alone, in the same order. *)
Theorem redact_patterns_ignores_unknown_names
    (st : Redactor) (text : string) (names : list string)
    (random_mode : bool) :
  redact_patterns st text (Some names) random_mode
  = redact_patterns st text
      (Some (filter (fun name => name ∈ PATTERNS.*1) names)) random_mode.
Proof.
  unfold redact_patterns. revert text st.
  induction names as [|name names IH]; intros text st; [done|].
  rewrite redact_patterns_loop_cons.
  destruct (pattern_of PATTERNS name) as [pattern|] eqn:E.
  - rewrite filter_cons_True.
    + rewrite redact_patterns_loop_cons, E.
      destruct (sub false pattern (replace_func name random_mode) text st).
      apply IH.
    + destruct (decide (name ∈ PATTERNS.*1)) as [Hin|Hout]; [done|].
      apply pattern_of_none in Hout. congruence.
  - rewrite filter_cons_False; [apply IH|].
    by apply pattern_of_none.
Qed.

(** ** What the methods do to the object *)

(** From [st0] to [st] the mapping is the same, the log of [st0] is the
    head of the log of [st], and the entries that came on top satisfy
    [P]. *)
Definition grown (P : LogEntry -> Prop) (st0 st : Redactor) : Prop :=
  mapping st = mapping st0
  ∧ ∃ entries,
      redaction_log st = redaction_log st0 ++ entries ∧ Forall P entries.

Lemma grown_refl (P : LogEntry -> Prop) (st : Redactor) : grown P st st.
Proof. split; [done|]. exists []. by rewrite app_nil_r. Qed.

Lemma grown_log_append (P : LogEntry -> Prop) (st0 st : Redactor)
    (entry : LogEntry) :
  P entry -> grown P st0 st -> grown P st0 (log_append st entry).
Proof.
  intros Hp (Hm & entries & Hl & Hall). split; [done|].
  exists (entries ++ [entry]). simpl. rewrite Hl, app_assoc. split; [done|].
  apply Forall_app. split; [done|]. by repeat constructor.
Qed.

Lemma grown_weaken (P Q : LogEntry -> Prop) (st0 st : Redactor) :
  (forall entry, P entry -> Q entry) -> grown P st0 st -> grown Q st0 st.
Proof.
  intros Hpq (Hm & entries & Hl & Hall). split; [done|].
  exists entries. split; [done|]. eapply Forall_impl; [exact Hall | exact Hpq].
Qed.

(** The entry that [replace_func] writes for a match. *)
Definition logged_match (name : string) (random_mode : bool)
    (matched : string) (st : Redactor) : LogEntry :=
  {| log_type := "pattern"; log_pattern := Some name;
     log_original := matched;
     log_replacement :=
       (_get_pattern_replacement st name matched random_mode).1;
     log_mapped_from := None |}.

Lemma grown_replace_func (P : LogEntry -> Prop) (name : string)
    (random_mode : bool) (st0 : Redactor) :
  (forall matched st, P (logged_match name random_mode matched st)) ->
  forall matched st,
    grown P st0 st -> grown P st0 (replace_func name random_mode matched st).2.
Proof.
  intros HP matched st Hst. specialize (HP matched st).
  unfold replace_func, logged_match in *.
  destruct (_get_pattern_replacement st name matched random_mode)
    as [replacement st1] eqn:E.
  simpl in *. apply grown_log_append; [exact HP|].
  unfold _get_pattern_replacement in E.
  destruct random_mode; injection E as <- <-; [|done].
  destruct Hst as (Hm & entries & Hl & Hall). split; [done|]. by exists entries.
Qed.

Lemma grown_redact_patterns_loop (P : LogEntry -> Prop) (random_mode : bool)
    (st0 : Redactor) (names : list string) :
  Forall (fun name =>
            name ∈ PATTERNS.*1 ->
            forall matched st, P (logged_match name random_mode matched st))
    names ->
  forall text st,
    grown P st0 st ->
    grown P st0 (redact_patterns_loop names random_mode text st).2.
Proof.
  induction 1 as [|name names Hname _ IH]; intros text st Hst; [done|].
  rewrite redact_patterns_loop_cons.
  destruct (pattern_of PATTERNS name) as [pattern|] eqn:E; [|by apply IH].
  assert (name ∈ PATTERNS.*1) as Hin.
  { destruct (decide (name ∈ PATTERNS.*1)) as [Hin|Hout]; [done|].
    apply pattern_of_none in Hout. congruence. }
  pose proof (scan_invariant (grown P st0) (match_at false pattern)
                (replace_func name random_mode)
                (grown_replace_func P name random_mode st0 (Hname Hin))
                text None 0 st Hst) as Hscan.
  unfold sub. destruct (scan _ _ None text 0 st) as [text' st'].
  by apply IH.
Qed.

(** The entry that [make_replacer(alias, orig_term)] writes: it names an
    entity of the list and one of its terms. *)
Definition entity_logged (es : list Entity) (entry : LogEntry) : Prop :=
  log_type entry = "entity" ∧ log_pattern entry = None
  ∧ ∃ entity term,
      entity ∈ es ∧ term ∈ original entity :: variations entity
      ∧ term ≠ ""
      ∧ log_replacement entry = alias entity
      ∧ log_mapped_from entry = Some term.

(** The object has the counters [c]. *)
Definition counters_are (c : gmap string nat) (st : Redactor) : Prop :=
  _random_counter st = c.

Lemma grown_redact_terms (P : LogEntry -> Prop) (ic : bool) (al : string)
    (st0 : Redactor) (c : gmap string nat) (terms : list string) :
  Forall (fun term =>
            term ≠ "" ->
            forall matched,
              P {| log_type := "entity"; log_pattern := None;
                   log_original := matched; log_replacement := al;
                   log_mapped_from := Some term |}) terms ->
  forall text st,
    grown P st0 st ∧ counters_are c st ->
    let st' := (redact_terms ic al terms text st).2 in
    grown P st0 st' ∧ counters_are c st'.
Proof.
  induction 1 as [|term terms Hterm _ IH]; intros text st Hst; [done|].
  simpl. destruct (truthy term) eqn:Et; [|by apply IH].
  assert (term ≠ "") as Hne by (intros ->; done).
  pose proof (scan_invariant (fun st => grown P st0 st ∧ counters_are c st)
                (match_at ic (whole_word term)) (make_replacer al term))
    as Hscan.
  specialize (Hscan
    (fun matched st1 H =>
       conj (grown_log_append P st0 st1 _ (Hterm Hne matched) (proj1 H))
            (proj2 H)) text None 0 st Hst).
  unfold sub. destruct (scan _ _ None text 0 st) as [text' st'].
  by apply IH.
Qed.

Lemma grown_redact_entities_loop (ic : bool) (all : list Entity)
    (st0 : Redactor) (c : gmap string nat) (es : list Entity) :
  es ⊆ all ->
  forall text st,
    grown (entity_logged all) st0 st ∧ counters_are c st ->
    let st' := (redact_entities_loop ic es text st).2 in
    grown (entity_logged all) st0 st' ∧ counters_are c st'.
Proof.
  induction es as [|e es IH]; intros Hsub text st Hst; [done|].
  rewrite redact_entities_loop_cons.
  assert (Forall (fun term =>
            term ≠ "" ->
            forall matched,
              entity_logged all
                {| log_type := "entity"; log_pattern := None;
                   log_original := matched; log_replacement := alias e;
                   log_mapped_from := Some term |})
            (original e :: variations e)) as Hterms.
  { apply Forall_forall. intros term Hin Hne matched.
    split; [done|]. split; [done|]. exists e, term.
    split; [apply Hsub; by left|]. done. }
  pose proof (grown_redact_terms (entity_logged all) ic (alias e) st0 c
                (original e :: variations e) Hterms text st Hst) as Hstep.
  destruct (redact_terms ic (alias e) (original e :: variations e) text st)
    as [text' st'].
  apply IH; [|exact Hstep].
  intros x Hx. apply Hsub. by right.
Qed.

Lemma grown_random_loop (rand : nat -> nat) (entity_type : string)
    (st0 : Redactor) (ents : list string) :
  forall acc,
    grown (fun entry => log_type entry = "random") st0 (run_state acc) ->
    grown (fun entry => log_type entry = "random") st0
      (outcome_state (random_loop rand entity_type ents acc)).
Proof.
  induction ents as [|entity ents IH]; intros acc Hacc; [done|].
  simpl. destruct (assign_id rand entity_type acc entity) as [dm cursor].
  destruct (sub_template true (whole_word entity) _ (run_result acc));
    [|done].
  apply IH. simpl. by apply grown_log_append.
Qed.

(** No method of redaction touches the mapping or the entries that the log
    already holds; each one only appends entries of its own type, also
    when [redact_with_random_ids] ends in an exception. *)
Theorem redaction_only_appends
    (st : Redactor) (text : string) (patterns : option (list string))
    (random_mode case_sensitive : bool) (rand : nat -> nat) (cursor : nat)
    (ents : list string) (entity_type : string) :
  grown (fun entry => log_type entry = "pattern") st
    (redact_patterns st text patterns random_mode).2
  ∧ grown (fun entry => log_type entry = "entity") st
      (redact_entities st text case_sensitive).2
  ∧ grown (fun entry => log_type entry = "random") st
      (outcome_state
         (redact_with_random_ids st rand cursor text ents entity_type)).
Proof.
  split; [|split].
  - unfold redact_patterns. apply grown_redact_patterns_loop.
    + apply Forall_forall. by intros name _ _ matched st1.
    + apply grown_refl.
  - unfold redact_entities.
    eapply grown_weaken;
      [|apply (grown_redact_entities_loop _ (entities (mapping st)) st
                 (_random_counter st)); [done|]].
    + by intros entry [Ht _].
    + split; [apply grown_refl | done].
  - unfold redact_with_random_ids. apply grown_random_loop. apply grown_refl.
Qed.

(** Every entry that [redact_entities] appends names an entity of the
    mapping and the term of it that matched: [replacement] is the alias of
    the entity and [mapped_from] its original or one of its variations,
    never the empty string.  The counters of random mode stay as they
    are. *)
Theorem entity_entries_name_their_entity
    (st : Redactor) (text : string) (case_sensitive : bool) :
  let st' := (redact_entities st text case_sensitive).2 in
  grown (entity_logged (entities (mapping st))) st st'
  ∧ _random_counter st' = _random_counter st.
Proof.
  unfold redact_entities.
  apply (grown_redact_entities_loop _ (entities (mapping st)) st
           (_random_counter st)); [done|].
  split; [apply grown_refl | done].
Qed.

(** The entry of a match in fixed mode: the pattern is one of [PATTERNS]
    and, when a list of names was given, one of the list; the replacement
    is ["[" + name.upper() + "-REDACTED]"]. *)
Definition fixed_entry (patterns : option (list string)) (entry : LogEntry)
    : Prop :=
  log_type entry = "pattern" ∧ log_mapped_from entry = None
  ∧ ∃ name,
      log_pattern entry = Some name
      ∧ name ∈ PATTERNS.*1
      ∧ (forall names, patterns = Some names -> name ∈ names)
      ∧ log_replacement entry = "[" +:+ upper name +:+ "-REDACTED]".

Lemma fixed_counters_loop (c : gmap string nat) (names : list string) :
  forall text st,
    counters_are c st ->
    counters_are c (redact_patterns_loop names false text st).2.
Proof.
  induction names as [|name names IH]; intros text st Hst; [done|].
  rewrite redact_patterns_loop_cons.
  destruct (pattern_of PATTERNS name) as [pattern|]; [|by apply IH].
  pose proof (scan_invariant (counters_are c) (match_at false pattern)
                (replace_func name false)
                (fun matched st1 (H : counters_are c st1) => H)
                text None 0 st Hst) as Hscan.
  unfold sub. destruct (scan _ _ None text 0 st) as [text' st'].
  by apply IH.
Qed.

(** In fixed mode [redact_patterns] leaves the counters of random mode as
    they are, and every entry it appends carries the one placeholder of
    its pattern, ["[NAME-REDACTED]"]. *)
Theorem fixed_mode_entries
    (st : Redactor) (text : string) (patterns : option (list string)) :
  let st' := (redact_patterns st text patterns false).2 in
  _random_counter st' = _random_counter st
  ∧ grown (fixed_entry patterns) st st'.
Proof.
  unfold redact_patterns. split.
  - by apply fixed_counters_loop.
  - apply grown_redact_patterns_loop; [|apply grown_refl].
    apply Forall_forall. intros name Hin Hknown matched st1.
    split; [done|]. split; [done|]. exists name.
    split; [done|]. split; [done|]. split; [|done].
    intros names ->. exact Hin.
Qed.

(** ** get_redaction_report *)

Lemma count_type_count_key (counts : gmap string nat) (entry : LogEntry) :
  count_type counts entry = count_key counts (log_type entry).
Proof.
  unfold count_type, count_key.
  destruct (counts !! log_type entry) eqn:E; [by rewrite E|].
  rewrite lookup_insert_eq. simpl. by rewrite insert_insert_eq.
Qed.

Lemma count_type_fold (log : list LogEntry) :
  forall counts,
    fold_left count_type log counts
    = fold_left count_key (log_type <$> log) counts.
Proof.
  induction log as [|entry log IH]; intros counts; [done|].
  simpl. by rewrite count_type_count_key, IH.
Qed.

(** The report counts the log: [by_type] has a key for a type exactly when
    the log holds an entry of it, the count is the number of these
    entries, the counts add up to [total_redactions], and [details] is
    the log. *)
Theorem report_counts_by_type (st : Redactor) (t : string) :
  let report := get_redaction_report st in
  default 0 (by_type report !! t)
    = length (filter (fun entry => log_type entry = t) (redaction_log st))
  ∧ (is_Some (by_type report !! t)
     ↔ ∃ entry, entry ∈ redaction_log st ∧ log_type entry = t)
  ∧ sum_counts (by_type report) = total_redactions report
  ∧ details report = redaction_log st.
Proof.
  unfold get_redaction_report. simpl. rewrite count_type_fold.
  destruct (count_fold_lookup (log_type <$> redaction_log st) t ∅)
    as (Hn & Hs & Hsum).
  assert (length (filter (fun x => x = t) (log_type <$> redaction_log st))
          = length (filter (fun entry => log_type entry = t)
                      (redaction_log st))) as Hlen.
  { clear. induction (redaction_log st) as [|entry log IH]; [done|].
    rewrite fmap_cons, !filter_cons. simpl.
    destruct (decide (log_type entry = t)); simpl; by rewrite IH. }
  rewrite Hn, Hs, Hsum, Hlen, lookup_empty, length_fmap. simpl.
  split; [done|]. split; [|split; [|done]].
  - split.
    + intros [H|H]; [by destruct H|].
      apply list_elem_of_fmap in H as (entry & He & Hin). by exists entry.
    + intros (entry & Hin & He). right.
      apply list_elem_of_fmap. by exists entry.
  - unfold sum_counts. by rewrite map_fold_empty.
Qed.

(** ** process_file *)

(** [process_file(input_path, output_path, redactor, patterns,
    random_mode)]: [content] is what the input file holds, the first
    component of the result is what is written to the output file, the
    second one the report that is returned, the third one the redactor as
    the call leaves it.  [if patterns:] is false for [None] and for the
    empty list. *)
Definition process_file (content : string) (st : Redactor)
    (patterns : option (list string)) (random_mode : bool)
    : string * Report * Redactor :=
  let st0 := clear_log st in
  let '(result, st1) := redact_entities st0 content false in
  let '(result', st2) :=
    match patterns with
    | Some (name :: names) =>
        redact_patterns st1 result (Some (name :: names)) random_mode
    | _ => (result, st1)
    end in
  (result', get_redaction_report st2, st2).

Lemma process_file_counted (content : string) (st : Redactor)
    (patterns : option (list string)) :
  counted (process_file content st patterns true).2.
Proof.
  unfold process_file, redact_entities.
  pose proof (counted_redact_entities_loop (negb false)
                (entities (mapping (clear_log st))) content (clear_log st)
                (counted_clear_log st)) as H1.
  destruct (redact_entities_loop _ _ content (clear_log st)) as [result st1].
  simpl in H1. destruct patterns as [[|name names]|]; try exact H1.
  pose proof (counted_redact_patterns_loop (name :: names) result st1 H1)
    as H2.
  unfold redact_patterns.
  destruct (redact_patterns_loop (name :: names) true result st1)
    as [result' st2].
  exact H2.
Qed.

(** What [redact_entities] appends to an empty log. *)
Lemma entity_step (st : Redactor) (content : string) :
  ∃ entries,
    redaction_log (redact_entities (clear_log st) content false).2 = entries
    ∧ Forall (fun entry => log_type entry = "entity") entries.
Proof.
  destruct (grown_redact_entities_loop (negb false)
              (entities (mapping (clear_log st))) (clear_log st) ∅
              (entities (mapping (clear_log st))) (reflexivity _) content
              (clear_log st) (conj (grown_refl _ _) eq_refl))
    as [(_ & entries & Hlog & Hall) _].
  exists entries. split; [exact Hlog|].
  eapply Forall_impl; [exact Hall|]. by intros entry [Ht _].
Qed.

(** Every file starts afresh.  What [process_file] writes and reports
    does not depend on the log and the counters that the redactor brings
    along, only on its mapping; and in random mode the [k]-th match of a
    pattern in the file, counted from 1, gets the placeholder of [k],
    whatever was numbered in the files before. *)
Theorem process_file_starts_afresh
    (content : string) (m : Mapping) (log : list LogEntry)
    (counters : gmap string nat) (patterns : option (list string))
    (random_mode : bool) (name : string) (k : nat) (entry : LogEntry) :
  let st := {| mapping := m; redaction_log := log;
               _random_counter := counters |} in
  process_file content st patterns random_mode
  = process_file content
      {| mapping := m; redaction_log := []; _random_counter := ∅ |}
      patterns random_mode
  ∧ (pattern_entries name
       (details (process_file content st patterns true).1.2) !! k
     = Some entry ->
     log_replacement entry = placeholder name (S k)).
Proof.
  split; [reflexivity|].
  intros Hk.
  destruct (process_file_counted content
              {| mapping := m; redaction_log := log;
                 _random_counter := counters |} patterns name)
    as [_ Hentries].
  apply Hentries.
  unfold process_file in *.
  destruct (redact_entities _ content false) as [result st1].
  destruct (match patterns with
            | Some (name :: names) =>
                redact_patterns st1 result (Some (name :: names)) true
            | _ => (result, st1)
            end) as [result' st2].
  exact Hk.
Qed.

(** Without a list of patterns, [None] or empty, [process_file] redacts
    the entities alone: it writes what [redact_entities] returns, and the
    report has no entry of type [pattern], where [redact_patterns] with
    [None] would apply every pattern. *)
Theorem process_file_without_patterns
    (content : string) (st : Redactor) (patterns : option (list string))
    (random_mode : bool) :
  default [] patterns = [] ->
  let report := (process_file content st patterns random_mode).1.2 in
  (process_file content st patterns random_mode).1.1
    = (redact_entities (clear_log st) content false).1
  ∧ by_type report !! "pattern" = None
  ∧ default 0 (by_type report !! "entity") = total_redactions report.
Proof.
  intros Hp.
  assert (process_file content st patterns random_mode
          = let '(result, st1) :=
              redact_entities (clear_log st) content false in
            (result, get_redaction_report st1, st1)) as ->.
  { unfold process_file.
    destruct (redact_entities (clear_log st) content false) as [result st1].
    destruct patterns as [[|name names]|]; [done | discriminate Hp | done]. }
  destruct (entity_step st content) as (entries & Hlog & Hall).
  destruct (redact_entities (clear_log st) content false) as [result st1].
  simpl in *. split; [done|].
  rewrite count_type_fold, Hlog.
  destruct (count_fold_lookup (log_type <$> entries) "pattern" ∅)
    as (_ & Hs & _).
  destruct (count_fold_lookup (log_type <$> entries) "entity" ∅)
    as (Hn & _ & _).
  split.
  - apply eq_None_not_Some. rewrite Hs. intros [H|H]; [by destruct H|].
    apply list_elem_of_fmap in H as (entry & He & Hin).
    rewrite Forall_forall in Hall. specialize (Hall entry Hin). congruence.
  - rewrite Hn, lookup_empty. simpl. rewrite <- (length_fmap log_type entries).
    f_equal. clear -Hall. induction Hall as [|entry log He _ IH]; [done|].
    rewrite fmap_cons, filter_cons_True by done. simpl. by rewrite IH.
Qed.

(** ** analyze_text *)

(** [re.findall(pattern, text)] for a pattern without a group, as all of
    [PATTERNS] are: the texts of the matches, found as [re.sub] finds
    them, from left to right and without overlap. *)
Fixpoint findall_scan (matcher : option ascii -> string -> option nat)
    (prev : option ascii) (s : string) (skip : nat) {struct s}
    : list string :=
  match skip with
  | S skip' =>
      match s with
      | String c s' => findall_scan matcher (Some c) s' skip'
      | EmptyString => []
      end
  | O =>
      match matcher prev s with
      | Some n =>
          take_chars n s ::
          match s with
          | EmptyString => []
          | String c s' => findall_scan matcher (Some c) s' (Nat.pred n)
          end
      | None =>
          match s with
          | EmptyString => []
          | String c s' => findall_scan matcher (Some c) s' 0
          end
      end
  end.

Definition findall (pattern : regex) (text : string) : list string :=
  findall_scan (match_at false pattern) None text 0.

Record Finding := mkFinding {
  finding_count : nat;
  finding_samples : list string
}.

Record Findings := mkFindings {
  found_patterns : gmap string Finding;
  total_matches : nat
}.

(** One turn of the loop over [PATTERNS.items()].  [set_order] is the
    order in which Python walks through [set(matches)], which the
    program does not fix. *)
Definition analyze_step (set_order : list string -> list string)
    (text : string) (findings : Findings) (item : string * regex)
    : Findings :=
  let matches := findall item.2 text in
  match matches with
  | [] => findings
  | _ =>
      {| found_patterns :=
           <[item.1 := {| finding_count := length matches;
                          finding_samples := take 5 (set_order matches) |}]>
             (found_patterns findings);
         total_matches := total_matches findings + length matches |}
  end.

Definition analyze_text (set_order : list string -> list string)
    (text : string) : Findings :=
  fold_left (analyze_step set_order text) PATTERNS
    {| found_patterns := ∅; total_matches := 0 |}.

Lemma replace_func_log (name : string) (random_mode : bool)
    (matched : string) (st : Redactor) :
  ∃ entry,
    redaction_log (replace_func name random_mode matched st).2
      = redaction_log st ++ [entry]
    ∧ log_original entry = matched.
Proof.
  unfold replace_func, _get_pattern_replacement.
  destruct random_mode; simpl; by eexists.
Qed.

Lemma scan_logs_findall (name : string) (random_mode : bool)
    (matcher : option ascii -> string -> option nat) :
  forall s prev skip st,
    ∃ entries,
      redaction_log
        (scan matcher (replace_func name random_mode) prev s skip st).2
        = redaction_log st ++ entries
      ∧ log_original <$> entries = findall_scan matcher prev s skip.
Proof.
  induction s as [|c s IH]; intros prev skip st.
  - simpl. destruct skip.
    + destruct (matcher prev EmptyString) as [n|].
      * destruct (replace_func_log name random_mode
                    (take_chars n EmptyString) st) as (entry & Hl & Ho).
        destruct (replace_func name random_mode (take_chars n EmptyString) st)
          as [out st1].
        simpl in *. exists [entry]. split; [done|]. simpl. by rewrite Ho.
      * exists []. by rewrite app_nil_r.
    + exists []. by rewrite app_nil_r.
  - simpl. destruct skip as [|skip]; [|apply IH].
    destruct (matcher prev (String c s)) as [n|].
    + destruct (replace_func_log name random_mode
                  (take_chars n (String c s)) st) as (entry & Hl & Ho).
      destruct (replace_func name random_mode (take_chars n (String c s)) st)
        as [out st1].
      simpl in Hl.
      destruct n as [|n].
      * destruct (IH (Some c) 0 st1) as (entries & Hl' & Hf).
        destruct (scan matcher (replace_func name random_mode) (Some c) s 0
                    st1) as [rest st2].
        simpl in *. exists (entry :: entries).
        rewrite Hl', Hl, <- app_assoc. split; [done|].
        rewrite fmap_cons, Ho, Hf. done.
      * destruct (IH (Some c) n st1) as (entries & Hl' & Hf).
        destruct (scan matcher (replace_func name random_mode) (Some c) s n
                    st1) as [rest st2].
        simpl in *. exists (entry :: entries).
        rewrite Hl', Hl, <- app_assoc. split; [done|].
        rewrite fmap_cons, Ho, Hf. done.
    + destruct (IH (Some c) 0 st) as (entries & Hl' & Hf).
      destruct (scan matcher (replace_func name random_mode) (Some c) s 0 st)
        as [rest st1].
      simpl in *. by exists entries.
Qed.

Lemma pattern_of_some (table : list (string * regex)) (name : string)
    (pattern : regex) :
  pattern_of table name = Some pattern -> (name, pattern) ∈ table.
Proof.
  induction table as [|[n r] table IH]; simpl; [done|].
  destruct (String.eqb n name) eqn:E.
  - apply String.eqb_eq in E as ->. intros [= ->]. by left.
  - intros H. right. by apply IH.
Qed.

Lemma analyze_fold_other (set_order : list string -> list string)
    (text name : string) (table : list (string * regex)) :
  name ∉ table.*1 ->
  forall findings,
    found_patterns (fold_left (analyze_step set_order text) table findings)
      !! name
    = found_patterns findings !! name.
Proof.
  induction table as [|[n r] table IH]; intros Hout findings; [done|].
  rewrite fmap_cons, not_elem_of_cons in Hout. destruct Hout as [Hne Hout].
  simpl. rewrite IH by done. unfold analyze_step. simpl.
  destruct (findall r text); [done|]. simpl. by rewrite lookup_insert_ne.
Qed.

Lemma analyze_fold_lookup (set_order : list string -> list string)
    (text name : string) (pattern : regex) (table : list (string * regex)) :
  NoDup table.*1 -> (name, pattern) ∈ table ->
  forall findings,
    found_patterns findings !! name = None ->
    found_patterns (fold_left (analyze_step set_order text) table findings)
      !! name
    = match findall pattern text with
      | [] => None
      | matches =>
          Some {| finding_count := length matches;
                  finding_samples := take 5 (set_order matches) |}
      end.
Proof.
  induction table as [|[n r] table IH]; intros Hnd Hin findings Hnone.
  - inversion Hin.
  - rewrite fmap_cons in Hnd. apply NoDup_cons in Hnd as [Hn Hnd].
    apply elem_of_cons in Hin as [Heq|Hin].
    + injection Heq as <- <-. simpl.
      rewrite analyze_fold_other by done. unfold analyze_step. simpl.
      destruct (findall pattern text); [done|]. simpl.
      by rewrite lookup_insert_eq.
    + simpl. apply IH; [done|done|].
      assert (name ≠ n) as Hne.
      { intros ->. apply Hn. apply list_elem_of_fmap.
        by exists (n, pattern). }
      unfold analyze_step. simpl.
      destruct (findall r text); [done|]. simpl.
      by rewrite lookup_insert_ne.
Qed.

Lemma analyze_fold_total (set_order : list string -> list string)
    (text : string) (table : list (string * regex)) :
  forall findings,
    total_matches (fold_left (analyze_step set_order text) table findings)
    = total_matches findings
      + sum_list ((fun item => length (findall item.2 text)) <$> table).
Proof.
  induction table as [|[n r] table IH]; intros findings; [simpl; lia|].
  cbn [fold_left]. rewrite IH, fmap_cons.
  assert (forall (x : nat) l, sum_list (x :: l) = x + sum_list l) as ->
    by reflexivity.
  remember (sum_list ((fun item => length (findall item.2 text)) <$> table))
    as rest.
  unfold analyze_step. cbn [fst snd].
  destruct (findall r text); cbn [total_matches length]; lia.
Qed.

(** [analyze_text] foretells the redaction of one pattern.  For a name of
    [PATTERNS], [redact_patterns(text, [name])] appends one entry for each
    match that [analyze_text(text)] counts under the name, the entries
    hold the matched texts in the order of the text, and the name is
    missing from the findings exactly when nothing is replaced;
    [total_matches] is the sum of the counts over all patterns, each one
    matched against the text as it is given. *)
Theorem analyze_text_foretells_redaction
    (set_order : list string -> list string) (st : Redactor)
    (text name : string) (pattern : regex) (random_mode : bool) :
  pattern_of PATTERNS name = Some pattern ->
  let findings := analyze_text set_order text in
  let st' := (redact_patterns st text (Some [name]) random_mode).2 in
  ∃ entries,
    redaction_log st' = redaction_log st ++ entries
    ∧ log_original <$> entries = findall pattern text
    ∧ match found_patterns findings !! name with
      | Some finding =>
          finding_count finding = length entries ∧ entries ≠ []
      | None => entries = []
      end
    ∧ total_matches findings
      = sum_list ((fun item => length (findall item.2 text)) <$> PATTERNS).
Proof.
  intros Hp. unfold redact_patterns.
  rewrite redact_patterns_loop_cons, Hp. unfold sub.
  destruct (scan_logs_findall name random_mode (match_at false pattern)
              text None 0 st) as (entries & Hl & Hf).
  destruct (scan (match_at false pattern) (replace_func name random_mode)
              None text 0 st) as [text' st'].
  simpl in *. exists entries. split; [exact Hl|]. split; [exact Hf|].
  split.
  - unfold analyze_text.
    rewrite (analyze_fold_lookup set_order text name pattern PATTERNS);
      [| apply (@bool_decide_unpack _ (NoDup_dec _)); vm_compute; exact I
       | by apply pattern_of_some
       | done].
    fold (findall pattern text) in Hf. rewrite <- Hf.
    destruct entries as [|entry entries]; [done|].
    rewrite fmap_cons. simpl. by rewrite length_fmap.
  - unfold analyze_text. by rewrite analyze_fold_total.
Qed.

(** ** The mapping of the document in redact_with_random_ids *)

Fixpoint all_chars (p : ascii -> bool) (s : string) : bool :=
  match s with
  | EmptyString => true
  | String c s' => p c && all_chars p s'
  end.

(** An identifier as [_generate_random_id(prefix)] makes it: the prefix, a
    hyphen, and eight characters out of [A-Z0-9]. *)
Definition id_of (prefix id : string) : Prop :=
  ∃ part,
    id = prefix +:+ "-" +:+ part
    ∧ String.length part = 8
    ∧ all_chars (fun c => is_upper c || is_digit c) part = true.

Lemma id_chars_upper_digit (i : nat) :
  is_upper (char_at id_chars (i mod 36))
  || is_digit (char_at id_chars (i mod 36)) = true.
Proof.
  assert (forallb (fun i => is_upper (char_at id_chars i)
                            || is_digit (char_at id_chars i))
            (List.seq 0 36) = true) as Hall by (vm_compute; reflexivity).
  rewrite forallb_forall in Hall.
  apply (Hall (i mod 36)), in_seq.
  pose proof (Nat.mod_upper_bound i 36). lia.
Qed.

Lemma random_part_shape (rand : nat -> nat) (n : nat) :
  forall cursor,
    String.length (random_part rand cursor n) = n
    ∧ all_chars (fun c => is_upper c || is_digit c)
        (random_part rand cursor n) = true.
Proof.
  induction n as [|n IH]; intros cursor; [done|].
  destruct (IH (S cursor)) as [Hlen Hall].
  cbn [random_part String.length all_chars].
  rewrite Hlen, Hall. split; [done|].
  by rewrite (id_chars_upper_digit (rand cursor)).
Qed.

(** The invariant of the loop: every identifier has its shape, and eight
    draws were used for each key. *)
Definition shaped (prefix : string) (cursor0 : nat) (acc : RandomRun)
    : Prop :=
  (forall e id, document_mapping acc !! e = Some id -> id_of prefix id)
  ∧ run_cursor acc = cursor0 + 8 * size (document_mapping acc).

Lemma random_loop_shape (rand : nat -> nat) (prefix : string)
    (cursor0 : nat) (ents : list string) :
  forall acc r,
    shaped prefix cursor0 acc ->
    random_loop rand prefix ents acc = Returned r ->
    shaped prefix cursor0 r
    ∧ dom (document_mapping r)
      = dom (document_mapping acc) ∪ list_to_set ents.
Proof.
  induction ents as [|entity ents IH]; intros acc r Hacc Hr.
  - injection Hr as <-. split; [done|]. set_solver.
  - simpl in Hr. unfold assign_id in Hr.
    destruct (document_mapping acc !! entity) as [id|] eqn:E.
    + rewrite E in Hr. simpl in Hr.
      destruct (sub_template true (whole_word entity) id (run_result acc));
        [|discriminate Hr].
      apply IH in Hr as [Hs Hd]; [|exact Hacc].
      split; [done|]. rewrite Hd. simpl.
      apply elem_of_dom_2 in E. set_solver.
    + unfold _generate_random_id in Hr. rewrite lookup_insert_eq in Hr.
      simpl in Hr.
      destruct (sub_template true (whole_word entity) _ (run_result acc));
        [|discriminate Hr].
      apply IH in Hr as [Hs Hd].
      * split; [done|]. rewrite Hd. simpl. rewrite dom_insert_L. set_solver.
      * destruct Hacc as [Hids Hcur]. split; simpl.
        -- intros e id. destruct (decide (e = entity)) as [->|Hne].
           ++ rewrite lookup_insert_eq. intros [= <-].
              exists (random_part rand (run_cursor acc) 8).
              split; [done|]. apply random_part_shape.
           ++ rewrite lookup_insert_ne by done. apply Hids.
        -- rewrite map_size_insert_None by done. lia.
Qed.

(** When [redact_with_random_ids] returns, the mapping of the document has
    exactly the elements of the list as keys, told apart as they are
    written, every identifier is the prefix, a hyphen and eight characters
    out of [A-Z0-9], and eight characters were drawn for each key, none for
    an element that comes again. *)
Theorem random_ids_mapping_shape
    (st : Redactor) (rand : nat -> nat) (cursor : nat) (text : string)
    (ents : list string) (prefix : string) (r : RandomRun) :
  redact_with_random_ids st rand cursor text ents prefix = Returned r ->
  dom (document_mapping r) = list_to_set ents
  ∧ (forall e id, document_mapping r !! e = Some id -> id_of prefix id)
  ∧ run_cursor r = cursor + 8 * size (document_mapping r).
Proof.
  intros Hr. unfold redact_with_random_ids in Hr.
  apply (random_loop_shape rand prefix cursor) in Hr as [[Hids Hcur] Hd].
  - split; [|done]. rewrite Hd. simpl. set_solver.
  - split; simpl.
    + intros e id H. rewrite lookup_empty in H. done.
    + rewrite map_size_empty. lia.
Qed.

End MoreEngineProperties.

(** ** Examples *)

Lemma process_file_starts_afresh_witness :
  ∃ entry,
    pattern_entries "email"
      (details
         (process_file "Acme Corp: a@x.com"
            {| mapping := two_orgs; redaction_log := [];
               _random_counter := {[ "email" := 7 ]} |}
            (Some ["email"]) true).1.2) !! 0 = Some entry
    ∧ log_original entry = "a@x.com"
    ∧ log_replacement entry = "[EMAIL-001]".
Proof.
  assert (pattern_entries "email"
            (details
               (process_file "Acme Corp: a@x.com"
                  {| mapping := two_orgs; redaction_log := [];
                     _random_counter := {[ "email" := 7 ]} |}
                  (Some ["email"]) true).1.2) !! 0
          = Some {| log_type := "pattern"; log_pattern := Some "email";
                    log_original := "a@x.com";
                    log_replacement := "[EMAIL-001]";
                    log_mapped_from := None |}) as Hk
    by (vm_compute; reflexivity).
  eexists. split; [exact Hk|]. split; [reflexivity|].
  rewrite (proj2 (process_file_starts_afresh "Acme Corp: a@x.com" two_orgs []
                    {[ "email" := 7 ]} (Some ["email"]) true "email" 0
                    {| log_type := "pattern"; log_pattern := Some "email";
                       log_original := "a@x.com";
                       log_replacement := "[EMAIL-001]";
                       log_mapped_from := None |}) Hk).
  vm_compute. reflexivity.
Defined.

Lemma process_file_without_patterns_witness :
  (process_file "Acme Corp: a@x.com"
     {| mapping := two_orgs; redaction_log := []; _random_counter := ∅ |}
     (Some []) false).1.1
  = "Org_1: a@x.com".
Proof.
  rewrite (proj1 (process_file_without_patterns "Acme Corp: a@x.com"
                    {| mapping := two_orgs; redaction_log := [];
                       _random_counter := ∅ |} (Some []) false eq_refl)).
  vm_compute. reflexivity.
Defined.

Lemma analyze_text_foretells_redaction_witness :
  ∃ entries,
    redaction_log
      (redact_patterns fresh_engine "Reach me at a@x.com or b@x.com"
         (Some ["email"]) false).2 = entries
    ∧ log_original <$> entries = ["a@x.com"; "b@x.com"].
Proof.
  destruct (analyze_text_foretells_redaction (fun l => l) fresh_engine
              "Reach me at a@x.com or b@x.com" "email" email false eq_refl)
    as (entries & Hl & Hf & _).
  exists entries. split; [exact Hl|]. rewrite Hf. vm_compute. reflexivity.
Defined.

Lemma random_ids_mapping_shape_witness :
  ∃ r,
    redact_with_random_ids fresh_engine (fun n => n) 0
      "Alice met Bob and alice" ["Alice"; "Carol"; "Alice"] "PERSON"
      = Returned r
    ∧ dom (document_mapping r) = list_to_set ["Alice"; "Carol"; "Alice"].
Proof.
  destruct (redact_with_random_ids fresh_engine (fun n => n) 0
              "Alice met Bob and alice" ["Alice"; "Carol"; "Alice"] "PERSON")
    as [r|r] eqn:E.
  - exists r. split; [reflexivity|].
    exact (proj1 (random_ids_mapping_shape fresh_engine (fun n => n) 0
                    "Alice met Bob and alice" ["Alice"; "Carol"; "Alice"]
                    "PERSON" r E)).
  - vm_compute in E. discriminate E.
Defined.
